(** * Monte Carlo revenue forecast: the simulation engine

    A shallow embedding of [api/simulation.py] (with the records of
    [api/models.py] and the defaults of [api/config.py]) and the properties
    the specification states about it.

    Conventions of the embedding.
    - A Python [float] (binary64) is represented by the rational number it
      denotes ([Q], compared with [==]).  The arithmetic Python itself
      performs on floats ([/] on two ints, [*], [-], the built-in [sum]) is
      binary64 arithmetic: each operation returns its exact result rounded
      to the nearest float, ties to even ([fl]).  [round] and the [.Nf]
      format round the exact value of their argument half to even, as
      CPython does; the float that [round] returns is read as the decimal
      it prints as.  The largest finite float is not modelled, so
      infinities and NaN are outside the model.
    - The reductions NumPy performs on the outcome array ([np.sum],
      [np.mean], [np.var], [np.percentile], the edges of [np.histogram]) are
      taken on the exact values: the rounding inside NumPy is not followed
      there.  [np_sum_f64] and [run_monte_carlo_f64] are the binary64
      reading of the row sums of the trial engine, for the one property
      that rounding decides.
    - A Python [int] is a [Z]; a [date] is its proleptic Gregorian ordinal.
    - The square root taken by [np.std] is a parameter, [np_sqrt], of the
      functions that reach it.
    - Exceptions are values of [exn]; code that can raise returns [result].
    - The process environment (current date, clocks, the global NumPy
      generator) is a [world] threaded through the monad [M]. *)

From Stdlib Require Import ZArith QArith Qround Qabs Qpower Lqa Lia List String Ascii Bool.
From Stdlib Require Import Sorting.Mergesort Sorting.Sorted Sorting.Permutation.
From Stdlib Require Import DecimalString.
From Stdlib Require Import Setoid Morphisms.
Import ListNotations.

Set Implicit Arguments.

Local Open Scope Q_scope.

(** ** Exceptions and fallible computations *)

Inductive exn : Type :=
| ZeroDivisionError   (* int / int with a zero divisor *)
| OverflowError       (* date arithmetic leaving the supported range *)
| ValueError          (* raised by NumPy: negative dimension, reduction of
                         a zero-size array, non-positive bin count *)
| IndexError.         (* raised by [np.percentile] on an empty array *)

Definition result (A : Type) : Type := (exn + A)%type.

Definition ok {A} (a : A) : result A := inr a.
Definition fail {A} (e : exn) : result A := inl e.

Definition rbind {A B} (c : result A) (k : A -> result B) : result B :=
  match c with
  | inl e => inl e
  | inr a => k a
  end.

Fixpoint rmap {A B} (f : A -> result B) (l : list A) : result (list B) :=
  match l with
  | [] => ok []
  | x :: r => rbind (f x) (fun y => rbind (rmap f r) (fun ys => ok (y :: ys)))
  end.

(** ** The environment and the state monad over it *)

Record world : Type := mkWorld {
  today : Z;            (* what [date.today()] returns, as an ordinal *)
  utcnow : Q;           (* what [datetime.now(timezone.utc)] returns *)
  perf : nat -> Q;      (* successive readings of [time.perf_counter()] *)
  perf_reads : nat;     (* how many readings were taken *)
  rng : nat -> Q;       (* the uniforms the global generator will produce *)
  drawn : nat           (* how many of them were consumed *)
}.

Definition M (A : Type) : Type := world -> result (A * world).

Definition ret {A} (a : A) : M A := fun w => inr (a, w).
Definition raise {A} (e : exn) : M A := fun _ => inl e.

Definition bind {A B} (c : M A) (k : A -> M B) : M B :=
  fun w =>
    match c w with
    | inl e => inl e
    | inr (a, w') => k a w'
    end.

Definition lift {A} (r : result A) : M A :=
  fun w =>
    match r with
    | inl e => inl e
    | inr a => inr (a, w)
    end.

Declare Scope monad_scope.
Delimit Scope monad_scope with monad.
Notation "x <- c ;; k" := (bind c (fun x => k))
  (at level 61, c at next level, right associativity) : monad_scope.
Notation "' p <- c ;; k" := (bind c (fun x => let p := x in k))
  (at level 61, p pattern, c at next level, right associativity) : monad_scope.

Definition date_today : M Z := fun w => inr (today w, w).

Definition datetime_now_utc : M Q := fun w => inr (utcnow w, w).

Definition perf_counter : M Q :=
  fun w =>
    inr (perf w (perf_reads w),
         mkWorld (today w) (utcnow w) (perf w) (S (perf_reads w)) (rng w) (drawn w)).

(** The world after [k] more uniforms were taken from the generator. *)
Definition consume (k : nat) (w : world) : world :=
  mkWorld (today w) (utcnow w) (perf w) (perf_reads w) (rng w) (drawn w + k)%nat.

(** One row of [m] uniforms taken from the generator, in order. *)
Definition uniform_row (m : nat) : M (list Q) :=
  fun w => inr (map (fun j => rng w (drawn w + j)%nat) (seq 0 m), consume m w).

Fixpoint uniform_rows (n m : nat) : M (list (list Q)) :=
  match n with
  | O => ret []
  | S n' =>
      (row <- uniform_row m ;;
       rows <- uniform_rows n' m ;;
       ret (row :: rows))%monad
  end.

(** [np.random.uniform(0, 1, size=(n, m))]: an [n] by [m] matrix filled row
    by row; a negative dimension is refused. *)
Definition np_random_uniform (n : Z) (m : nat) : M (list (list Q)) :=
  if (n <? 0)%Z then raise ValueError else uniform_rows (Z.to_nat n) m.

(** ** Python numbers and formatting *)

Definition Qlt_bool (x y : Q) : bool := negb (Qle_bool y x).

Definition bool_to_Q (b : bool) : Q := if b then 1 else 0.

(** The sum of a list of rationals, without rounding: the sum the
    specification writes with a capital sigma. *)
Definition exact_sum (l : list Q) : Q := fold_left Qplus l 0.

Definition round_half_even (x : Q) : Z :=
  let f := Qfloor x in
  match Qcompare (x - inject_Z f) (1 # 2) with
  | Lt => f
  | Gt => (f + 1)%Z
  | Eq => if Z.even f then f else (f + 1)%Z
  end.

(** *** binary64

    A positive [x] lies in the binade [2^e <= x < 2^(e+1)] with
    [e = Qlog2 x]; the floats of that binade are the multiples of
    [2^(e-52)], and below [2^-1022] the multiples of [2^-1074] (the
    subnormal numbers).  [fl x] is the float nearest to [x], the one with
    the even significand when [x] is half-way between two. *)

Definition pow2 (e : Z) : Q := 2 ^ e.

Definition Qlog2 (x : Q) : Z :=
  let e := (Z.log2 (Qnum x) - Z.log2 (Zpos (Qden x)))%Z in
  if Qle_bool (pow2 e) x then e else (e - 1)%Z.

Definition quantum (x : Q) : Z := Z.max (Qlog2 (Qabs x) - 52) (-1074).

Definition fl (x : Q) : Q :=
  let q := quantum x in
  inject_Z (round_half_even (x / pow2 q)) * pow2 q.

(** Rounding to the nearest multiple of [2^q], ties to the even multiple:
    [fl x] is [rnd (quantum x) x]. *)
Definition rnd (q : Z) (x : Q) : Q := inject_Z (round_half_even (x / pow2 q)) * pow2 q.

(** [+], [-], [*] and [/] on floats (an [int] operand is converted
    first, exactly for the constants of this program). *)
Definition float_add (x y : Q) : Q := fl (x + y).
Definition float_sub (x y : Q) : Q := fl (x - y).
Definition float_mul (x y : Q) : Q := fl (x * y).
Definition float_truediv (x y : Q) : Q := fl (x / y).

(** Built-in [sum] over floats, as CPython 3.11 computes it: the items
    are added left to right, starting from the int 0.  (From CPython 3.12
    on [sum] compensates the rounding of the additions.) *)
Definition py_sum (l : list Q) : Q := fold_left float_add l 0.

(** [int / int], true division: the float nearest to the quotient. *)
Definition py_truediv (a b : Z) : result Q :=
  if (b =? 0)%Z then fail ZeroDivisionError else ok (fl (inject_Z a / inject_Z b)).

Definition pow10 (n : nat) : Z := (10 ^ Z.of_nat n)%Z.

(** [round(x, ndigits)] *)
Definition py_round (x : Q) (ndigits : nat) : Q :=
  inject_Z (round_half_even (x * inject_Z (pow10 ndigits))) / inject_Z (pow10 ndigits).

Definition digits (z : Z) : string := NilZero.string_of_uint (N.to_uint (Z.to_N z)).

Fixpoint zeros (n : nat) : string :=
  match n with
  | O => EmptyString
  | S n' => String "0" (zeros n')
  end.

Definition zero_pad (width : nat) (s : string) : string :=
  (zeros (width - String.length s)%nat ++ s)%string.

(** Thousands separators, on the digits least significant first. *)
Fixpoint group3 (rev_digits : list ascii) : list ascii :=
  match rev_digits with
  | a :: b :: c :: ((_ :: _) as rest) => a :: b :: c :: ","%char :: group3 rest
  | _ => rev_digits
  end.

Definition with_commas (s : string) : string :=
  string_of_list_ascii (rev (group3 (rev (list_ascii_of_string s)))).

(** The format specs [.Nf] ([grouping = false]) and [,.Nf] ([grouping =
    true]): sign of the value, then its magnitude rounded to [ndigits]
    decimals. *)
Definition format_f (grouping : bool) (ndigits : nat) (x : Q) : string :=
  let r := round_half_even (Qabs x * inject_Z (pow10 ndigits)) in
  let int_part := digits (r / pow10 ndigits)%Z in
  let int_part := if grouping then with_commas int_part else int_part in
  let frac_part :=
    match ndigits with
    | O => EmptyString
    | _ => ("." ++ zero_pad ndigits (digits (r mod pow10 ndigits)%Z))%string
    end in
  ((if Qlt_bool x 0 then "-" else "") ++ int_part ++ frac_part)%string.

(** ** NumPy on one-dimensional arrays *)

Module QOrder <: Orders.TotalLeBool.
Definition t : Type := Q.
Definition leb : t -> t -> bool := Qle_bool.
Lemma leb_total : forall x y, leb x y = true \/ leb y x = true.
Proof.
  intros x y. unfold leb. rewrite !Qle_bool_iff.
  destruct (Qlt_le_dec x y) as [H | H]; [left; apply Qlt_le_weak, H | right; exact H].
Qed.
End QOrder.

Module QSort := Sort QOrder.

(** Built-in [sorted] and [np.sort] (ascending). *)
Definition sorted (l : list Q) : list Q := QSort.sort l.
Definition np_sort (a : list Q) : list Q := QSort.sort a.

(** [np.zeros(n)] *)
Definition np_zeros (n : Z) : result (list Q) :=
  if (n <? 0)%Z then fail ValueError else ok (repeat 0 (Z.to_nat n)).

Definition np_sum (a : list Q) : Q := fold_left Qplus a 0.

Definition len {A} (l : list A) : Z := Z.of_nat (List.length l).

(** On an empty array [np.mean], [np.median] and [np.std] yield NaN with
    a warning and raise nothing: their value there is never used, since
    the program goes on to [np.percentile], which raises.  [np.min] and
    [np.max] raise on an empty array. *)
Definition np_mean (a : list Q) : Q := np_sum a / inject_Z (len a).

Definition Qmin_b (x y : Q) : Q := if Qle_bool x y then x else y.
Definition Qmax_b (x y : Q) : Q := if Qle_bool x y then y else x.

Definition np_min (a : list Q) : result Q :=
  match a with
  | [] => fail ValueError
  | x :: r => ok (fold_left Qmin_b r x)
  end.

Definition np_max (a : list Q) : result Q :=
  match a with
  | [] => fail ValueError
  | x :: r => ok (fold_left Qmax_b r x)
  end.

(** Python indexing of an array: a negative index counts from the end. *)
Definition item (a : list Q) (i : Z) : Q :=
  nth (Z.to_nat (if (i <? 0)%Z then (len a + i)%Z else i)) a 0.

(** [np.median]: mean of the middle element (odd size) or of the two
    middle elements (even size) of the sorted array. *)
Definition np_median (a : list Q) : Q :=
  let part := np_sort a in
  let sz := List.length part in
  let index := (sz / 2)%nat in
  if Nat.even sz
  then np_mean (firstn 2 (skipn (index - 1)%nat part))
  else np_mean (firstn 1 (skipn index part)).

(** [np.var] with [ddof] delta degrees of freedom: the divisor is
    [N - ddof]. *)
Definition np_var (a : list Q) (ddof : Z) : Q :=
  let m := np_mean a in
  np_sum (map (fun x => Qabs (x - m) * Qabs (x - m)) a) / inject_Z (len a - ddof)%Z.

Definition lerp (a b t : Q) : Q :=
  if Qle_bool (1 # 2) t then b - (b - a) * (1 - t) else a + (b - a) * t.

(** The value of the sorted array [arr] at a fractional position, by linear
    interpolation between its two neighbours; a position at or beyond the
    last index takes the last element (index -1), a negative one the
    first. *)
Definition quantile_linear (arr : list Q) (virtual_index : Q) : Q :=
  let n := len arr in
  let above := Qle_bool (inject_Z (n - 1)%Z) virtual_index in
  let below := Qlt_bool virtual_index 0 in
  let previous_index :=
    if below then 0%Z else if above then (-1)%Z else Qfloor virtual_index in
  let next_index :=
    if below then 0%Z else if above then (-1)%Z else (Qfloor virtual_index + 1)%Z in
  let gamma := virtual_index - inject_Z previous_index in
  lerp (item arr previous_index) (item arr next_index) gamma.

(** The percentile [q] of a non-empty array by linear interpolation, the
    default method: the position of the quantile [q / 100] among [n]
    values is [(n - 1) * q / 100]. *)
Definition linear_percentile (a : list Q) (q : Q) : Q :=
  let arr := np_sort a in
  quantile_linear arr (inject_Z (len arr - 1)%Z * (q / 100)).

(** [np.percentile(a, q)]: an empty array has no element to take and the
    indexing raises. *)
Definition np_percentile (a : list Q) (q : Q) : result Q :=
  match a with
  | [] => fail IndexError
  | _ :: _ => ok (linear_percentile a q)
  end.

(** [np.linspace(start, stop, num)], end point included. *)
Definition np_linspace (start stop : Q) (num : nat) : list Q :=
  let step := (stop - start) / inject_Z (Z.of_nat (num - 1)%nat) in
  map (fun i => inject_Z (Z.of_nat i) * step + start) (seq 0 num).

(** The range [np.histogram] bins over when none is given. *)
Definition get_outer_edges (a : list Q) : Q * Q :=
  match np_min a, np_max a with
  | inr lo, inr hi =>
      if Qeq_bool lo hi then (lo - (1 # 2), hi + (1 # 2)) else (lo, hi)
  | _, _ => (0, 1)
  end.

(** Membership in bin [i] of [nb]: half-open, except the last bin, which
    includes its right edge. *)
Definition in_bin (edges : list Q) (nb i : nat) (x : Q) : bool :=
  Qle_bool (nth i edges 0) x &&
  (if (S i =? nb)%nat
   then Qle_bool x (nth (S i) edges 0)
   else Qlt_bool x (nth (S i) edges 0)).

Definition count_if (p : Q -> bool) (a : list Q) : Z := len (filter p a).

(** [np.histogram(a, bins)] for an integer [bins]: counts and edges.  The
    edges are the exact equally spaced ones.  NumPy computes them in
    binary64, where an inner edge can differ from the exact one in its
    last bits and a value within that distance of an inner edge can be
    counted in the neighbouring bin; the number of bins, the outer edges
    of a range that is not degenerate and the total of the counts do not
    depend on it. *)
Definition np_histogram (a : list Q) (bins : Z) : result (list Z * list Q) :=
  if (bins <? 1)%Z then fail ValueError
  else
    let nb := Z.to_nat bins in
    let '(first_edge, last_edge) := get_outer_edges a in
    let bin_edges := np_linspace first_edge last_edge (nb + 1)%nat in
    ok (map (fun i => count_if (in_bin bin_edges nb i) a) (seq 0 nb), bin_edges).

(** ** Records of [api/models.py] *)

Module Opportunity.
Record t : Type := make {
  name : string;        (* advisory only *)
  amount : Q;           (* validated upstream: > 0 *)
  probability : Q;      (* validated upstream: in [0, 1] *)
  close_date : Z        (* ordinal of the expected close date *)
}.
End Opportunity.

Module SummaryStatistics.
Record t : Type := make {
  mean : Q;
  median : Q;
  std_dev : Q;
  p10 : Q;
  p25 : Q;
  p75 : Q;
  p90 : Q;
  min_outcome : Q;
  max_outcome : Q;
  total_pipeline_value : Q;
  weighted_pipeline_value : Q
}.
End SummaryStatistics.

Module TargetAnalysis.
Record t : Type := make {
  target : Q;
  probability : Q;
  probability_pct : string
}.
End TargetAnalysis.

Module HistogramBucket.
Record t : Type := make {
  range_low : Q;
  range_high : Q;
  label : string;
  count : Z;
  frequency : Q
}.
End HistogramBucket.

Module SimulationMetadata.
Record t : Type := make {
  num_simulations : Z;
  opportunities_included : Z;
  opportunities_filtered_out : Z;
  compute_time_ms : Q;
  timestamp : Q;
  time_horizon_days : option Z;
  api_version : string
}.
End SimulationMetadata.

Module SimulationResponse.
Record t : Type := make {
  summary_statistics : SummaryStatistics.t;
  target_analysis : list TargetAnalysis.t;
  histogram_buckets : list HistogramBucket.t;
  metadata : SimulationMetadata.t
}.
End SimulationResponse.

(** ** [datetime]: dates as ordinals *)

(** [date.min] is ordinal 1 and [date.max] (9999-12-31) is 3652059. *)
Definition MINORDINAL : Z := 1.
Definition MAXORDINAL : Z := 3652059.

(** [timedelta(days=d)]: at most 999999999 days in magnitude. *)
Definition timedelta (days : Z) : result Z :=
  if (Z.abs days <=? 999999999)%Z then ok days else fail OverflowError.

(** [date + timedelta] *)
Definition date_add (d delta : Z) : result Z :=
  let o := (d + delta)%Z in
  if ((MINORDINAL <=? o) && (o <=? MAXORDINAL))%Z then ok o else fail OverflowError.

(** ** [api/config.py] *)

Definition default_revenue_targets : list Q :=
  [inject_Z 1000000; inject_Z 5000000; inject_Z 10000000;
   inject_Z 25000000; inject_Z 50000000].

(** ** [api/simulation.py] *)

Definition filter_opportunities_by_horizon
    (opportunities : list Opportunity.t) (time_horizon_days : option Z)
  : M (list Opportunity.t * Z) :=
  match time_horizon_days with
  | None => ret (opportunities, 0%Z)
  | Some days =>
      (cutoff <- date_today ;;
       delta <- lift (timedelta days) ;;
       horizon_date <- lift (date_add cutoff delta) ;;
       let included :=
         filter (fun o => ((cutoff <=? Opportunity.close_date o) &&
                           (Opportunity.close_date o <=? horizon_date))%Z)
                opportunities in
       let excluded_count := (len opportunities - len included)%Z in
       ret (included, excluded_count))%monad
  end.

(** Element-wise operations of a row with a vector of the same length
    (broadcasting of the vector across the rows of a matrix). *)
Fixpoint zip_with {A B C} (f : A -> B -> C) (l : list A) (r : list B) : list C :=
  match l, r with
  | x :: l', y :: r' => f x y :: zip_with f l' r'
  | _, _ => []
  end.

Definition run_monte_carlo
    (opportunities : list Opportunity.t) (num_simulations : Z) : M (list Q) :=
  match opportunities with
  | [] => lift (np_zeros num_simulations)
  | _ =>
      let amounts := map Opportunity.amount opportunities in
      let probabilities := map Opportunity.probability opportunities in
      (random_draws <- np_random_uniform num_simulations (List.length opportunities) ;;
       let won_matrix :=
         map (fun row => zip_with Qlt_bool row probabilities) random_draws in
       let revenue_per_run :=
         map (fun row => np_sum (zip_with (fun won a => bool_to_Q won * a) row amounts))
             won_matrix in
       ret revenue_per_run)%monad
  end.

(** NumPy's sum of an array along its contiguous axis (pairwise
    summation): fewer than 8 elements are added left to right; up to 128
    elements are added into 8 interleaved accumulators, which are then
    combined two by two, the elements after the last full group of 8
    being added one by one; a longer array is split into two parts, the
    first about half as long and a multiple of 8, each summed in this way.
    The addition is a parameter: for a float64 array it is [float_add]. *)
Section PairwiseSummation.

Variable A : Type.
Variable add : A -> A -> A.
Variable zero : A.

Fixpoint accumulate8 (groups : nat) (r rest : list A) : list A * list A :=
  match groups with
  | O => (r, rest)
  | S g => accumulate8 g (zip_with add r (firstn 8 rest)) (skipn 8 rest)
  end.

Definition pairwise_block (a : list A) : A :=
  let '(r, rest) := accumulate8 (List.length a / 8 - 1) (firstn 8 a) (skipn 8 a) in
  let res :=
    add (add (add (nth 0 r zero) (nth 1 r zero)) (add (nth 2 r zero) (nth 3 r zero)))
        (add (add (nth 4 r zero) (nth 5 r zero)) (add (nth 6 r zero) (nth 7 r zero))) in
  fold_left add rest res.

Fixpoint pairwise_sum (fuel : nat) (a : list A) : A :=
  let n := List.length a in
  if (n <? 8)%nat then fold_left add a zero
  else if (n <=? 128)%nat then pairwise_block a
  else
    match fuel with
    | O => zero
    | S fuel' =>
        let n2 := (n / 2 - (n / 2) mod 8)%nat in
        add (pairwise_sum fuel' (firstn n2 a)) (pairwise_sum fuel' (skipn n2 a))
    end.

End PairwiseSummation.

(** [a.sum()] of a float64 array: the reduction adds the pairwise sum to
    its initial value 0.  The recursion halves the array, so its length is
    fuel enough. *)
Definition np_sum_f64 (a : list Q) : Q :=
  float_add 0 (pairwise_sum float_add 0 (List.length a) a).

(** The trial engine with the products and the row sums in binary64. *)
Definition run_monte_carlo_f64
    (opportunities : list Opportunity.t) (num_simulations : Z) : M (list Q) :=
  match opportunities with
  | [] => lift (np_zeros num_simulations)
  | _ =>
      let amounts := map Opportunity.amount opportunities in
      let probabilities := map Opportunity.probability opportunities in
      (random_draws <- np_random_uniform num_simulations (List.length opportunities) ;;
       let won_matrix :=
         map (fun row => zip_with Qlt_bool row probabilities) random_draws in
       let revenue_per_run :=
         map (fun row =>
                np_sum_f64 (zip_with (fun won a => float_mul (bool_to_Q won) a) row amounts))
             won_matrix in
       ret revenue_per_run)%monad
  end.

Section Statistics.

(** The square root of the floating-point unit, as a function on the
    values it is applied to. *)
Variable np_sqrt : Q -> Q.

(** [np.std(a)]: [ddof] defaults to 0. *)
Definition np_std (a : list Q) : Q := np_sqrt (np_var a 0).

(** The arguments of the record are evaluated in the order written: on
    an empty [outcomes] array the first to raise is [np.percentile], so no
    record is built. *)
Definition compute_summary_statistics
    (outcomes : list Q) (opportunities : list Opportunity.t)
  : result SummaryStatistics.t :=
  let total_pipeline := py_sum (map Opportunity.amount opportunities) in
  let weighted_pipeline :=
    py_sum (map (fun o => float_mul (Opportunity.amount o) (Opportunity.probability o))
                opportunities) in
  let mean := np_mean outcomes in
  let median := np_median outcomes in
  let std_dev := np_std outcomes in
  rbind (np_percentile outcomes 10) (fun p10 =>
  rbind (np_percentile outcomes 25) (fun p25 =>
  rbind (np_percentile outcomes 75) (fun p75 =>
  rbind (np_percentile outcomes 90) (fun p90 =>
  rbind (np_min outcomes) (fun min_outcome =>
  rbind (np_max outcomes) (fun max_outcome =>
  ok (SummaryStatistics.make
        mean
        median
        std_dev
        p10
        p25
        p75
        p90
        min_outcome
        max_outcome
        (py_round total_pipeline 2)
        (py_round weighted_pipeline 2)))))))).

End Statistics.

(** Currency label of an amount: millions with one decimal, thousands with
    none, or comma-grouped units. *)
Definition fmt (v : Q) : string :=
  if Qle_bool 1000000 v
  then ("$" ++ format_f false 1 (float_truediv v 1000000) ++ "M")%string
  else if Qle_bool 1000 v
  then ("$" ++ format_f false 0 (float_truediv v 1000) ++ "K")%string
  else ("$" ++ format_f true 0 v)%string.

(** The label of a target is formatted like a bucket bound and then
    dropped: the record has no field for it. *)
Definition compute_target_analysis
    (outcomes : list Q) (targets : list Q) (num_simulations : Z)
  : result (list TargetAnalysis.t) :=
  rmap (fun target =>
          let hit_count := count_if (fun x => Qle_bool target x) outcomes in
          rbind (py_truediv hit_count num_simulations) (fun probability =>
          let target_label := fmt target in
          ok (TargetAnalysis.make
                (py_round target 2)
                (py_round probability 4)
                (format_f false 1 (float_mul probability 100) ++ "%"))))
       (sorted targets).

Definition compute_histogram (outcomes : list Q) (num_buckets : Z)
  : result (list HistogramBucket.t) :=
  rbind (np_histogram outcomes num_buckets) (fun '(counts, bin_edges) =>
  let num_simulations := len outcomes in
  ok (map (fun i =>
             let low := nth i bin_edges 0 in
             let high := nth (i + 1) bin_edges 0 in
             let count := nth i counts 0%Z in
             HistogramBucket.make
               (py_round low 2)
               (py_round high 2)
               (fmt low ++ " – " ++ fmt high)
               count
               (if (0 <? num_simulations)%Z
                then py_round (fl (inject_Z count / inject_Z num_simulations)) 4
                else 0))
          (seq 0 (List.length counts)))).

Definition run_full_simulation
    (np_sqrt : Q -> Q)
    (opportunities : list Opportunity.t) (num_simulations : Z)
    (time_horizon_days : option Z) (revenue_targets : option (list Q))
  : M SimulationResponse.t :=
  (start_time <- perf_counter ;;
   ' (filtered_opps, excluded_count) <-
      filter_opportunities_by_horizon opportunities time_horizon_days ;;
   let targets :=
     match revenue_targets with
     | Some ((_ :: _) as ts) => ts
     | _ => default_revenue_targets
     end in
   outcomes <- run_monte_carlo filtered_opps num_simulations ;;
   summary_stats <- lift (compute_summary_statistics np_sqrt outcomes filtered_opps) ;;
   target_analysis <- lift (compute_target_analysis outcomes targets num_simulations) ;;
   histogram <- lift (compute_histogram outcomes 12) ;;
   end_time <- perf_counter ;;
   let elapsed_ms := float_mul (float_sub end_time start_time) 1000 in
   timestamp <- datetime_now_utc ;;
   let metadata :=
     SimulationMetadata.make
       num_simulations
       (len filtered_opps)
       excluded_count
       (py_round elapsed_ms 2)
       timestamp
       time_horizon_days
       "1.0.0" in
   ret (SimulationResponse.make summary_stats target_analysis histogram metadata))%monad.

(** ** Vocabulary of the specification *)

(** The horizon window ends on a date Python can represent. *)
Definition window_representable (w : world) (days : Z) : Prop :=
  (Z.abs days <= 999999999 /\ MINORDINAL <= today w + days <= MAXORDINAL)%Z.

(** The uniform draw of event [j] in trial [i], when [m] events are
    simulated from world [w]. *)
Definition draw (w : world) (m i j : nat) : Q := rng w (drawn w + i * m + j)%nat.


(** What event [o] adds to a trial in which its draw is [d]. *)
Definition contribution (d : Q) (o : Opportunity.t) : Q :=
  if Qlt_bool d (Opportunity.probability o) then Opportunity.amount o else 0.

(** Sum of the amounts of the won events, the draw of the [k]-th event of
    the list being [d (j + k)]. *)
Fixpoint sum_won (d : nat -> Q) (j : nat) (opps : list Opportunity.t) : Q :=
  match opps with
  | [] => 0
  | o :: r => contribution (d j) o + sum_won d (S j) r
  end.

Definition trial_outcome (w : world) (opps : list Opportunity.t) (i : nat) : Q :=
  sum_won (draw w (List.length opps) i) 0 opps.

Definition valid_event (o : Opportunity.t) : Prop :=
  0 < Opportunity.amount o /\
  0 <= Opportunity.probability o /\ Opportunity.probability o <= 1.

Definition totalPipelineValue (opps : list Opportunity.t) : Q :=
  exact_sum (map Opportunity.amount opps).

(** The fraction of outcomes that reach [target], out of [trialCount]. *)
Definition hitProbability (outcomes : list Q) (target : Q) (trialCount : Z) : Q :=
  inject_Z (count_if (fun x => Qle_bool target x) outcomes) / inject_Z trialCount.

(** Variance with divisor N (population) and with divisor N - 1 (sample
    corrected), in the words of the specification. *)
Definition sum_sq_dev (xs : list Q) : Q :=
  let mu := exact_sum xs / inject_Z (len xs) in
  exact_sum (map (fun x => (x - mu) * (x - mu)) xs).

Definition population_variance (xs : list Q) : Q :=
  sum_sq_dev xs / inject_Z (len xs).

Definition sample_variance (xs : list Q) : Q :=
  sum_sq_dev xs / inject_Z (len xs - 1)%Z.

(** A rational lower approximation of the square root, exact on squares of
    rationals; it serves to run the model on concrete inputs. *)
Definition sqrt_lower (x : Q) : Q :=
  (Z.sqrt (Qnum x * QDen x) # Qden x).

(** An array of zeros. *)
Definition all_zero (l : list Q) : Prop := Forall (fun x => x = 0) l.

(** Histogram vocabulary: the [i]-th of the [nb + 1] equally spaced edges
    of the range from [first] to [last], membership of a value in bucket
    [i] (the last bucket includes its upper edge), and the sum of the
    bucket counts. *)
Definition bin_edge (first last : Q) (nb i : nat) : Q :=
  inject_Z (Z.of_nat i) * ((last - first) / inject_Z (Z.of_nat nb)) + first.

Definition in_bucket (first last : Q) (nb i : nat) (x : Q) : bool :=
  Qle_bool (bin_edge first last nb i) x &&
  (if (S i =? nb)%nat
   then Qle_bool x (bin_edge first last nb (S i))
   else Qlt_bool x (bin_edge first last nb (S i))).

Definition sumZ (l : list Z) : Z := fold_right Z.add 0%Z l.

Definition total_count (buckets : list HistogramBucket.t) : Z :=
  sumZ (map HistogramBucket.count buckets).

Definition b2z (b : bool) : Z := if b then 1%Z else 0%Z.

(** The horizon, when present, ends on a representable date. *)
Definition horizon_representable (w : world) (horizon : option Z) : Prop :=
  match horizon with
  | Some days => window_representable w days
  | None => True
  end.

(** The targets the orchestrator analyses: the caller's when it supplies a
    non-empty list, the configured defaults otherwise. *)
Definition effective_targets (revenue_targets : option (list Q)) : list Q :=
  match revenue_targets with
  | Some ((_ :: _) as ts) => ts
  | _ => default_revenue_targets
  end.

(** [l1] is an order-preserving subsequence of [l2]. *)
Inductive subsequence {A : Type} : list A -> list A -> Prop :=
| subseq_nil : subsequence [] []
| subseq_skip : forall x l1 l2, subsequence l1 l2 -> subsequence l1 (x :: l2)
| subseq_keep : forall x l1 l2, subsequence l1 l2 -> subsequence (x :: l1) (x :: l2).

(** The outcome of a trial that wins every event, as the binary64 engine
    computes it: the float64 sum of the products [1.0 * amount]. *)
Definition all_won_outcome (opps : list Opportunity.t) : Q :=
  np_sum_f64 (map (fun o => float_mul 1 (Opportunity.amount o)) opps).

(** The sum of a list in a monoid, taken from the right: the reference
    every summation order of [pairwise_sum] is compared with. *)
Definition monoid_sum {M : Type} (op : M -> M -> M) (e : M) (l : list M) : M :=
  fold_right op e l.

(** Book-keeping for the rounding of a float64 sum.  A pair [(t, k)] is the
    exact sum [t] of [k] terms; [sums_to s (t, k)] says that the float [s],
    zero or of the normal range, was obtained from [k] non-negative terms of
    exact sum [t] and exceeds [t] by a factor of at most (1 + 2^-53)^k. *)
Definition pair_add (x y : Q * nat) : Q * nat := (fst x + fst y, (snd x + snd y)%nat).

Definition pair_eq (x y : Q * nat) : Prop := fst x == fst y /\ snd x = snd y.

Definition sums_to (s : Q) (tn : Q * nat) : Prop :=
  fl s == s /\
  (s == 0 \/ pow2 (-1022) <= s) /\
  0 <= fst tn /\
  (snd tn = 0%nat -> fst tn == 0) /\
  s <= fst tn * (1 + pow2 (-53)) ^ Z.of_nat (snd tn).

(** ** Sample data

    The fixtures of [tests/test_simulation.py], in a world where today is
    2024-01-01 (ordinal 738886) and the generator cycles through 0, 1/7,
    ..., 6/7. *)

Definition sample_world : world :=
  mkWorld 738886 0 (fun k => inject_Z (Z.of_nat k)) 0
          (fun k => (Z.of_nat (k mod 7) # 7)) 0.

Definition sample_opportunities : list Opportunity.t :=
  [Opportunity.make "Deal A" (inject_Z 1000000) (9 # 10) (738886 + 30);
   Opportunity.make "Deal B" (inject_Z 500000) (1 # 2) (738886 + 60);
   Opportunity.make "Deal C" (inject_Z 2000000) (1 # 4) (738886 + 90);
   Opportunity.make "Deal D" (inject_Z 750000) (3 # 4) (738886 + 120)].

Definition certain_opportunity : list Opportunity.t :=
  [Opportunity.make "Certain" (inject_Z 1000000) 1 (738886 + 30)].

(** Two certain deals whose amounts are the floats 0.1 and 0.2. *)
Definition dime_deals : list Opportunity.t :=
  [Opportunity.make "One dime" (fl (1 # 10)) 1 (738886 + 30);
   Opportunity.make "Two dimes" (fl (2 # 10)) 1 (738886 + 60)].

(** ** Request validation ([api/models.py]) and the endpoint ([api/main.py])

    A request arrives as typed field values (what pydantic holds once the
    JSON is parsed); [None] stands for the [ValidationError] pydantic raises
    when a field constraint or a validator fails.  The length of a name is
    counted in characters of the string. *)

Module SimulationRequest.
Record t : Type := make {
  opportunities : list Opportunity.t;
  num_simulations : Z;
  time_horizon_days : option Z;
  revenue_targets : option (list Q)
}.
End SimulationRequest.

(** The validator of the field [amount]: it runs once the constraint
    [gt=0] has passed. *)
Definition amount_must_be_reasonable (v : Q) : option Q :=
  if Qlt_bool (inject_Z 10000000000) v then None else Some (py_round v 2).

(** [Opportunity(name=..., amount=..., probability=..., close_date=...)] *)
Definition Opportunity_validate
    (name : string) (amount probability : Q) (close_date : Z)
  : option Opportunity.t :=
  if (String.length name <=? 255)%nat &&
     Qlt_bool 0 amount &&
     (Qle_bool 0 probability && Qle_bool probability 1)
  then
    match amount_must_be_reasonable amount with
    | Some v => Some (Opportunity.make name v probability close_date)
    | None => None
    end
  else None.

(** Validation of each element of a list; one failure fails the whole. *)
Fixpoint validate_all {A B} (f : A -> option B) (l : list A) : option (list B) :=
  match l with
  | [] => Some []
  | x :: r =>
      match f x, validate_all f r with
      | Some y, Some ys => Some (y :: ys)
      | _, _ => None
      end
  end.

(** The model validator of the request, run after the fields. *)
Definition validate_targets_are_positive (self : SimulationRequest.t)
  : option SimulationRequest.t :=
  match SimulationRequest.revenue_targets self with
  | Some ((_ :: _) as ts) =>
      if forallb (fun t => Qlt_bool 0 t) ts then Some self else None
  | _ => Some self
  end.

(** [SimulationRequest(...)] from the fields of the payload, each
    opportunity given by its four fields; an absent [num_simulations]
    takes the default 10000. *)
Definition SimulationRequest_validate
    (opportunities : list (string * Q * Q * Z))
    (num_simulations : option Z)
    (time_horizon_days : option Z)
    (revenue_targets : option (list Q))
  : option SimulationRequest.t :=
  match validate_all (fun '(name, amount, probability, close_date) =>
                        Opportunity_validate name amount probability close_date)
                     opportunities with
  | None => None
  | Some opps =>
      let n := match num_simulations with Some n => n | None => 10000%Z end in
      if ((1 <=? List.length opps)%nat && (List.length opps <=? 500)%nat &&
          ((100 <=? n)%Z && (n <=? 100000)%Z) &&
          match time_horizon_days with
          | Some d => ((1 <=? d)%Z && (d <=? 730)%Z)
          | None => true
          end)%bool
      then validate_targets_are_positive
             (SimulationRequest.make opps n time_horizon_days revenue_targets)
      else None
  end.

(** What the endpoint answers: the result with status 200, or an error
    status. *)
Inductive http_response : Type :=
| Response200 (body : SimulationResponse.t)
| HTTPError (status_code : Z).

(** [POST /api/v1/simulate] on a validated request: a [ValueError]
    becomes status 422, any other exception reaches the global handler,
    which answers 500.  [MemoryError] (status 400) does not occur in the
    model, which has no memory bound. *)
Definition simulate (np_sqrt : Q -> Q) (request : SimulationRequest.t) (w : world)
  : http_response :=
  match run_full_simulation np_sqrt
          (SimulationRequest.opportunities request)
          (SimulationRequest.num_simulations request)
          (SimulationRequest.time_horizon_days request)
          (SimulationRequest.revenue_targets request) w with
  | inr (result, _) => Response200 result
  | inl ValueError => HTTPError 422
  | inl _ => HTTPError 500
  end.

(** ** Further vocabulary *)

(** Sum of the bucket frequencies. *)
Definition total_frequency (buckets : list HistogramBucket.t) : Q :=
  exact_sum (map HistogramBucket.frequency buckets).

(** [x] is a whole number of hundredths. *)
Definition whole_cents (x : Q) : Prop := exists z : Z, x == inject_Z z / 100.

(** Two event lists that differ only in win probabilities, the second
    having the larger ones. *)
Definition probabilities_raised (opps opps' : list Opportunity.t) : Prop :=
  Forall2 (fun o o' =>
             Opportunity.amount o' = Opportunity.amount o /\
             Opportunity.probability o <= Opportunity.probability o')
          opps opps'.

(** A payload of two opportunities, one of them with an amount below half
    a cent, and a variant of the sample events with higher win
    probabilities. *)
Definition sample_payload : list (string * Q * Q * Z) :=
  [("Deal A"%string, 1000000049 # 1000, 9 # 10, (738886 + 30)%Z);
   ("Crumb"%string, 1 # 1000, 1 # 2, (738886 + 60)%Z)].

Definition sample_opportunities_raised : list Opportunity.t :=
  [Opportunity.make "Deal A" (inject_Z 1000000) 1 (738886 + 30);
   Opportunity.make "Deal B" (inject_Z 500000) (1 # 2) (738886 + 60);
   Opportunity.make "Deal C" (inject_Z 2000000) (1 # 2) (738886 + 90);
   Opportunity.make "Deal D" (inject_Z 750000) (3 # 4) (738886 + 120)].

(** * Properties *)

(** ** Horizon filter *)

Lemma filter_subsequence {A} (p : A -> bool) (l : list A) :
  subsequence (filter p l) l.
Proof.
  induction l as [| x l IH]; simpl.
  - constructor.
  - destruct (p x); constructor; exact IH.
Qed.

Lemma filter_horizon_absent opps w :
  filter_opportunities_by_horizon opps None w = inr ((opps, 0%Z), w).
Proof. reflexivity. Qed.

Lemma filter_horizon_present opps days w :
  window_representable w days ->
  filter_opportunities_by_horizon opps (Some days) w =
  inr ((filter (fun o => ((today w <=? Opportunity.close_date o) &&
                          (Opportunity.close_date o <=? today w + days))%Z) opps,
        (len opps -
         len (filter (fun o => ((today w <=? Opportunity.close_date o) &&
                                (Opportunity.close_date o <=? today w + days))%Z) opps))%Z),
       w).
Proof.
  intros [Habs [Hlo Hhi]].
  unfold filter_opportunities_by_horizon, bind, date_today, lift, timedelta, date_add.
  apply Z.leb_le in Habs, Hlo, Hhi.
  rewrite Habs. cbn. rewrite Hlo, Hhi. reflexivity.
Qed.

(** C4. With a horizon present (and a window ending on a representable
    date) an event is included iff today <= closeDate <= today +
    horizonDays, both bounds inclusive, so an event dated before today is
    never included; the world is left unchanged.  With no horizon the whole
    list is returned with an excluded count of 0. *)
Theorem filter_includes_iff_in_window :
  forall (opps : list Opportunity.t) (w : world),
    (forall days, window_representable w days ->
       exists included excluded,
         filter_opportunities_by_horizon opps (Some days) w
           = inr ((included, excluded), w) /\
         (forall o, In o included <->
                    In o opps /\
                    (today w <= Opportunity.close_date o <= today w + days)%Z) /\
         (forall o, (Opportunity.close_date o < today w)%Z -> ~ In o included)) /\
    filter_opportunities_by_horizon opps None w = inr ((opps, 0%Z), w).
Proof.
  intros opps w. split; [| apply filter_horizon_absent].
  intros days Hwin.
  eexists; eexists. split; [apply (filter_horizon_present opps Hwin) |].
  assert (Hin : forall o,
    In o (filter (fun o => ((today w <=? Opportunity.close_date o) &&
                            (Opportunity.close_date o <=? today w + days))%Z) opps) <->
    In o opps /\ (today w <= Opportunity.close_date o <= today w + days)%Z).
  { intro o. rewrite filter_In, andb_true_iff, !Z.leb_le. tauto. }
  split; [exact Hin |].
  intros o Hpast Hi. apply Hin in Hi. lia.
Qed.

Lemma filter_horizon_shape opps horizon w included excluded w' :
  filter_opportunities_by_horizon opps horizon w = inr ((included, excluded), w') ->
  subsequence included opps /\ excluded = (len opps - len included)%Z /\ w' = w.
Proof.
  destruct horizon as [days |]; unfold filter_opportunities_by_horizon.
  - unfold bind, date_today, lift.
    destruct (timedelta days) as [e | delta]; [discriminate |].
    destruct (date_add (today w) delta) as [e | horizon_date]; [discriminate |].
    unfold ret. intro H. injection H as <- <- <-.
    split; [apply filter_subsequence | split; reflexivity].
  - unfold ret. intro H. injection H as <- <- <-.
    split; [| split; [unfold len; lia | reflexivity]].
    clear. induction opps; constructor; assumption.
Qed.

(** ** Trial engine *)

Lemma fold_left_Qplus_acc (l : list Q) (a : Q) :
  fold_left Qplus l a == a + fold_left Qplus l 0.
Proof.
  revert a. induction l as [| x l IH]; intro a; simpl.
  - ring.
  - rewrite (IH (a + x)), (IH (0 + x)). ring.
Qed.

Lemma np_sum_cons (x : Q) (l : list Q) : np_sum (x :: l) == x + np_sum l.
Proof. unfold np_sum. simpl. rewrite fold_left_Qplus_acc. ring. Qed.

Lemma exact_sum_cons (x : Q) (l : list Q) : exact_sum (x :: l) == x + exact_sum l.
Proof. exact (np_sum_cons x l). Qed.

Lemma nth_map_seq {A} (f : nat -> A) (a n i : nat) (d : A) :
  (i < n)%nat -> nth i (map f (seq a n)) d = f (a + i)%nat.
Proof.
  revert a i. induction n as [| n IH]; intros a i Hi; [lia |].
  destruct i as [| i]; simpl.
  - f_equal. lia.
  - rewrite IH by lia. f_equal. lia.
Qed.

Lemma consume_consume (a b : nat) (w : world) :
  consume a (consume b w) = consume (b + a) w.
Proof. unfold consume. simpl. f_equal. lia. Qed.

Lemma uniform_rows_spec (n m : nat) (w : world) :
  uniform_rows n m w =
  inr (map (fun i => map (fun j => draw w m i j) (seq 0 m)) (seq 0 n),
       consume (n * m) w).
Proof.
  revert w. induction n as [| n IH]; intro w.
  - simpl. unfold ret, consume. destruct w; simpl. do 3 f_equal. lia.
  - simpl uniform_rows. unfold bind, uniform_row. rewrite IH. unfold ret.
    rewrite consume_consume. f_equal. f_equal.
    change (seq 0 (S n)) with (0%nat :: seq 1 n).
    rewrite <- seq_shift. simpl map. rewrite map_map. f_equal.
    + apply map_ext. intro j. unfold draw. f_equal. lia.
    + apply map_ext. intro i. apply map_ext. intro j. unfold draw, consume. simpl.
      f_equal. lia.
Qed.

Lemma row_revenue (d : nat -> Q) (opps : list Opportunity.t) (k : nat) :
  np_sum (zip_with (fun won a => bool_to_Q won * a)
            (zip_with Qlt_bool (map d (seq k (List.length opps)))
                      (map Opportunity.probability opps))
            (map Opportunity.amount opps))
  == sum_won d k opps.
Proof.
  revert k. induction opps as [| o opps IH]; intro k.
  - reflexivity.
  - simpl List.length. simpl seq. simpl map. simpl zip_with.
    rewrite np_sum_cons, IH. simpl. unfold contribution.
    destruct (Qlt_bool (d k) (Opportunity.probability o)); simpl; ring.
Qed.

Lemma run_monte_carlo_empty (n : Z) (w : world) :
  (0 <= n)%Z -> run_monte_carlo [] n w = inr (repeat 0 (Z.to_nat n), w).
Proof.
  intro Hn. unfold run_monte_carlo, lift, np_zeros.
  destruct (n <? 0)%Z eqn:E; [apply Z.ltb_lt in E; lia | reflexivity].
Qed.

Lemma run_monte_carlo_nonempty (o : Opportunity.t) (opps : list Opportunity.t) (n : Z) (w : world) :
  (0 <= n)%Z ->
  run_monte_carlo (o :: opps) n w =
  inr (map (fun i =>
              np_sum (zip_with (fun won a => bool_to_Q won * a)
                        (zip_with Qlt_bool
                           (map (fun j => draw w (List.length (o :: opps)) i j)
                                (seq 0 (List.length (o :: opps))))
                           (map Opportunity.probability (o :: opps)))
                        (map Opportunity.amount (o :: opps))))
           (seq 0 (Z.to_nat n)),
       consume (Z.to_nat n * List.length (o :: opps)) w).
Proof.
  intro Hn. unfold run_monte_carlo, bind, np_random_uniform.
  destruct (n <? 0)%Z eqn:E; [apply Z.ltb_lt in E; lia |].
  rewrite uniform_rows_spec. unfold ret. rewrite !map_map. reflexivity.
Qed.

Lemma run_monte_carlo_spec (opps : list Opportunity.t) (n : Z) (w : world) :
  (0 <= n)%Z ->
  exists outcomes w',
    run_monte_carlo opps n w = inr (outcomes, w') /\
    List.length outcomes = Z.to_nat n /\
    forall i, (i < Z.to_nat n)%nat -> nth i outcomes 0 == trial_outcome w opps i.
Proof.
  intro Hn. destruct opps as [| o opps].
  - exists (repeat 0 (Z.to_nat n)), w. split; [apply run_monte_carlo_empty, Hn |].
    split; [apply repeat_length |].
    intros i _. unfold trial_outcome. simpl.
    rewrite nth_repeat. reflexivity.
  - eexists; eexists. split; [apply run_monte_carlo_nonempty, Hn |].
    split; [rewrite length_map, length_seq; reflexivity |].
    intros i Hi. rewrite nth_map_seq by exact Hi. simpl Nat.add.
    apply row_revenue.
Qed.

Lemma Qlt_bool_iff (x y : Q) : Qlt_bool x y = true <-> x < y.
Proof.
  unfold Qlt_bool. rewrite negb_true_iff. split.
  - intro H. apply Qnot_le_lt. intro Hle. apply Qle_bool_iff in Hle. congruence.
  - intro H. destruct (Qle_bool y x) eqn:E; [| reflexivity].
    apply Qle_bool_iff in E. apply Qlt_not_le in H. contradiction.
Qed.




Lemma sum_won_bounds (d : nat -> Q) (k : nat) (opps : list Opportunity.t) :
  Forall valid_event opps ->
  0 <= sum_won d k opps /\ sum_won d k opps <= totalPipelineValue opps.
Proof.
  intro Hv. revert k. induction Hv as [| o opps [Ha _] _ IH]; intro k.
  - unfold totalPipelineValue. simpl. split; apply Qle_refl.
  - unfold totalPipelineValue in *. simpl map. rewrite exact_sum_cons. simpl.
    destruct (IH (S k)) as [Hlo Hhi]. unfold contribution.
    destruct (Qlt_bool (d k) (Opportunity.probability o)); split; lra.
Qed.

(** C1. For a non-negative trial count the trial engine returns a
    distribution with exactly that many outcomes; on an empty event list it
    returns that many zeros and leaves the generator untouched. *)
Theorem run_monte_carlo_length :
  forall (opps : list Opportunity.t) (n : Z) (w : world),
    (0 <= n)%Z ->
    (exists outcomes w',
        run_monte_carlo opps n w = inr (outcomes, w') /\ len outcomes = n) /\
    run_monte_carlo [] n w = inr (repeat 0 (Z.to_nat n), w).
Proof.
  intros opps n w Hn. split; [| apply run_monte_carlo_empty, Hn].
  destruct (run_monte_carlo_spec opps w Hn) as (outcomes & w' & Hrun & Hlen & _).
  exists outcomes, w'. split; [exact Hrun |].
  unfold len. rewrite Hlen. apply Z2Nat.id, Hn.
Qed.


(** ** Rounding to decimals *)

Lemma round_half_even_floor (x : Q) :
  round_half_even x = Qfloor x \/ round_half_even x = (Qfloor x + 1)%Z.
Proof.
  unfold round_half_even.
  destruct (Qcompare (x - inject_Z (Qfloor x)) (1 # 2)); auto.
  destruct (Z.even (Qfloor x)); auto.
Qed.

Lemma round_half_even_mono (x y : Q) :
  x <= y -> (round_half_even x <= round_half_even y)%Z.
Proof.
  intro Hxy.
  pose proof (Qfloor_resp_le _ _ Hxy) as Hf.
  destruct (Z.eq_dec (Qfloor x) (Qfloor y)) as [Heq | Hne].
  - unfold round_half_even. rewrite <- Heq.
    destruct (Qcompare_spec (x - inject_Z (Qfloor x)) (1 # 2)) as [Hx | Hx | Hx];
      destruct (Qcompare_spec (y - inject_Z (Qfloor x)) (1 # 2)) as [Hy | Hy | Hy];
      try destruct (Z.even (Qfloor x)); try lia; exfalso; lra.
  - destruct (round_half_even_floor x) as [-> | ->];
      destruct (round_half_even_floor y) as [-> | ->]; lia.
Qed.

Lemma pow10_pos (n : nat) : (0 < pow10 n)%Z.
Proof. unfold pow10. apply Z.pow_pos_nonneg; lia. Qed.

Lemma inject_pow10_pos (n : nat) : 0 < inject_Z (pow10 n).
Proof. rewrite <- (Zlt_Qlt 0). apply pow10_pos. Qed.

Lemma py_round_mono (x y : Q) (n : nat) : x <= y -> py_round x n <= py_round y n.
Proof.
  intro Hxy. unfold py_round.
  pose proof (inject_pow10_pos n) as Hp.
  apply Qmult_le_compat_r.
  - rewrite <- Zle_Qle. apply round_half_even_mono.
    apply Qmult_le_compat_r; [exact Hxy | apply Qlt_le_weak, Hp].
  - apply Qlt_le_weak, Qinv_lt_0_compat, Hp.
Qed.

Lemma round_half_even_comp (x y : Q) : x == y -> round_half_even x = round_half_even y.
Proof.
  intro H. unfold round_half_even.
  rewrite (Qfloor_comp _ _ H).
  assert (Hc : Qcompare (x - inject_Z (Qfloor y)) (1 # 2)
               = Qcompare (y - inject_Z (Qfloor y)) (1 # 2))
    by (rewrite H; reflexivity).
  rewrite Hc. reflexivity.
Qed.

Lemma round_half_even_Z (z : Z) : round_half_even (inject_Z z) = z.
Proof.
  unfold round_half_even. rewrite Qfloor_Z.
  assert (Hc : Qcompare (inject_Z z - inject_Z z) (1 # 2) = Lt)
    by (rewrite <- Qlt_alt; setoid_replace (inject_Z z - inject_Z z) with 0 by ring;
        reflexivity).
  rewrite Hc. reflexivity.
Qed.

Lemma py_round_comp (x y : Q) (n : nat) : x == y -> py_round x n = py_round y n.
Proof.
  intro H. unfold py_round.
  rewrite (@round_half_even_comp (x * inject_Z (pow10 n)) (y * inject_Z (pow10 n)));
    [reflexivity | rewrite H; reflexivity].
Qed.

Lemma inject_pow10_nonzero (n : nat) : ~ inject_Z (pow10 n) == 0.
Proof. pose proof (inject_pow10_pos n). lra. Qed.

(** A value with at most [n] decimals is left alone. *)
Lemma py_round_exact (z : Z) (n : nat) :
  py_round (inject_Z z / inject_Z (pow10 n)) n == inject_Z z / inject_Z (pow10 n).
Proof.
  unfold py_round.
  rewrite (@round_half_even_comp _ (inject_Z z)), round_half_even_Z; [reflexivity |].
  field. apply inject_pow10_nonzero.
Qed.

Lemma py_round_Z (z : Z) (n : nat) : py_round (inject_Z z) n == inject_Z z.
Proof.
  assert (H : inject_Z z == inject_Z (z * pow10 n) / inject_Z (pow10 n)).
  { rewrite inject_Z_mult. field. apply inject_pow10_nonzero. }
  rewrite (py_round_comp n H), py_round_exact. symmetry. exact H.
Qed.

(** Rounding moves a value by at most half a unit of the last decimal. *)
Lemma round_half_even_error (x : Q) :
  x - (1 # 2) <= inject_Z (round_half_even x) /\
  inject_Z (round_half_even x) <= x + (1 # 2).
Proof.
  pose proof (Qfloor_le x) as Hlo.
  pose proof (Qlt_floor x) as Hhi. rewrite inject_Z_plus in Hhi.
  change (inject_Z 1) with 1 in Hhi.
  unfold round_half_even.
  destruct (Qcompare_spec (x - inject_Z (Qfloor x)) (1 # 2)) as [H | H | H];
    [destruct (Z.even (Qfloor x)) | |];
    rewrite ?inject_Z_plus; change (inject_Z 1) with 1; split; lra.
Qed.

Lemma py_round_error (x : Q) (n : nat) :
  Qabs (py_round x n - x) <= 1 / (2 * inject_Z (pow10 n)).
Proof.
  pose proof (inject_pow10_pos n) as Hp.
  destruct (round_half_even_error (x * inject_Z (pow10 n))) as [Hlo Hhi].
  unfold py_round.
  set (r := inject_Z (round_half_even (x * inject_Z (pow10 n)))) in *.
  set (p := inject_Z (pow10 n)) in *.
  apply Qabs_Qle_condition.
  assert (Hinv : 0 < / p) by (apply Qinv_lt_0_compat, Hp).
  assert (Hx : x == x * p * / p) by (field; lra).
  assert (Hhalf : 1 / (2 * p) == (1 # 2) * / p) by (field; lra).
  rewrite Hhalf. unfold Qdiv.
  split.
  - assert (H : (x * p - (1 # 2)) * / p <= r * / p)
      by (apply Qmult_le_compat_r; [exact Hlo | lra]).
    setoid_replace ((x * p - (1 # 2)) * / p) with (x - (1 # 2) * / p) in H
      by (field; lra).
    lra.
  - assert (H : r * / p <= (x * p + (1 # 2)) * / p)
      by (apply Qmult_le_compat_r; [exact Hhi | lra]).
    setoid_replace ((x * p + (1 # 2)) * / p) with (x + (1 # 2) * / p) in H
      by (field; lra).
    lra.
Qed.

Lemma py_round_unit_interval (x : Q) (n : nat) :
  0 <= x -> x <= 1 -> 0 <= py_round x n /\ py_round x n <= 1.
Proof.
  intros H0 H1. split.
  - rewrite <- (py_round_Z 0 n). apply py_round_mono, H0.
  - rewrite <- (py_round_Z 1 n). apply py_round_mono, H1.
Qed.

(** ** Rounding to binary64 *)

Lemma pow2_pos (e : Z) : 0 < pow2 e.
Proof. unfold pow2. apply Qpower_0_lt. reflexivity. Qed.

Lemma pow2_nonzero (e : Z) : ~ pow2 e == 0.
Proof. intro H. pose proof (pow2_pos e) as Hp. rewrite H in Hp. discriminate. Qed.

Lemma pow2_plus (a b : Z) : pow2 (a + b) == pow2 a * pow2 b.
Proof. unfold pow2. apply Qpower_plus. discriminate. Qed.

Lemma pow2_le (a b : Z) : (a <= b)%Z -> pow2 a <= pow2 b.
Proof. intro H. unfold pow2. apply Qpower_le_compat_l; [exact H | discriminate]. Qed.

Lemma pow2_lt (a b : Z) : (a < b)%Z -> pow2 a < pow2 b.
Proof. intro H. unfold pow2. apply Qpower_lt_compat_l; [exact H | reflexivity]. Qed.

Lemma pow2_Z (e : Z) : (0 <= e)%Z -> pow2 e == inject_Z (2 ^ e).
Proof. intro H. unfold pow2. rewrite Zpower_Qpower by exact H. reflexivity. Qed.

Lemma pow2_S (e : Z) : pow2 (e + 1) == 2 * pow2 e.
Proof. rewrite pow2_plus. change (pow2 1) with (2 ^ 1). rewrite Qpower_1_r. ring. Qed.

(** [Qlog2 x] is the exponent of the binade of a positive [x]. *)
Lemma Qlog2_spec (x : Q) :
  0 < x -> pow2 (Qlog2 x) <= x /\ x < pow2 (Qlog2 x + 1).
Proof.
  intro Hx.
  destruct x as [n d]. unfold Qlog2. cbn [Qnum Qden].
  assert (Hn : (0 < n)%Z). { unfold Qlt in Hx. cbn in Hx. lia. }
  set (a := Z.log2 n). set (b := Z.log2 (Z.pos d)).
  pose proof (Z.log2_spec n Hn) as [Ha1 Ha2]. fold a in Ha1, Ha2.
  pose proof (Z.log2_spec (Z.pos d) ltac:(lia)) as [Hb1 Hb2]. fold b in Hb1, Hb2.
  pose proof (Z.log2_nonneg n) as Ha0. fold a in Ha0.
  pose proof (Z.log2_nonneg (Z.pos d)) as Hb0. fold b in Hb0.
  assert (Hxq : n # d == inject_Z n / inject_Z (Z.pos d)) by apply Qmake_Qdiv.
  assert (Hdpos : 0 < inject_Z (Z.pos d)) by (unfold Qlt; cbn; lia).
  (* lower bound with exponent a - b - 1, upper bound with a - b + 1 *)
  assert (Hlow : pow2 (a - b - 1) <= n # d).
  { rewrite Hxq. apply Qle_shift_div_l; [exact Hdpos |].
    apply Qle_trans with (pow2 (a - b - 1) * pow2 (b + 1)).
    - apply Qmult_le_l; [apply pow2_pos |].
      rewrite pow2_Z by lia. rewrite <- Zle_Qle.
      replace (Z.succ b) with (b + 1)%Z in Hb2 by lia. lia.
    - rewrite <- pow2_plus. replace (a - b - 1 + (b + 1))%Z with a by lia.
      rewrite pow2_Z by lia. rewrite <- Zle_Qle. exact Ha1. }
  assert (Hup : n # d < pow2 (a - b + 1)).
  { rewrite Hxq. apply Qlt_shift_div_r; [exact Hdpos |].
    apply Qlt_le_trans with (pow2 (a + 1)).
    - rewrite pow2_Z by lia. rewrite <- Zlt_Qlt.
      replace (Z.succ a) with (a + 1)%Z in Ha2 by lia. exact Ha2.
    - replace (a + 1)%Z with (a - b + 1 + b)%Z by lia. rewrite pow2_plus.
      apply Qmult_le_l; [apply pow2_pos |].
      rewrite pow2_Z by lia. rewrite <- Zle_Qle. exact Hb1. }
  destruct (Qle_bool (pow2 (a - b)) (n # d)) eqn:E.
  - apply Qle_bool_iff in E. split; [exact E | exact Hup].
  - split.
    + exact Hlow.
    + replace (a - b - 1 + 1)%Z with (a - b)%Z by lia.
      apply Qnot_le_lt. intro H. apply Qle_bool_iff in H. congruence.
Qed.

Lemma Qlog2_unique (x : Q) (e : Z) :
  pow2 e <= x -> x < pow2 (e + 1) -> Qlog2 x = e.
Proof.
  intros H1 H2.
  assert (Hx : 0 < x) by (eapply Qlt_le_trans; [apply pow2_pos | exact H1]).
  destruct (Qlog2_spec Hx) as [H3 H4].
  assert (A : (Qlog2 x < e + 1)%Z).
  { apply (Qpower_lt_compat_l_inv 2); [| reflexivity].
    eapply Qle_lt_trans; [exact H3 | exact H2]. }
  assert (B : (e < Qlog2 x + 1)%Z).
  { apply (Qpower_lt_compat_l_inv 2); [| reflexivity].
    eapply Qle_lt_trans; [exact H1 | exact H4]. }
  lia.
Qed.

Lemma fl_rnd (x : Q) : fl x = rnd (quantum x) x.
Proof. reflexivity. Qed.

Lemma rnd_mono (q : Z) (x y : Q) : x <= y -> rnd q x <= rnd q y.
Proof.
  intro H. unfold rnd.
  apply Qmult_le_compat_r; [| apply Qlt_le_weak, pow2_pos].
  rewrite <- Zle_Qle. apply round_half_even_mono.
  unfold Qdiv. apply Qmult_le_compat_r; [exact H |].
  apply Qlt_le_weak, Qinv_lt_0_compat, pow2_pos.
Qed.

Lemma rnd_comp (q : Z) (x y : Q) : x == y -> rnd q x == rnd q y.
Proof.
  intro H. unfold rnd.
  rewrite (@round_half_even_comp (x / pow2 q) (y / pow2 q)); [reflexivity |].
  rewrite H. reflexivity.
Qed.

Lemma rnd_multiple (q k : Z) : rnd q (inject_Z k * pow2 q) == inject_Z k * pow2 q.
Proof.
  unfold rnd.
  rewrite (@round_half_even_comp (inject_Z k * pow2 q / pow2 q) (inject_Z k)).
  - rewrite round_half_even_Z. reflexivity.
  - field. apply pow2_nonzero.
Qed.

Lemma pow2_multiple (q e : Z) :
  (q <= e)%Z -> pow2 e == inject_Z (2 ^ (e - q)) * pow2 q.
Proof.
  intro H. rewrite <- pow2_Z by lia. rewrite <- pow2_plus.
  replace (e - q + q)%Z with e by lia. reflexivity.
Qed.

Lemma rnd_pow2 (q e : Z) : (q <= e)%Z -> rnd q (pow2 e) == pow2 e.
Proof.
  intro H. rewrite (rnd_comp q (pow2_multiple H)), rnd_multiple.
  symmetry. apply pow2_multiple, H.
Qed.

Lemma rnd_zero (q : Z) (x : Q) : x == 0 -> rnd q x == 0.
Proof.
  intro H. rewrite (rnd_comp q H).
  assert (E : 0 == inject_Z 0 * pow2 q) by ring.
  rewrite (rnd_comp q E), rnd_multiple. ring.
Qed.

Lemma rnd_error (q : Z) (x : Q) : Qabs (rnd q x - x) <= pow2 q / 2.
Proof.
  unfold rnd.
  destruct (round_half_even_error (x / pow2 q)) as [Hlo Hhi].
  pose proof (pow2_pos q) as Hp.
  set (r := inject_Z (round_half_even (x / pow2 q))) in *.
  assert (Hx : x == x / pow2 q * pow2 q) by (field; apply pow2_nonzero).
  set (t := x / pow2 q) in *.
  apply Qabs_Qle_condition. split.
  - rewrite Hx at 1.
    assert (H : (t - (1 # 2)) * pow2 q <= r * pow2 q)
      by (apply Qmult_le_compat_r; [exact Hlo | apply Qlt_le_weak, Hp]).
    unfold Qdiv. change (/ 2) with (1 # 2). lra.
  - rewrite Hx at 1.
    assert (H : r * pow2 q <= (t + (1 # 2)) * pow2 q)
      by (apply Qmult_le_compat_r; [exact Hhi | apply Qlt_le_weak, Hp]).
    unfold Qdiv. change (/ 2) with (1 # 2). lra.
Qed.

Lemma round_half_even_opp (x : Q) : round_half_even (- x) = (- round_half_even x)%Z.
Proof.
  unfold round_half_even.
  pose proof (Qfloor_le x) as Hlo. pose proof (Qlt_floor x) as Hhi.
  pose proof (Qfloor_le (- x)) as Hlo'. pose proof (Qlt_floor (- x)) as Hhi'.
  rewrite inject_Z_plus in Hhi, Hhi'. change (inject_Z 1) with 1 in Hhi, Hhi'.
  set (f := Qfloor x) in *. set (g := Qfloor (- x)) in *.
  destruct (Qeq_dec x (inject_Z f)) as [Hint | Hnint].
  - (* x is an integer *)
    assert (Hg : g = (- f)%Z).
    { unfold g. rewrite (Qfloor_comp (- x) (inject_Z (- f))).
      - apply Qfloor_Z.
      - rewrite Hint, inject_Z_opp. reflexivity. }
    assert (E1 : Qcompare (x - inject_Z f) (1 # 2) = Lt).
    { rewrite <- Qlt_alt. rewrite Hint. lra. }
    assert (E2 : Qcompare (- x - inject_Z g) (1 # 2) = Lt).
    { rewrite <- Qlt_alt. rewrite Hg, inject_Z_opp, Hint. lra. }
    rewrite E1, E2. exact Hg.
  - assert (Hg : g = (- f - 1)%Z).
    { assert (A : (g < - f)%Z).
      { rewrite Zlt_Qlt, inject_Z_opp.
        apply Qle_lt_trans with (- x); [exact Hlo' |].
        apply Qopp_lt_compat. apply Qle_lteq in Hlo. destruct Hlo as [H | H]; [exact H |].
        exfalso. apply Hnint. symmetry. exact H. }
      assert (B : (- f - 1 < g + 1)%Z).
      { rewrite Zlt_Qlt. rewrite inject_Z_plus. unfold Z.sub.
        rewrite inject_Z_plus, !inject_Z_opp. change (inject_Z 1) with 1. lra. }
      lia. }
    assert (Hfrac : - x - inject_Z g == 1 - (x - inject_Z f)).
    { rewrite Hg. unfold Z.sub. rewrite inject_Z_plus, !inject_Z_opp.
      change (inject_Z 1) with 1. ring. }
    destruct (Qcompare_spec (x - inject_Z f) (1 # 2)) as [H | H | H].
    + (* tie *)
      assert (E : Qcompare (- x - inject_Z g) (1 # 2) = Eq).
      { rewrite <- Qeq_alt. rewrite Hfrac, H. reflexivity. }
      rewrite E, Hg.
      replace (- f - 1)%Z with (- (f + 1))%Z by lia.
      rewrite Z.even_opp. rewrite Z.even_add. cbn [Z.even].
      destruct (Z.even f); cbn; lia.
    + assert (E : Qcompare (- x - inject_Z g) (1 # 2) = Gt).
      { rewrite <- Qgt_alt. rewrite Hfrac. lra. }
      rewrite E, Hg. lia.
    + assert (E : Qcompare (- x - inject_Z g) (1 # 2) = Lt).
      { rewrite <- Qlt_alt. rewrite Hfrac. lra. }
      rewrite E, Hg. lia.
Qed.

Lemma rnd_opp (q : Z) (x : Q) : rnd q (- x) == - rnd q x.
Proof.
  unfold rnd.
  rewrite (@round_half_even_comp (- x / pow2 q) (- (x / pow2 q))).
  - rewrite round_half_even_opp, inject_Z_opp. ring.
  - field. apply pow2_nonzero.
Qed.

Lemma Qabs_opp_eq (x : Q) : Qabs (- x) = Qabs x.
Proof. destruct x as [n d]. unfold Qabs, Qopp. cbn. rewrite Z.abs_opp. reflexivity. Qed.

Lemma quantum_opp (x : Q) : quantum (- x) = quantum x.
Proof. unfold quantum. rewrite Qabs_opp_eq. reflexivity. Qed.

Lemma fl_opp (x : Q) : fl (- x) == - fl x.
Proof. rewrite !fl_rnd, quantum_opp. apply rnd_opp. Qed.

Lemma Qlog2_comp (x y : Q) : 0 < x -> x == y -> Qlog2 x = Qlog2 y.
Proof.
  intros Hx E. destruct (Qlog2_spec Hx) as [H1 H2].
  symmetry. apply Qlog2_unique; rewrite <- E; assumption.
Qed.

Lemma Qabs_pos_nonzero (x : Q) : ~ x == 0 -> 0 < Qabs x.
Proof.
  intro Hx. pose proof (Qabs_nonneg x) as Hn.
  apply Qle_lteq in Hn. destruct Hn as [Hn | Hn]; [exact Hn |].
  exfalso. apply Hx. revert Hn. apply Qabs_case; intros; lra.
Qed.

Lemma quantum_comp (x y : Q) : ~ x == 0 -> x == y -> quantum x = quantum y.
Proof.
  intros Hx E. unfold quantum.
  rewrite (@Qlog2_comp (Qabs x) (Qabs y)); [reflexivity | | rewrite E; reflexivity].
  apply Qabs_pos_nonzero, Hx.
Qed.

Lemma fl_zero (x : Q) : x == 0 -> fl x == 0.
Proof. intro H. rewrite fl_rnd. apply rnd_zero, H. Qed.

Lemma fl_comp (x y : Q) : x == y -> fl x == fl y.
Proof.
  intro E. destruct (Qeq_dec x 0) as [Hz | Hnz].
  - rewrite (fl_zero Hz). symmetry. apply fl_zero. rewrite <- E. exact Hz.
  - rewrite !fl_rnd, (quantum_comp Hnz E). apply rnd_comp, E.
Qed.

Lemma quantum_spec (x : Q) :
  0 < x ->
  let e := Qlog2 (Qabs x) in
  pow2 e <= x /\ x < pow2 (e + 1) /\ quantum x = Z.max (e - 52) (-1074).
Proof.
  intro Hx. cbv zeta.
  assert (Ha : Qabs x == x) by (apply Qabs_pos, Qlt_le_weak, Hx).
  assert (Hp : 0 < Qabs x) by (rewrite Ha; exact Hx).
  destruct (Qlog2_spec Hp) as [H1 H2].
  split; [| split; [| reflexivity]].
  - apply Qle_trans with (Qabs x); [exact H1 | rewrite Ha; apply Qle_refl].
  - apply Qle_lt_trans with (Qabs x); [rewrite Ha; apply Qle_refl | exact H2].
Qed.

Lemma fl_mono_pos (x y : Q) : 0 < x -> x <= y -> fl x <= fl y.
Proof.
  intros Hx Hxy.
  assert (Hy : 0 < y) by (eapply Qlt_le_trans; eassumption).
  destruct (quantum_spec Hx) as (Hx1 & Hx2 & Hqx).
  destruct (quantum_spec Hy) as (Hy1 & Hy2 & Hqy).
  set (ex := Qlog2 (Qabs x)) in *. set (ey := Qlog2 (Qabs y)) in *.
  assert (Hexy : (ex <= ey)%Z).
  { assert (H : (ex < ey + 1)%Z).
    { apply (Qpower_lt_compat_l_inv 2); [| reflexivity].
      eapply Qle_lt_trans; [exact Hx1 |]. eapply Qle_lt_trans; eassumption. }
    lia. }
  rewrite !fl_rnd.
  destruct (Z.eq_dec (quantum x) (quantum y)) as [Hq | Hq].
  - rewrite Hq. apply rnd_mono, Hxy.
  - assert (Hlt : (ex + 1 <= ey)%Z) by lia.
    assert (Hqyv : quantum y = (ey - 52)%Z) by lia.
    set (m := Z.max (ex + 1) (quantum x)).
    apply Qle_trans with (pow2 m).
    + rewrite <- (@rnd_pow2 (quantum x) m) by (unfold m; lia).
      apply rnd_mono. apply Qle_trans with (pow2 (ex + 1)).
      * apply Qlt_le_weak, Hx2.
      * apply pow2_le. unfold m. lia.
    + apply Qle_trans with (pow2 ey).
      * apply pow2_le. unfold m. lia.
      * rewrite <- (@rnd_pow2 (quantum y) ey) by lia.
        apply rnd_mono, Hy1.
Qed.

Lemma fl_nonneg (x : Q) : 0 <= x -> 0 <= fl x.
Proof.
  intro H. rewrite fl_rnd.
  apply Qle_trans with (rnd (quantum x) 0); [| apply rnd_mono, H].
  rewrite rnd_zero by reflexivity. apply Qle_refl.
Qed.

Lemma fl_nonpos (x : Q) : x <= 0 -> fl x <= 0.
Proof.
  intro H. rewrite fl_rnd.
  apply Qle_trans with (rnd (quantum x) 0); [apply rnd_mono, H |].
  rewrite rnd_zero by reflexivity. apply Qle_refl.
Qed.

(** Rounding to binary64 is monotone. *)
Lemma fl_mono (x y : Q) : x <= y -> fl x <= fl y.
Proof.
  intro Hxy.
  destruct (Qlt_le_dec 0 x) as [Hx | Hx].
  - apply fl_mono_pos; assumption.
  - destruct (Qlt_le_dec y 0) as [Hy | Hy].
    + (* both negative *)
      assert (H : fl (- y) <= fl (- x)) by (apply fl_mono_pos; lra).
      rewrite !fl_opp in H. lra.
    + apply Qle_trans with 0; [apply fl_nonpos, Hx | apply fl_nonneg, Hy].
Qed.

(** In the normal range the relative error of rounding is at most [2^-53]. *)
Lemma fl_error (x : Q) :
  pow2 (-1022) <= x -> Qabs (fl x - x) <= x * pow2 (-53).
Proof.
  intro Hn.
  assert (Hx : 0 < x) by (eapply Qlt_le_trans; [apply pow2_pos | exact Hn]).
  destruct (quantum_spec Hx) as (H1 & H2 & Hq).
  set (e := Qlog2 (Qabs x)) in *.
  assert (He : (-1022 <= e)%Z).
  { assert (H : (-1022 < e + 1)%Z).
    { apply (Qpower_lt_compat_l_inv 2); [| reflexivity].
      eapply Qle_lt_trans; eassumption. }
    lia. }
  rewrite fl_rnd.
  eapply Qle_trans; [apply rnd_error |].
  rewrite Hq. replace (Z.max (e - 52) (-1074)) with (e - 52)%Z by lia.
  assert (E : pow2 (e - 52) / 2 == pow2 e * pow2 (-53)).
  { replace (e - 52)%Z with (e + -53 + 1)%Z by lia.
    rewrite pow2_S, pow2_plus. field. }
  rewrite E. apply Qmult_le_compat_r; [exact H1 | apply Qlt_le_weak, pow2_pos].
Qed.

Lemma fl_one : fl 1 == 1.
Proof. vm_compute. reflexivity. Qed.

Lemma fl_unit_interval (x : Q) : 0 <= x -> x <= 1 -> 0 <= fl x /\ fl x <= 1.
Proof.
  intros H0 H1. split; [apply fl_nonneg, H0 |].
  rewrite <- fl_one. apply fl_mono, H1.
Qed.

Lemma fl_pow2 (e : Z) : (-1074 <= e)%Z -> fl (pow2 e) == pow2 e.
Proof.
  intro He. rewrite fl_rnd. apply rnd_pow2.
  destruct (quantum_spec (pow2_pos e)) as (H1 & H2 & Hq).
  set (e' := Qlog2 (Qabs (pow2 e))) in *.
  assert (A : (e' < e + 1)%Z).
  { apply (Qpower_lt_compat_l_inv 2); [| reflexivity].
    eapply Qle_lt_trans; [exact H1 | apply pow2_lt; lia]. }
  rewrite Hq. lia.
Qed.

(** What [round(x, 4)] of a rounded quotient [x] can differ from the
    quotient itself. *)
Lemma py_round_fl_error (h : Q) :
  0 <= h -> Qabs (py_round (fl h) 4 - h) <= (1 # 20000) + h * pow2 (-53).
Proof.
  intro Hh.
  pose proof (pow2_pos (-53)) as Hu.
  destruct (Qlt_le_dec h (pow2 (-15))) as [Hs | Hb].
  - assert (Hz : py_round (fl h) 4 == 0).
    { apply Qle_antisym.
      - apply Qle_trans with (py_round (pow2 (-15)) 4).
        + apply py_round_mono. rewrite <- (@fl_pow2 (-15)) by lia.
          apply fl_mono, Qlt_le_weak, Hs.
        + vm_compute. discriminate.
      - rewrite <- (py_round_Z 0 4). apply py_round_mono, fl_nonneg, Hh. }
    rewrite Hz.
    assert (Hlt : pow2 (-15) < 1 # 20000) by reflexivity.
    assert (Hp : 0 <= h * pow2 (-53)) by (apply Qmult_le_0_compat; lra).
    apply Qabs_Qle_condition. split; lra.
  - pose proof (py_round_error (fl h) 4) as H1.
    change (1 / (2 * inject_Z (pow10 4))) with (1 # 20000) in H1.
    assert (Hn : pow2 (-1022) <= h).
    { apply Qle_trans with (pow2 (-15)); [apply pow2_le; lia | exact Hb]. }
    pose proof (fl_error Hn) as H2.
    apply Qabs_Qle_condition in H1. apply Qabs_Qle_condition in H2.
    apply Qabs_Qle_condition. split; lra.
Qed.


(** ** Pairwise summation *)

Section PairwiseRelated.

Variables A B : Type.
Variable addA : A -> A -> A.
Variable addB : B -> B -> B.
Variable zA : A.
Variable zB : B.
Variable R : A -> B -> Prop.
Hypothesis R_add : forall x x' y y', R x x' -> R y y' -> R (addA x y) (addB x' y').
Hypothesis R_zero : R zA zB.

Lemma related_firstn (n : nat) (a : list A) (b : list B) :
  Forall2 R a b -> Forall2 R (firstn n a) (firstn n b).
Proof.
  intro H. revert n. induction H as [| x y a b Hxy _ IH]; intro n.
  - rewrite !firstn_nil. constructor.
  - destruct n as [| n]; simpl; constructor; [exact Hxy | apply IH].
Qed.

Lemma related_skipn (n : nat) (a : list A) (b : list B) :
  Forall2 R a b -> Forall2 R (skipn n a) (skipn n b).
Proof.
  intro H. revert n. induction H as [| x y a b Hxy H IH]; intro n.
  - rewrite !skipn_nil. constructor.
  - destruct n as [| n]; simpl; [constructor; assumption | apply IH].
Qed.

Lemma related_zip_with (a c : list A) (b d : list B) :
  Forall2 R a b -> Forall2 R c d ->
  Forall2 R (zip_with addA a c) (zip_with addB b d).
Proof.
  intro H. revert c d. induction H as [| x y a b Hxy _ IH]; intros c d Hcd.
  - constructor.
  - destruct Hcd as [| u v c d Huv Hcd]; simpl; constructor.
    + apply R_add; assumption.
    + apply IH, Hcd.
Qed.

Lemma related_nth (i : nat) (a : list A) (b : list B) :
  Forall2 R a b -> R (nth i a zA) (nth i b zB).
Proof.
  intro H. revert i. induction H as [| x y a b Hxy _ IH]; intro i.
  - destruct i; exact R_zero.
  - destruct i as [| i]; simpl; [exact Hxy | apply IH].
Qed.

Lemma related_fold_left (a : list A) (b : list B) (x : A) (y : B) :
  Forall2 R a b -> R x y -> R (fold_left addA a x) (fold_left addB b y).
Proof.
  intro H. revert x y. induction H as [| u v a b Huv _ IH]; intros x y Hxy.
  - exact Hxy.
  - simpl. apply IH, R_add; assumption.
Qed.

Lemma related_accumulate8 (g : nat) (r rest : list A) (r' rest' : list B) :
  Forall2 R r r' -> Forall2 R rest rest' ->
  Forall2 R (fst (accumulate8 addA g r rest)) (fst (accumulate8 addB g r' rest')) /\
  Forall2 R (snd (accumulate8 addA g r rest)) (snd (accumulate8 addB g r' rest')).
Proof.
  revert r rest r' rest'. induction g as [| g IH]; intros r rest r' rest' Hr Hrest.
  - split; assumption.
  - cbn [accumulate8]. apply IH.
    + apply related_zip_with; [exact Hr | apply related_firstn, Hrest].
    + apply related_skipn, Hrest.
Qed.

Lemma related_pairwise_block (a : list A) (b : list B) :
  Forall2 R a b -> R (pairwise_block addA zA a) (pairwise_block addB zB b).
Proof.
  intro H. unfold pairwise_block.
  rewrite <- (Forall2_length H).
  destruct (@related_accumulate8 (List.length a / 8 - 1)
              (firstn 8 a) (skipn 8 a) (firstn 8 b) (skipn 8 b)
              (related_firstn 8 H) (related_skipn 8 H)) as [Hr Hrest].
  destruct (accumulate8 addA _ _ _) as [r rest].
  destruct (accumulate8 addB _ _ _) as [r' rest'].
  simpl in Hr, Hrest.
  apply related_fold_left; [exact Hrest |].
  repeat apply R_add; apply related_nth, Hr.
Qed.

(** Two pairwise sums whose additions preserve a relation are related
    when their arrays are, element by element. *)
Lemma related_pairwise_sum (fuel : nat) (a : list A) (b : list B) :
  Forall2 R a b -> R (pairwise_sum addA zA fuel a) (pairwise_sum addB zB fuel b).
Proof.
  revert a b. induction fuel as [| fuel IH]; intros a b H; cbn [pairwise_sum];
    rewrite <- (Forall2_length H);
    destruct (List.length a <? 8)%nat;
    try (apply related_fold_left; [exact H | exact R_zero]);
    destruct (List.length a <=? 128)%nat;
    try (apply related_pairwise_block, H).
  - exact R_zero.
  - apply R_add; apply IH; [apply related_firstn, H | apply related_skipn, H].
Qed.

End PairwiseRelated.

Section PairwiseMonoid.

Variable M : Type.
Variable eqM : M -> M -> Prop.
Variable op : M -> M -> M.
Variable e : M.
Context {eqM_equiv : Equivalence eqM}.
Context {op_proper : Proper (eqM ==> eqM ==> eqM) op}.
Hypothesis op_assoc : forall x y z, eqM (op x (op y z)) (op (op x y) z).
Hypothesis op_comm : forall x y, eqM (op x y) (op y x).
Hypothesis op_e : forall x, eqM (op e x) x.

Local Abbreviation msum := (monoid_sum op e).

Lemma msum_fold_left (l : list M) (x : M) : eqM (fold_left op l x) (op x (msum l)).
Proof.
  revert x. induction l as [| y l IH]; intro x; simpl.
  - rewrite op_comm, op_e. reflexivity.
  - rewrite IH, op_assoc. reflexivity.
Qed.

Lemma msum_split (n : nat) (l : list M) :
  eqM (op (msum (firstn n l)) (msum (skipn n l))) (msum l).
Proof.
  revert l. induction n as [| n IH]; intro l.
  - simpl. apply op_e.
  - destruct l as [| x l]; simpl; [apply op_e |].
    rewrite <- op_assoc, IH. reflexivity.
Qed.

Lemma msum_zip_with (a b : list M) :
  List.length a = List.length b ->
  eqM (msum (zip_with op a b)) (op (msum a) (msum b)).
Proof.
  revert b. induction a as [| x a IH]; intros [| y b] H; simpl in *; try discriminate.
  - rewrite op_e. reflexivity.
  - rewrite IH by lia.
    rewrite <- !op_assoc. apply op_proper; [reflexivity |].
    rewrite !op_assoc. apply op_proper; [apply op_comm | reflexivity].
Qed.

Lemma zip_with_length {X Y Z : Type} (f : X -> Y -> Z) (a : list X) (b : list Y) :
  List.length a = List.length b -> List.length (zip_with f a b) = List.length a.
Proof.
  revert b. induction a as [| x a IH]; intros [| y b] H; simpl in *; try discriminate;
    [reflexivity | f_equal; apply IH; lia].
Qed.

Lemma msum_accumulate8 (g : nat) (r rest : list M) :
  List.length r = 8%nat ->
  (8 * g <= List.length rest)%nat ->
  List.length (fst (accumulate8 op g r rest)) = 8%nat /\
  eqM (op (msum (fst (accumulate8 op g r rest))) (msum (snd (accumulate8 op g r rest))))
      (op (msum r) (msum rest)).
Proof.
  revert r rest. induction g as [| g IH]; intros r rest Hr Hrest.
  - split; [exact Hr | reflexivity].
  - cbn [accumulate8].
    assert (Hf : List.length (firstn 8 rest) = 8%nat) by (rewrite length_firstn; lia).
    destruct (IH (zip_with op r (firstn 8 rest)) (skipn 8 rest)) as [Hl He].
    + rewrite zip_with_length; lia.
    + rewrite length_skipn. lia.
    + split; [exact Hl |].
      rewrite He, msum_zip_with by lia.
      rewrite <- op_assoc, msum_split. reflexivity.
Qed.

Lemma msum_pairwise_block (a : list M) :
  (8 <= List.length a)%nat -> eqM (pairwise_block op e a) (msum a).
Proof.
  intro Hn. unfold pairwise_block.
  assert (Hf : List.length (firstn 8 a) = 8%nat) by (rewrite length_firstn; lia).
  assert (Hg : (8 * (List.length a / 8 - 1) <= List.length (skipn 8 a))%nat).
  { rewrite length_skipn.
    pose proof (Nat.div_mod_eq (List.length a) 8). lia. }
  destruct (@msum_accumulate8 _ _ _ Hf Hg) as [Hl He].
  destruct (accumulate8 op _ _ _) as [r rest]. cbn [fst snd] in Hl, He.
  rewrite msum_fold_left.
  rewrite msum_split in He. rewrite <- He.
  apply op_proper; [| reflexivity].
  do 9 (destruct r as [| ? r]; try discriminate).
  simpl.
  rewrite (op_comm _ e), op_e.
  rewrite <- !op_assoc. reflexivity.
Qed.

(** Over a commutative monoid the pairwise sum is the sum. *)
Lemma msum_pairwise_sum (fuel : nat) (a : list M) :
  (List.length a <= fuel)%nat -> eqM (pairwise_sum op e fuel a) (msum a).
Proof.
  revert a. induction fuel as [| fuel IH]; intros a Hlen; cbn [pairwise_sum].
  - destruct a; [| simpl in Hlen; lia]. simpl. reflexivity.
  - destruct (List.length a <? 8)%nat eqn:E8.
    + rewrite msum_fold_left. apply op_e.
    + apply Nat.ltb_ge in E8.
      destruct (List.length a <=? 128)%nat eqn:E128.
      * apply msum_pairwise_block, E8.
      * apply Nat.leb_gt in E128.
        set (n2 := (List.length a / 2 - (List.length a / 2) mod 8)%nat).
        assert (Hn2 : (0 < n2 < List.length a)%nat).
        { unfold n2.
          pose proof (Nat.div_mod_eq (List.length a) 2).
          pose proof (Nat.mod_upper_bound (List.length a) 2 ltac:(lia)).
          pose proof (Nat.mod_upper_bound (List.length a / 2) 8 ltac:(lia)). lia. }
        rewrite !IH.
        -- apply msum_split.
        -- rewrite length_skipn. lia.
        -- rewrite length_firstn. lia.
Qed.

End PairwiseMonoid.

(** ** Sums in binary64 *)

#[global] Instance fl_proper : Proper (Qeq ==> Qeq) fl.
Proof. intros x y H. apply fl_comp, H. Qed.

Lemma fl_idempotent_pos (x : Q) : 0 < x -> fl (fl x) == fl x.
Proof.
  intro Hx.
  destruct (quantum_spec Hx) as (H1 & H2 & Hq).
  set (e := Qlog2 (Qabs x)) in *.
  set (g := Z.max (e + 1) (-1074)).
  assert (Hg : fl x <= pow2 g).
  { rewrite <- (@fl_pow2 g) by (unfold g; lia).
    apply fl_mono. apply Qle_trans with (pow2 (e + 1)).
    - apply Qlt_le_weak, H2.
    - apply pow2_le. unfold g. lia. }
  apply Qle_lteq in Hg. destruct Hg as [Hlt | Heq].
  2: { rewrite Heq. apply fl_pow2. unfold g. lia. }
  pose proof (fl_nonneg (Qlt_le_weak _ _ Hx)) as Hy0.
  apply Qle_lteq in Hy0. destruct Hy0 as [Hy | Hy].
  2: { rewrite <- Hy. apply fl_zero. reflexivity. }
  (* 0 < fl x < 2^g: the quantum of [fl x] is that of [x] *)
  assert (Hqq : quantum (fl x) = quantum x).
  { destruct (quantum_spec Hy) as (Hy1 & Hy2 & Hqy).
    set (e' := Qlog2 (Qabs (fl x))) in *.
    rewrite Hqy, Hq.
    assert (Hup : (e' < g)%Z).
    { apply (Qpower_lt_compat_l_inv 2); [| reflexivity].
      eapply Qle_lt_trans; [exact Hy1 | exact Hlt]. }
    destruct (Z_le_gt_dec (-1022) e) as [Hn | Hs].
    - assert (Hlo : pow2 e <= fl x).
      { rewrite <- (@fl_pow2 e) by lia. apply fl_mono, H1. }
      assert (He' : (e < e' + 1)%Z).
      { apply (Qpower_lt_compat_l_inv 2); [| reflexivity].
        eapply Qle_lt_trans; [exact Hlo | exact Hy2]. }
      unfold g in Hup. lia.
    - unfold g in Hup. lia. }
  rewrite (fl_rnd (fl x)), Hqq.
  rewrite (fl_rnd x) at 1. unfold rnd at 2.
  rewrite rnd_multiple. rewrite (fl_rnd x). reflexivity.
Qed.

(** [fl] is a projection: its values are floats. *)
Lemma fl_idempotent (x : Q) : fl (fl x) == fl x.
Proof.
  destruct (Qlt_le_dec 0 x) as [Hp | Hn].
  - apply fl_idempotent_pos, Hp.
  - apply Qle_lteq in Hn. destruct Hn as [Hn | Hz].
    + assert (H : fl (fl (- x)) == fl (- x)) by (apply fl_idempotent_pos; lra).
      rewrite !fl_opp in H. lra.
    + rewrite (fl_zero Hz). apply fl_zero. reflexivity.
Qed.

Lemma fl_upper (x : Q) : x == 0 \/ pow2 (-1022) <= x -> fl x <= x * (1 + pow2 (-53)).
Proof.
  intros [Hz | Hn].
  - rewrite (fl_zero Hz), Hz. ring_simplify. apply Qle_refl.
  - pose proof (fl_error Hn) as H. apply Qabs_Qle_condition in H. lra.
Qed.

Lemma fl_zero_or_normal (x : Q) :
  x == 0 \/ pow2 (-1022) <= x -> fl x == 0 \/ pow2 (-1022) <= fl x.
Proof.
  intros [Hz | Hn]; [left; apply fl_zero, Hz | right].
  rewrite <- (@fl_pow2 (-1022)) by lia. apply fl_mono, Hn.
Qed.

Lemma float_add_mono (x x' y y' : Q) :
  x <= x' -> y <= y' -> float_add x y <= float_add x' y'.
Proof. intros Hx Hy. unfold float_add. apply fl_mono. lra. Qed.

Lemma float_add_zero_l (x : Q) : float_add 0 (fl x) == fl x.
Proof.
  unfold float_add. rewrite (@fl_comp (0 + fl x) (fl x)) by ring. apply fl_idempotent.
Qed.

(** Raising every element of a float64 array raises its sum, and so does
    winning more. *)
Lemma np_sum_f64_mono (a b : list Q) :
  Forall2 Qle a b -> np_sum_f64 a <= np_sum_f64 b.
Proof.
  intro H. unfold np_sum_f64. rewrite <- (Forall2_length H).
  apply float_add_mono; [apply Qle_refl |].
  apply (@related_pairwise_sum Q Q float_add float_add 0 0 Qle);
    [| apply Qle_refl | exact H].
  intros x x' y y'. apply float_add_mono.
Qed.

Lemma np_sum_f64_nonneg (a : list Q) :
  Forall (fun x => 0 <= x) a -> 0 <= np_sum_f64 a.
Proof.
  intro H.
  change (np_sum_f64 a) with (fl (0 + pairwise_sum float_add 0 (List.length a) a)).
  apply fl_nonneg.
  assert (Hp : 0 <= pairwise_sum float_add 0 (List.length a) a).
  { apply (@related_pairwise_sum Q unit float_add (fun _ _ => tt) 0 tt
             (fun x _ => 0 <= x)) with (b := map (fun _ => tt) a).
    - intros x _ y _ Hx Hy. unfold float_add. apply fl_nonneg. lra.
    - apply Qle_refl.
    - induction H; simpl; constructor; assumption. }
  lra.
Qed.

Lemma growth_ge_1 (n : nat) : 1 <= (1 + pow2 (-53)) ^ Z.of_nat n.
Proof.
  apply Qpower_1_le; [| lia].
  pose proof (pow2_pos (-53)). lra.
Qed.

Lemma growth_mono (n m : nat) :
  (n <= m)%nat -> (1 + pow2 (-53)) ^ Z.of_nat n <= (1 + pow2 (-53)) ^ Z.of_nat m.
Proof.
  intro H. apply Qpower_le_compat_l; [lia |].
  pose proof (pow2_pos (-53)). lra.
Qed.

Lemma growth_S (n : nat) :
  (1 + pow2 (-53)) ^ Z.of_nat (S n)
  == (1 + pow2 (-53)) ^ Z.of_nat n * (1 + pow2 (-53)).
Proof.
  rewrite Nat2Z.inj_succ. unfold Z.succ. rewrite Qpower_plus.
  - rewrite Qpower_1_r. reflexivity.
  - pose proof (pow2_pos (-53)). lra.
Qed.

Lemma sums_to_zero : sums_to 0 (0, 0%nat).
Proof.
  unfold sums_to. cbn [fst snd].
  split; [apply fl_zero; reflexivity |].
  split; [left; reflexivity |].
  split; [apply Qle_refl |].
  split; [reflexivity |]. apply Qle_refl.
Qed.

Lemma sums_to_nonneg (s : Q) (tn : Q * nat) : sums_to s tn -> 0 <= s.
Proof.
  intros (_ & [Hz | Hn] & _); [lra |].
  pose proof (pow2_pos (-1022)). lra.
Qed.

Lemma sums_to_none (s : Q) (t : Q) : sums_to s (t, 0%nat) -> s == 0.
Proof.
  intros (_ & H0 & Ht & Hz & Hb). cbn [fst snd] in *.
  specialize (Hz eq_refl). rewrite Hz in Hb.
  pose proof (@sums_to_nonneg s (t, 0%nat)) as Hs.
  assert (0 <= s).
  { destruct H0 as [H0 | H0]; [lra |]. pose proof (pow2_pos (-1022)). lra. }
  lra.
Qed.

Lemma sums_to_add (x : Q) (x' : Q * nat) (y : Q) (y' : Q * nat) :
  sums_to x x' -> sums_to y y' -> sums_to (float_add x y) (pair_add x' y').
Proof.
  intros Hx Hy.
  pose proof (sums_to_nonneg Hx) as Hx0. pose proof (sums_to_nonneg Hy) as Hy0.
  destruct x' as [tx nx]. destruct y' as [ty ny].
  destruct nx as [| nx].
  { (* nothing summed on the left *)
    pose proof (sums_to_none Hx) as Hz.
    destruct Hx as (_ & _ & Htx & Hzx & _). cbn [fst snd] in Htx, Hzx. specialize (Hzx eq_refl).
    destruct Hy as (Hfy & Hny & Hty & Hzy & Hby). cbn [fst snd] in Hty, Hzy, Hby.
    assert (E : float_add x y == y).
    { unfold float_add. rewrite (@fl_comp (x + y) y) by (rewrite Hz; ring). exact Hfy. }
    unfold sums_to, pair_add. cbn [fst snd].
    split; [rewrite E; exact Hfy |].
    split; [rewrite E; exact Hny |].
    split; [lra |].
    split; [intro H; rewrite Hzx, (Hzy H); reflexivity |].
    rewrite E, Hzx. setoid_replace (0 + ty) with ty by ring. exact Hby. }
  destruct ny as [| ny].
  { pose proof (sums_to_none Hy) as Hz.
    destruct Hy as (_ & _ & Hty & Hzy & _). cbn [fst snd] in Hty, Hzy. specialize (Hzy eq_refl).
    destruct Hx as (Hfx & Hnx & Htx & Hzx & Hbx). cbn [fst snd] in Htx, Hzx, Hbx.
    assert (E : float_add x y == x).
    { unfold float_add. rewrite (@fl_comp (x + y) x) by (rewrite Hz; ring). exact Hfx. }
    unfold sums_to, pair_add. cbn [fst snd].
    split; [rewrite E; exact Hfx |].
    split; [rewrite E; exact Hnx |].
    split; [lra |].
    split; [intro H; lia |].
    rewrite E, Hzy, Nat.add_0_r. setoid_replace (tx + 0) with tx by ring. exact Hbx. }
  destruct Hx as (Hfx & Hnx & Htx & _ & Hbx). destruct Hy as (Hfy & Hny & Hty & _ & Hby).
  cbn [fst snd] in Htx, Hty, Hbx, Hby.
  unfold sums_to, pair_add. cbn [fst snd].
  assert (Hsum : x + y == 0 \/ pow2 (-1022) <= x + y).
  { destruct Hnx as [Hnx | Hnx]; destruct Hny as [Hny | Hny]; [left | right | right | right]; lra. }
  split; [apply fl_idempotent |].
  split; [apply fl_zero_or_normal, Hsum |].
  split; [lra |].
  split; [intro H; lia |].
  unfold float_add.
  eapply Qle_trans; [apply fl_upper, Hsum |].
  set (U := 1 + pow2 (-53)) in *.
  assert (HU : 1 <= U) by (unfold U; pose proof (pow2_pos (-53)); lra).
  set (k := (S nx + ny)%nat).
  assert (Hk : (S nx + S ny)%nat = S k) by (unfold k; lia).
  rewrite Hk. fold U. unfold U at 2. fold U.
  assert (Hgk : U ^ Z.of_nat (S k) == U ^ Z.of_nat k * U) by apply growth_S.
  rewrite Hgk.
  assert (Hx1 : x <= tx * U ^ Z.of_nat k).
  { eapply Qle_trans; [exact Hbx |].
    rewrite !(Qmult_comm tx). apply Qmult_le_compat_r; [| exact Htx].
    apply growth_mono. unfold k. lia. }
  assert (Hy1 : y <= ty * U ^ Z.of_nat k).
  { eapply Qle_trans; [exact Hby |].
    rewrite !(Qmult_comm ty). apply Qmult_le_compat_r; [| exact Hty].
    apply growth_mono. unfold k. lia. }
  setoid_replace ((tx + ty) * (U ^ Z.of_nat k * U))
    with ((tx * U ^ Z.of_nat k + ty * U ^ Z.of_nat k) * U) by ring.
  apply Qmult_le_compat_r; lra.
Qed.

#[global] Instance pair_eq_equivalence : Equivalence pair_eq.
Proof.
  split.
  - intros [t n]. split; reflexivity.
  - intros [t n] [t' n'] [H1 H2]. split; symmetry; assumption.
  - intros [t n] [t' n'] [t'' n''] [H1 H2] [H3 H4].
    split; [rewrite H1; exact H3 | rewrite H2; exact H4].
Qed.

#[global] Instance pair_add_proper : Proper (pair_eq ==> pair_eq ==> pair_eq) pair_add.
Proof.
  intros [t n] [t' n'] [H1 H2] [s m] [s' m'] [H3 H4].
  unfold pair_add, pair_eq in *. cbn [fst snd] in *.
  split; [rewrite H1, H3; reflexivity | rewrite H2, H4; reflexivity].
Qed.

Lemma pair_add_assoc (x y z : Q * nat) :
  pair_eq (pair_add x (pair_add y z)) (pair_add (pair_add x y) z).
Proof. unfold pair_eq, pair_add. cbn [fst snd]. split; [ring | lia]. Qed.

Lemma pair_add_comm (x y : Q * nat) : pair_eq (pair_add x y) (pair_add y x).
Proof. unfold pair_eq, pair_add. cbn [fst snd]. split; [ring | lia]. Qed.

Lemma pair_add_zero (x : Q * nat) : pair_eq (pair_add (0, 0%nat) x) x.
Proof. unfold pair_eq, pair_add. cbn [fst snd]. split; [ring | lia]. Qed.

Lemma sums_to_pair_eq (s : Q) (x y : Q * nat) : pair_eq x y -> sums_to s x -> sums_to s y.
Proof.
  intros [H1 H2] (Hf & Hn & Ht & Hz & Hb).
  unfold sums_to. rewrite <- H1, <- H2. auto.
Qed.

Lemma monoid_sum_counted (l : list Q) :
  pair_eq (monoid_sum pair_add (0, 0%nat) (map (fun a => (a, 1%nat)) l))
          (exact_sum l, List.length l).
Proof.
  induction l as [| a l [IH1 IH2]].
  - split; reflexivity.
  - unfold pair_eq in *. simpl map. unfold monoid_sum in *. cbn [fold_right].
    cbn [fst snd] in IH1, IH2.
    split.
    + unfold pair_add at 1. cbn [fst snd]. rewrite exact_sum_cons, IH1. reflexivity.
    + unfold pair_add at 1. cbn [fst snd]. rewrite IH2. reflexivity.
Qed.

(** The float64 sum of [m] amounts of the normal range, each rounded once
    on the way in, exceeds their exact sum by a factor of at most
    [(1 + 2^-53)^m]. *)
Lemma np_sum_f64_upper (l : list Q) :
  Forall (fun a => pow2 (-1022) <= a) l ->
  np_sum_f64 (map (fun a => float_mul 1 a) l)
  <= exact_sum l * (1 + pow2 (-53)) ^ Z.of_nat (List.length l).
Proof.
  intro Hl.
  assert (Hin : Forall2 sums_to (map (fun a => float_mul 1 a) l)
                        (map (fun a => (a, 1%nat)) l)).
  { induction Hl as [| a l Ha _ IH]; simpl map; constructor; [| exact IH].
    assert (E : 1 * a == a) by ring.
    pose proof (pow2_pos (-1022)) as Hp.
    unfold sums_to, float_mul. cbn [fst snd].
    split; [apply fl_idempotent |].
    split; [apply fl_zero_or_normal; right; lra |].
    split; [lra |].
    split; [discriminate |].
    rewrite E. change (Z.of_nat 1) with 1%Z. rewrite Qpower_1_r.
    apply fl_upper. right. exact Ha. }
  pose proof (@related_pairwise_sum Q (Q * nat) float_add pair_add 0 (0, 0%nat) sums_to
                sums_to_add sums_to_zero
                (List.length (map (fun a => float_mul 1 a) l)) _ _ Hin) as Hs.
  assert (Hm : pair_eq
                 (pairwise_sum pair_add (0, 0%nat)
                    (List.length (map (fun a => float_mul 1 a) l))
                    (map (fun a => (a, 1%nat)) l))
                 (exact_sum l, List.length l)).
  { rewrite <- monoid_sum_counted.
    apply (@msum_pairwise_sum (Q * nat) pair_eq pair_add (0, 0%nat) _ _
             pair_add_assoc pair_add_comm pair_add_zero).
    rewrite !length_map. apply Nat.le_refl. }
  apply (sums_to_pair_eq Hm) in Hs.
  destruct Hs as (Hf & _ & _ & _ & Hb). cbn [fst snd] in Hb.
  unfold np_sum_f64.
  set (P := pairwise_sum float_add 0 _ _) in *.
  assert (E : float_add 0 P == P).
  { unfold float_add. rewrite (@fl_comp (0 + P) P) by ring. exact Hf. }
  rewrite E. exact Hb.
Qed.

(** ** Trial engine in binary64 *)

Lemma run_monte_carlo_f64_empty (n : Z) (w : world) :
  (0 <= n)%Z -> run_monte_carlo_f64 [] n w = inr (repeat 0 (Z.to_nat n), w).
Proof.
  intro Hn. unfold run_monte_carlo_f64, lift, np_zeros.
  destruct (n <? 0)%Z eqn:E; [apply Z.ltb_lt in E; lia | reflexivity].
Qed.

Lemma run_monte_carlo_f64_nonempty
      (o : Opportunity.t) (opps : list Opportunity.t) (n : Z) (w : world) :
  (0 <= n)%Z ->
  run_monte_carlo_f64 (o :: opps) n w =
  inr (map (fun i =>
              np_sum_f64 (zip_with (fun won a => float_mul (bool_to_Q won) a)
                            (zip_with Qlt_bool
                               (map (fun j => draw w (List.length (o :: opps)) i j)
                                    (seq 0 (List.length (o :: opps))))
                               (map Opportunity.probability (o :: opps)))
                            (map Opportunity.amount (o :: opps))))
           (seq 0 (Z.to_nat n)),
       consume (Z.to_nat n * List.length (o :: opps)) w).
Proof.
  intro Hn. unfold run_monte_carlo_f64, bind, np_random_uniform.
  destruct (n <? 0)%Z eqn:E; [apply Z.ltb_lt in E; lia |].
  rewrite uniform_rows_spec. unfold ret. rewrite !map_map. reflexivity.
Qed.

(** The products of one trial, event by event: none is negative and none
    exceeds the product of the trial that wins every event. *)
Lemma row_f64_bounds (d : nat -> Q) (opps : list Opportunity.t) (k : nat) :
  Forall (fun o => 0 <= Opportunity.amount o) opps ->
  let row := zip_with (fun won a => float_mul (bool_to_Q won) a)
               (zip_with Qlt_bool (map d (seq k (List.length opps)))
                         (map Opportunity.probability opps))
               (map Opportunity.amount opps) in
  Forall (fun x => 0 <= x) row /\
  Forall2 Qle row (map (fun o => float_mul 1 (Opportunity.amount o)) opps).
Proof.
  intro Hv. cbv zeta. revert k.
  induction Hv as [| o opps Ha _ IH]; intro k.
  - split; constructor.
  - simpl List.length. simpl seq. simpl map. simpl zip_with.
    destruct (IH (S k)) as [IH1 IH2].
    assert (H1 : 0 <= float_mul 1 (Opportunity.amount o)).
    { unfold float_mul. apply fl_nonneg. lra. }
    split; constructor; try assumption;
      destruct (Qlt_bool (d k) (Opportunity.probability o)); simpl bool_to_Q.
    + exact H1.
    + unfold float_mul. apply fl_nonneg. lra.
    + apply Qle_refl.
    + unfold float_mul. apply fl_mono. lra.
Qed.

Lemma all_won_outcome_upper (opps : list Opportunity.t) :
  Forall (fun o => pow2 (-1022) <= Opportunity.amount o) opps ->
  all_won_outcome opps <= totalPipelineValue opps * (1 + pow2 (-53)) ^ len opps.
Proof.
  intro H. unfold all_won_outcome, totalPipelineValue, len.
  rewrite <- (length_map Opportunity.amount opps).
  rewrite <- (map_map Opportunity.amount (fun a => float_mul 1 a)).
  apply np_sum_f64_upper, Forall_map, H.
Qed.

(** C2 (as the code has it). With positive amounts and probabilities in
    [0, 1], whatever the generator produces, the engine returns as many
    outcomes as trials and every outcome lies between 0 and the outcome of
    the trial that wins every event: the float64 sum of all the amounts.
    That sum is not the exact sum of the amounts; for amounts of the normal
    float range it exceeds it by a factor of at most (1 + 2^-53)^m, m being
    the number of events. *)
Theorem outcomes_within_pipeline_bounds :
  forall (opps : list Opportunity.t) (n : Z) (w : world),
    Forall valid_event opps ->
    (0 <= n)%Z ->
    exists outcomes w',
      run_monte_carlo_f64 opps n w = inr (outcomes, w') /\
      len outcomes = n /\
      Forall (fun x => 0 <= x /\ x <= all_won_outcome opps) outcomes /\
      (Forall (fun o => pow2 (-1022) <= Opportunity.amount o) opps ->
       Forall (fun x => x <= totalPipelineValue opps * (1 + pow2 (-53)) ^ len opps)
              outcomes).
Proof.
  intros opps n w Hv Hn.
  assert (Hnn : Forall (fun o => 0 <= Opportunity.amount o) opps).
  { eapply Forall_impl; [| exact Hv]. intros o [Ha _]. lra. }
  assert (Hex : exists outcomes w',
             run_monte_carlo_f64 opps n w = inr (outcomes, w') /\
             len outcomes = n /\
             Forall (fun x => 0 <= x /\ x <= all_won_outcome opps) outcomes).
  { destruct opps as [| o opps].
    - exists (repeat 0 (Z.to_nat n)), w.
      split; [apply run_monte_carlo_f64_empty, Hn |].
      split; [unfold len; rewrite repeat_length; lia |].
      apply Forall_forall. intros x Hx. apply repeat_spec in Hx. subst x.
      split; [apply Qle_refl | apply np_sum_f64_nonneg; constructor].
    - eexists; eexists. split; [apply run_monte_carlo_f64_nonempty, Hn |].
      split; [unfold len; rewrite length_map, length_seq; lia |].
      apply Forall_map, Forall_forall. intros i _.
      destruct (@row_f64_bounds (draw w (List.length (o :: opps)) i) (o :: opps) 0 Hnn)
        as [H0 H1].
      split; [apply np_sum_f64_nonneg, H0 | apply np_sum_f64_mono, H1]. }
  destruct Hex as (outcomes & w' & Hrun & Hlen & Hall).
  exists outcomes, w'. split; [exact Hrun |]. split; [exact Hlen |].
  split; [exact Hall |].
  intro Hnormal. pose proof (all_won_outcome_upper Hnormal) as Hup.
  eapply Forall_impl; [| exact Hall]. intros x [_ Hx]. cbv beta. lra.
Qed.

(** ** Sorting *)

Lemma StronglySorted_Qle_bool (l : list Q) :
  StronglySorted (fun x y => is_true (Qle_bool x y)) l -> StronglySorted Qle l.
Proof.
  induction 1 as [| a l _ IH Hall]; constructor; [exact IH |].
  eapply Forall_impl; [| exact Hall]. intros b Hb. apply Qle_bool_iff, Hb.
Qed.

Lemma sort_StronglySorted (l : list Q) : StronglySorted Qle (QSort.sort l).
Proof.
  apply StronglySorted_Qle_bool, QSort.StronglySorted_sort.
  intros x y z Hxy Hyz. unfold is_true in *.
  rewrite Qle_bool_iff in *. eapply Qle_trans; eassumption.
Qed.


(** ** Target analysis *)

Lemma rmap_total {A B} (f : A -> result B) (g : A -> B) (l : list A) :
  (forall x, f x = inr (g x)) -> rmap f l = inr (map g l).
Proof.
  intro H. induction l as [| x l IH]; simpl; [reflexivity |].
  rewrite H, IH. reflexivity.
Qed.

Lemma count_if_bounds (p : Q -> bool) (a : list Q) :
  (0 <= count_if p a <= len a)%Z.
Proof.
  unfold count_if, len. pose proof (filter_length_le p a). lia.
Qed.


Lemma compute_target_analysis_nonzero (outcomes targets : list Q) (n : Z) :
  n <> 0%Z ->
  compute_target_analysis outcomes targets n =
  inr (map (fun t =>
              TargetAnalysis.make
                (py_round t 2)
                (py_round (fl (hitProbability outcomes t n)) 4)
                (format_f false 1 (float_mul (fl (hitProbability outcomes t n)) 100) ++ "%"))
           (sorted targets)).
Proof.
  intro Hn. unfold compute_target_analysis. apply rmap_total.
  intro t. unfold py_truediv. destruct (n =? 0)%Z eqn:E; [apply Z.eqb_eq in E; lia |].
  reflexivity.
Qed.


(** ** Percentiles of a sorted array *)

Lemma StronglySorted_nth_le (s : list Q) :
  StronglySorted Qle s ->
  forall i j, (i <= j)%nat -> (j < List.length s)%nat -> nth i s 0 <= nth j s 0.
Proof.
  induction 1 as [| a l _ IH Hall]; intros i j Hij Hj; simpl in Hj; [lia |].
  destruct j as [| j].
  - replace i with 0%nat by lia. apply Qle_refl.
  - destruct i as [| i]; simpl.
    + rewrite Forall_forall in Hall. apply Hall, nth_In. lia.
    + apply IH; lia.
Qed.

Lemma lerp_eq (a b t : Q) : lerp a b t == a + (b - a) * t.
Proof. unfold lerp. destruct (Qle_bool (1 # 2) t); ring. Qed.

Lemma item_nonneg (s : list Q) (i : Z) :
  (0 <= i)%Z -> item s i = nth (Z.to_nat i) s 0.
Proof.
  intro Hi. unfold item. destruct (i <? 0)%Z eqn:E; [apply Z.ltb_lt in E; lia | reflexivity].
Qed.

Lemma item_last (s : list Q) : item s (-1) = nth (List.length s - 1) s 0.
Proof. unfold item, len. simpl. f_equal. lia. Qed.

Lemma len_pos {A} (s : list A) : s <> [] -> (1 <= len s)%Z.
Proof. destruct s; [congruence | unfold len; simpl; lia]. Qed.

Lemma quantile_above (s : list Q) (v : Q) :
  s <> [] -> inject_Z (len s - 1) <= v ->
  quantile_linear s v == nth (List.length s - 1) s 0.
Proof.
  intros Hs Hv. unfold quantile_linear.
  pose proof (len_pos Hs) as Hn.
  assert (H0 : 0 <= inject_Z (len s - 1)) by (rewrite <- (Zle_Qle 0); lia).
  assert (Hb : Qlt_bool v 0 = false).
  { destruct (Qlt_bool v 0) eqn:E; [| reflexivity]. apply Qlt_bool_iff in E. lra. }
  apply Qle_bool_iff in Hv. rewrite Hb, Hv.
  rewrite lerp_eq, item_last. ring.
Qed.

Lemma quantile_middle (s : list Q) (v : Q) :
  0 <= v -> v < inject_Z (len s - 1) ->
  quantile_linear s v ==
  nth (Z.to_nat (Qfloor v)) s 0 +
  (nth (S (Z.to_nat (Qfloor v))) s 0 - nth (Z.to_nat (Qfloor v)) s 0)
  * (v - inject_Z (Qfloor v)).
Proof.
  intros H0 Hv. unfold quantile_linear.
  assert (Hb : Qlt_bool v 0 = false).
  { destruct (Qlt_bool v 0) eqn:E; [| reflexivity]. apply Qlt_bool_iff in E. lra. }
  assert (Ha : Qle_bool (inject_Z (len s - 1)) v = false).
  { destruct (Qle_bool (inject_Z (len s - 1)) v) eqn:E; [| reflexivity].
    apply Qle_bool_iff in E. lra. }
  rewrite Hb, Ha.
  assert (Hf : (0 <= Qfloor v)%Z).
  { rewrite <- (Qfloor_Z 0). apply Qfloor_resp_le, H0. }
  rewrite lerp_eq, !item_nonneg by lia.
  replace (Z.to_nat (Qfloor v + 1)) with (S (Z.to_nat (Qfloor v))) by lia.
  reflexivity.
Qed.

Lemma floor_below_last (s : list Q) (v : Q) :
  0 <= v -> v < inject_Z (len s - 1) ->
  (0 <= Qfloor v)%Z /\ (S (Z.to_nat (Qfloor v)) < List.length s)%nat.
Proof.
  intros H0 Hv.
  assert (Hf : (0 <= Qfloor v)%Z).
  { rewrite <- (Qfloor_Z 0). apply Qfloor_resp_le, H0. }
  split; [exact Hf |].
  assert (Hlt : (Qfloor v < len s - 1)%Z).
  { rewrite Zlt_Qlt. eapply Qle_lt_trans; [apply Qfloor_le | exact Hv]. }
  unfold len in Hlt. lia.
Qed.

Lemma quantile_middle_bounds (s : list Q) (v : Q) :
  StronglySorted Qle s ->
  0 <= v -> v < inject_Z (len s - 1) ->
  nth (Z.to_nat (Qfloor v)) s 0 <= quantile_linear s v /\
  quantile_linear s v <= nth (S (Z.to_nat (Qfloor v))) s 0.
Proof.
  intros Hs H0 Hv.
  destruct (floor_below_last s H0 Hv) as [Hf Hk].
  rewrite (quantile_middle s H0 Hv).
  pose proof (StronglySorted_nth_le Hs (Nat.le_succ_diag_r (Z.to_nat (Qfloor v))) Hk) as Hab.
  pose proof (Qfloor_le v) as Hg0.
  pose proof (Qlt_floor v) as Hg1. rewrite inject_Z_plus in Hg1.
  change (inject_Z 1) with 1 in Hg1.
  set (a := nth (Z.to_nat (Qfloor v)) s 0) in *.
  set (b := nth (S (Z.to_nat (Qfloor v))) s 0) in *.
  set (g := v - inject_Z (Qfloor v)).
  assert (Hg : 0 <= g /\ g <= 1) by (subst g; split; lra).
  assert (Hm : 0 <= (b - a) * g) by (apply Qmult_le_0_compat; lra).
  assert (Hm' : 0 <= (b - a) * (1 - g)) by (apply Qmult_le_0_compat; lra).
  split; [lra |].
  setoid_replace (a + (b - a) * g) with (b - (b - a) * (1 - g)) by ring. lra.
Qed.

Lemma quantile_linear_mono (s : list Q) (v1 v2 : Q) :
  StronglySorted Qle s -> s <> [] ->
  0 <= v1 -> v1 <= v2 ->
  quantile_linear s v1 <= quantile_linear s v2.
Proof.
  intros Hs Hne H0 H12.
  assert (H02 : 0 <= v2) by lra.
  pose proof (len_pos Hne) as Hn.
  destruct (Qlt_le_dec v2 (inject_Z (len s - 1))) as [H2 | H2].
  - assert (H1 : v1 < inject_Z (len s - 1)) by lra.
    destruct (floor_below_last s H0 H1) as [Hf1 Hk1].
    destruct (floor_below_last s H02 H2) as [Hf2 Hk2].
    pose proof (Qfloor_resp_le _ _ H12) as Hff.
    destruct (Z.eq_dec (Qfloor v1) (Qfloor v2)) as [Heq | Hneq].
    + rewrite (quantile_middle s H0 H1), (quantile_middle s H02 H2), Heq.
      pose proof (StronglySorted_nth_le Hs (Nat.le_succ_diag_r (Z.to_nat (Qfloor v2))) Hk2)
        as Hab.
      set (a := nth (Z.to_nat (Qfloor v2)) s 0) in *.
      set (b := nth (S (Z.to_nat (Qfloor v2))) s 0) in *.
      assert (Hm : 0 <= (b - a) * (v2 - v1)) by (apply Qmult_le_0_compat; lra).
      setoid_replace (a + (b - a) * (v2 - inject_Z (Qfloor v2)))
        with (a + (b - a) * (v1 - inject_Z (Qfloor v2)) + (b - a) * (v2 - v1)) by ring.
      lra.
    + destruct (quantile_middle_bounds Hs H0 H1) as [_ Hup].
      destruct (quantile_middle_bounds Hs H02 H2) as [Hlow _].
      eapply Qle_trans; [exact Hup |]. eapply Qle_trans; [| exact Hlow].
      apply StronglySorted_nth_le; [exact Hs | lia | lia].
  - rewrite (quantile_above Hne H2).
    destruct (Qlt_le_dec v1 (inject_Z (len s - 1))) as [H1 | H1].
    + destruct (floor_below_last s H0 H1) as [Hf1 Hk1].
      destruct (quantile_middle_bounds Hs H0 H1) as [_ Hup].
      eapply Qle_trans; [exact Hup |].
      apply StronglySorted_nth_le; [exact Hs | lia | lia].
    + rewrite (quantile_above Hne H1). apply Qle_refl.
Qed.

Lemma np_sort_length (a : list Q) : List.length (np_sort a) = List.length a.
Proof. symmetry. apply Permutation_length, QSort.Permuted_sort. Qed.

Lemma np_sort_nonempty (a : list Q) : a <> [] -> np_sort a <> [].
Proof.
  intros Ha Hs. apply Ha. apply length_zero_iff_nil.
  rewrite <- np_sort_length, Hs. reflexivity.
Qed.

Lemma np_percentile_mono (a : list Q) (p q : Q) :
  a <> [] -> 0 <= p -> p <= q -> linear_percentile a p <= linear_percentile a q.
Proof.
  intros Ha Hp Hpq. unfold linear_percentile.
  pose proof (len_pos (np_sort_nonempty Ha)) as Hn.
  assert (Hn' : 0 <= inject_Z (len (np_sort a) - 1)) by (rewrite <- (Zle_Qle 0); lia).
  apply quantile_linear_mono.
  - apply sort_StronglySorted.
  - apply np_sort_nonempty, Ha.
  - apply Qmult_le_0_compat; [exact Hn' | apply Qle_shift_div_l; lra].
  - rewrite !(Qmult_comm (inject_Z (len (np_sort a) - 1))).
    apply Qmult_le_compat_r; [| exact Hn'].
    apply Qmult_le_compat_r; [exact Hpq | discriminate].
Qed.

Lemma np_mean_one (x : Q) : np_mean [x] == x.
Proof. unfold np_mean, np_sum, len. simpl. field. Qed.

Lemma np_mean_two (x y : Q) : np_mean [x; y] == (x + y) / 2.
Proof. unfold np_mean, np_sum, len. simpl. field. Qed.

Lemma firstn_one_skipn (s : list Q) (k : nat) :
  (k < List.length s)%nat -> firstn 1 (skipn k s) = [nth k s 0].
Proof.
  revert k. induction s as [| x s IH]; intros k Hk; simpl in Hk; [lia |].
  destruct k as [| k]; [reflexivity |]. simpl skipn. simpl nth. apply IH. lia.
Qed.

Lemma firstn_two_skipn (s : list Q) (k : nat) :
  (S k < List.length s)%nat -> firstn 2 (skipn k s) = [nth k s 0; nth (S k) s 0].
Proof.
  revert k. induction s as [| x s IH]; intros k Hk; simpl in Hk; [lia |].
  destruct k as [| k].
  - destruct s as [| y s]; [simpl in Hk; lia | reflexivity].
  - simpl skipn. rewrite IH by lia. reflexivity.
Qed.

Lemma Qfloor_unique (z : Z) (x : Q) :
  inject_Z z <= x -> x < inject_Z z + 1 -> Qfloor x = z.
Proof.
  intros Hlo Hhi.
  pose proof (Qfloor_le x) as H1. pose proof (Qlt_floor x) as H2.
  assert (Ha : (Qfloor x < z + 1)%Z).
  { rewrite Zlt_Qlt, inject_Z_plus. change (inject_Z 1) with 1. lra. }
  assert (Hb : (z < Qfloor x + 1)%Z).
  { rewrite Zlt_Qlt. lra. }
  lia.
Qed.

Lemma np_median_is_percentile_50 (a : list Q) :
  a <> [] -> np_median a == linear_percentile a 50.
Proof.
  intro Ha. unfold np_median, linear_percentile.
  pose proof (np_sort_nonempty Ha) as Hne.
  set (s := np_sort a) in *.
  pose proof (len_pos Hne) as Hn. unfold len in *.
  destruct (Nat.even (List.length s)) eqn:Hev.
  - apply Nat.even_spec in Hev. destruct Hev as [k Hk].
    assert (Hk1 : (1 <= k)%nat) by lia.
    replace (List.length s / 2)%nat with k
      by (rewrite Hk, Nat.mul_comm, Nat.div_mul; lia).
    rewrite firstn_two_skipn by lia. rewrite np_mean_two.
    replace (S (k - 1)) with k by lia.
    assert (Hv : inject_Z (Z.of_nat (List.length s) - 1) * (50 / 100)
                 == inject_Z (Z.of_nat k - 1) + (1 # 2)).
    { rewrite Hk, Nat2Z.inj_mul. unfold Zminus. rewrite !inject_Z_plus, inject_Z_mult.
      change (inject_Z (Z.of_nat 2)) with 2. change (inject_Z (- (1))) with (- (1)).
      field. }
    assert (Hfl : Qfloor (inject_Z (Z.of_nat k - 1) + (1 # 2)) = (Z.of_nat k - 1)%Z)
      by (apply Qfloor_unique; lra).
    assert (Hk0 : 0 <= inject_Z (Z.of_nat k - 1)) by (rewrite <- (Zle_Qle 0); lia).
    assert (Hlt : inject_Z (Z.of_nat k - 1) + (1 # 2)
                  < inject_Z (Z.of_nat (List.length s) - 1)).
    { rewrite Hk, Nat2Z.inj_mul. unfold Zminus. rewrite !inject_Z_plus, inject_Z_mult.
      change (inject_Z (Z.of_nat 2)) with 2. change (inject_Z (- (1))) with (- (1)).
      assert (1 <= inject_Z (Z.of_nat k)) by (rewrite <- (Zle_Qle 1); lia). lra. }
    assert (Hv0 : 0 <= inject_Z (Z.of_nat (List.length s) - 1) * (50 / 100)) by lra.
    assert (Hv1 : inject_Z (Z.of_nat (List.length s) - 1) * (50 / 100)
                  < inject_Z (len s - 1)) by (unfold len; lra).
    rewrite (quantile_middle s Hv0 Hv1).
    rewrite (Qfloor_comp _ _ Hv), Hfl, Hv.
    replace (Z.to_nat (Z.of_nat k - 1)) with (k - 1)%nat by lia.
    replace (S (k - 1)) with k by lia.
    field.
  - assert (Hodd : Nat.odd (List.length s) = true)
      by (rewrite <- Nat.negb_even, Hev; reflexivity).
    apply Nat.odd_spec in Hodd. destruct Hodd as [k Hk].
    replace (List.length s / 2)%nat with k
      by (rewrite Hk, Nat.add_comm, Nat.mul_comm, Nat.div_add; simpl; lia).
    rewrite firstn_one_skipn by lia. rewrite np_mean_one.
    assert (Hv : inject_Z (Z.of_nat (List.length s) - 1) * (50 / 100)
                 == inject_Z (Z.of_nat k)).
    { rewrite Hk. replace (Z.of_nat (2 * k + 1) - 1)%Z with (2 * Z.of_nat k)%Z by lia.
      rewrite inject_Z_mult. change (inject_Z 2) with 2. field. }
    assert (Hk0 : 0 <= inject_Z (Z.of_nat k)) by (rewrite <- (Zle_Qle 0); lia).
    destruct k as [| k].
    + assert (Hv1 : inject_Z (len s - 1)
                    <= inject_Z (Z.of_nat (List.length s) - 1) * (50 / 100)).
      { rewrite Hv. unfold len. rewrite Hk. simpl. lra. }
      rewrite (quantile_above Hne Hv1), Hk. reflexivity.
    + assert (Hlt : inject_Z (Z.of_nat (S k)) < inject_Z (Z.of_nat (List.length s) - 1)).
      { rewrite <- Zlt_Qlt. lia. }
      assert (Hv0 : 0 <= inject_Z (Z.of_nat (List.length s) - 1) * (50 / 100)) by lra.
      assert (Hv1 : inject_Z (Z.of_nat (List.length s) - 1) * (50 / 100)
                    < inject_Z (len s - 1)) by (unfold len; lra).
      rewrite (quantile_middle s Hv0 Hv1).
      rewrite (Qfloor_comp _ _ Hv), Qfloor_Z, Nat2Z.id, Hv. ring.
Qed.


(** ** Summary statistics *)

Lemma compute_summary_statistics_nonempty
    (np_sqrt : Q -> Q) (outcomes : list Q) (opps : list Opportunity.t) :
  outcomes <> [] ->
  exists lo hi,
    np_min outcomes = inr lo /\ np_max outcomes = inr hi /\
    compute_summary_statistics np_sqrt outcomes opps =
    inr (SummaryStatistics.make
           (np_mean outcomes) (np_median outcomes) (np_std np_sqrt outcomes)
           (linear_percentile outcomes 10) (linear_percentile outcomes 25)
           (linear_percentile outcomes 75) (linear_percentile outcomes 90)
           lo hi
           (py_round (py_sum (map Opportunity.amount opps)) 2)
           (py_round
              (py_sum (map (fun o => float_mul (Opportunity.amount o)
                                               (Opportunity.probability o))
                           opps)) 2)).
Proof.
  intro Hne. destruct outcomes as [| x r]; [congruence |].
  eexists; eexists. split; [reflexivity | split; reflexivity].
Qed.

(** C8. On a non-empty outcome distribution the record is built and its
    percentile fields are ordered: p10 <= p25 <= median <= p75 <= p90. *)
Theorem percentiles_non_decreasing :
  forall (np_sqrt : Q -> Q) (outcomes : list Q) (opps : list Opportunity.t),
    outcomes <> [] ->
    exists s,
      compute_summary_statistics np_sqrt outcomes opps = inr s /\
      SummaryStatistics.p10 s <= SummaryStatistics.p25 s /\
      SummaryStatistics.p25 s <= SummaryStatistics.median s /\
      SummaryStatistics.median s <= SummaryStatistics.p75 s /\
      SummaryStatistics.p75 s <= SummaryStatistics.p90 s.
Proof.
  intros np_sqrt outcomes opps Hne.
  destruct (compute_summary_statistics_nonempty np_sqrt opps Hne)
    as (lo & hi & _ & _ & Hs).
  eexists. split; [exact Hs |]. simpl.
  rewrite (np_median_is_percentile_50 Hne).
  repeat split; apply np_percentile_mono; try exact Hne; lra.
Qed.


Lemma np_sum_zero (l : list Q) : Forall (fun x => x == 0) l -> np_sum l == 0.
Proof.
  induction 1 as [| x l Hx _ IH]; [reflexivity |].
  rewrite np_sum_cons, Hx, IH. ring.
Qed.



Lemma Forall_slice {A} (P : A -> Prop) (l : list A) (i k : nat) :
  Forall P l -> Forall P (firstn k (skipn i l)).
Proof.
  intro H. revert i k. induction H as [| x l Hx Hl IH]; intros i k.
  - destruct i, k; constructor.
  - destruct i as [| i]; [| apply IH].
    destruct k as [| k]; simpl; constructor; [exact Hx |].
    apply (IH 0%nat k).
Qed.

Lemma all_zero_Qeq (l : list Q) : all_zero l -> Forall (fun x => x == 0) l.
Proof. apply Forall_impl. intros x ->. reflexivity. Qed.

Lemma all_zero_nth (l : list Q) (i : nat) : all_zero l -> nth i l 0 = 0.
Proof.
  intro H. destruct (Nat.lt_ge_cases i (List.length l)) as [Hi | Hi].
  - unfold all_zero in H. rewrite Forall_forall in H. apply H, nth_In, Hi.
  - apply nth_overflow, Hi.
Qed.

Lemma all_zero_sort (l : list Q) : all_zero l -> all_zero (np_sort l).
Proof.
  intro H. unfold all_zero. eapply Permutation_Forall; [| exact H].
  apply QSort.Permuted_sort.
Qed.

Lemma np_mean_zero (l : list Q) : all_zero l -> np_mean l == 0.
Proof.
  intro H. unfold np_mean. rewrite (np_sum_zero (all_zero_Qeq H)).
  unfold Qdiv. ring.
Qed.

Lemma quantile_linear_zero (s : list Q) (v : Q) : all_zero s -> quantile_linear s v == 0.
Proof.
  intro H. unfold quantile_linear, item. rewrite lerp_eq, !(all_zero_nth _ H). ring.
Qed.

Lemma np_percentile_zero (l : list Q) (q : Q) : all_zero l -> linear_percentile l q == 0.
Proof. intro H. apply quantile_linear_zero, all_zero_sort, H. Qed.

Lemma np_median_zero (l : list Q) : all_zero l -> np_median l == 0.
Proof.
  intro H. unfold np_median.
  pose proof (all_zero_sort H) as Hs.
  destruct (Nat.even (List.length (np_sort l))); apply np_mean_zero;
    apply Forall_slice, Hs.
Qed.


Lemma fold_left_zero (f : Q -> Q -> Q) (l : list Q) :
  f 0 0 = 0 -> all_zero l -> fold_left f l 0 = 0.
Proof.
  intros Hf H. induction H as [| y r -> _ IH]; simpl; [reflexivity |].
  rewrite Hf. exact IH.
Qed.

Lemma np_min_zero (x : Q) (l : list Q) : all_zero (x :: l) -> np_min (x :: l) = inr 0.
Proof.
  intro H. inversion H as [| y r Hx Hr]; subst. simpl. unfold ok. f_equal.
  apply fold_left_zero; [reflexivity | exact Hr].
Qed.

Lemma np_max_zero (x : Q) (l : list Q) : all_zero (x :: l) -> np_max (x :: l) = inr 0.
Proof.
  intro H. inversion H as [| y r Hx Hr]; subst. simpl. unfold ok. f_equal.
  apply fold_left_zero; [reflexivity | exact Hr].
Qed.

Lemma run_monte_carlo_empty_zeros (n : Z) (w w' : world) (outcomes : list Q) :
  run_monte_carlo [] n w = inr (outcomes, w') -> all_zero outcomes.
Proof.
  unfold run_monte_carlo, lift, np_zeros.
  destruct (n <? 0)%Z; [discriminate |].
  intro H. injection H as <- _. unfold all_zero.
  apply Forall_forall. intros x Hx. apply repeat_spec in Hx. exact Hx.
Qed.

Lemma py_round_zero (x : Q) (n : nat) : x == 0 -> py_round x n == 0.
Proof.
  intro H. unfold py_round.
  assert (Hr : round_half_even (x * inject_Z (pow10 n)) = 0%Z).
  { assert (Hx : x * inject_Z (pow10 n) == 0) by (rewrite H; ring).
    unfold round_half_even. rewrite (Qfloor_comp _ _ Hx).
    change (Qfloor 0) with 0%Z.
    assert (Hc : Qcompare (x * inject_Z (pow10 n) - inject_Z 0) (1 # 2) = Lt).
    { apply Qlt_alt. rewrite Hx. reflexivity. }
    rewrite Hc. reflexivity. }
  rewrite Hr. unfold Qdiv. change (inject_Z 0) with 0. ring.
Qed.


(** ** Histogram *)

Lemma Qmin_b_le_l (x y : Q) : Qmin_b x y <= x.
Proof.
  unfold Qmin_b. destruct (Qle_bool x y) eqn:E; [apply Qle_refl |].
  destruct (Qlt_le_dec x y) as [H | H]; [| exact H].
  apply Qlt_le_weak, Qle_bool_iff in H. congruence.
Qed.

Lemma Qmin_b_le_r (x y : Q) : Qmin_b x y <= y.
Proof.
  unfold Qmin_b. destruct (Qle_bool x y) eqn:E; [apply Qle_bool_iff, E | apply Qle_refl].
Qed.

Lemma Qmax_b_ge_l (x y : Q) : x <= Qmax_b x y.
Proof.
  unfold Qmax_b. destruct (Qle_bool x y) eqn:E; [apply Qle_bool_iff, E | apply Qle_refl].
Qed.

Lemma Qmax_b_ge_r (x y : Q) : y <= Qmax_b x y.
Proof.
  unfold Qmax_b. destruct (Qle_bool x y) eqn:E; [apply Qle_refl |].
  destruct (Qlt_le_dec x y) as [H | H]; [| exact H].
  apply Qlt_le_weak, Qle_bool_iff in H. congruence.
Qed.

Lemma fold_min_spec (l : list Q) (a : Q) :
  (fold_left Qmin_b l a = a \/ In (fold_left Qmin_b l a) l) /\
  fold_left Qmin_b l a <= a /\
  forall x, In x l -> fold_left Qmin_b l a <= x.
Proof.
  revert a. induction l as [| y l IH]; intro a; simpl.
  - split; [left; reflexivity | split; [apply Qle_refl | tauto]].
  - destruct (IH (Qmin_b a y)) as (Hin & Hle & Hall).
    split; [| split].
    + destruct Hin as [Heq | Hin]; [| right; right; exact Hin].
      rewrite Heq. unfold Qmin_b. destruct (Qle_bool a y); auto.
    + eapply Qle_trans; [exact Hle | apply Qmin_b_le_l].
    + intros x [<- | Hx]; [| apply Hall, Hx].
      eapply Qle_trans; [exact Hle | apply Qmin_b_le_r].
Qed.

Lemma fold_max_spec (l : list Q) (a : Q) :
  (fold_left Qmax_b l a = a \/ In (fold_left Qmax_b l a) l) /\
  a <= fold_left Qmax_b l a /\
  forall x, In x l -> x <= fold_left Qmax_b l a.
Proof.
  revert a. induction l as [| y l IH]; intro a; simpl.
  - split; [left; reflexivity | split; [apply Qle_refl | tauto]].
  - destruct (IH (Qmax_b a y)) as (Hin & Hle & Hall).
    split; [| split].
    + destruct Hin as [Heq | Hin]; [| right; right; exact Hin].
      rewrite Heq. unfold Qmax_b. destruct (Qle_bool a y); auto.
    + eapply Qle_trans; [apply Qmax_b_ge_l | exact Hle].
    + intros x [<- | Hx]; [| apply Hall, Hx].
      eapply Qle_trans; [apply Qmax_b_ge_r | exact Hle].
Qed.

Lemma np_min_spec (a : list Q) (lo : Q) :
  np_min a = inr lo -> In lo a /\ forall x, In x a -> lo <= x.
Proof.
  destruct a as [| y l]; [discriminate |]. simpl. intro H. injection H as <-.
  destruct (fold_min_spec l y) as (Hin & Hle & Hall).
  split.
  - destruct Hin as [-> | Hin]; [left; reflexivity | right; exact Hin].
  - intros x [<- | Hx]; [exact Hle | apply Hall, Hx].
Qed.

Lemma np_max_spec (a : list Q) (hi : Q) :
  np_max a = inr hi -> In hi a /\ forall x, In x a -> x <= hi.
Proof.
  destruct a as [| y l]; [discriminate |]. simpl. intro H. injection H as <-.
  destruct (fold_max_spec l y) as (Hin & Hle & Hall).
  split.
  - destruct Hin as [-> | Hin]; [left; reflexivity | right; exact Hin].
  - intros x [<- | Hx]; [exact Hle | apply Hall, Hx].
Qed.

(** The range binned over is never degenerate and covers the data. *)
Lemma get_outer_edges_spec (a : list Q) :
  fst (get_outer_edges a) < snd (get_outer_edges a) /\
  (forall x, In x a -> fst (get_outer_edges a) <= x /\ x <= snd (get_outer_edges a)) /\
  (a = [] -> get_outer_edges a = (0, 1)) /\
  (forall lo hi, np_min a = inr lo -> np_max a = inr hi ->
     (lo < hi -> get_outer_edges a = (lo, hi)) /\
     (lo == hi -> get_outer_edges a = (lo - (1 # 2), hi + (1 # 2)))).
Proof.
  destruct a as [| y l].
  - simpl. split; [reflexivity |]. split; [tauto |]. split; [reflexivity |]. discriminate.
  - unfold get_outer_edges.
    destruct (np_min (y :: l)) as [e | lo] eqn:Hmin; [discriminate |].
    destruct (np_max (y :: l)) as [e | hi] eqn:Hmax; [discriminate |].
    destruct (np_min_spec _ Hmin) as [Hlo_in Hlo].
    destruct (np_max_spec _ Hmax) as [Hhi_in Hhi].
    pose proof (Hlo _ Hhi_in) as Hlh.
    destruct (Qeq_bool lo hi) eqn:E.
    + apply Qeq_bool_iff in E. simpl fst. simpl snd.
      split; [lra |]. split.
      * intros x Hx. pose proof (Hlo x Hx). pose proof (Hhi x Hx). lra.
      * split; [discriminate |].
        intros lo' hi' H1 H2. injection H1 as <-. injection H2 as <-.
        split; [intro; lra | reflexivity].
    + assert (Hne : ~ lo == hi).
      { intro H. apply Qeq_bool_iff in H. congruence. }
      simpl fst. simpl snd.
      split; [lra |]. split.
      * intros x Hx. split; [apply Hlo, Hx | apply Hhi, Hx].
      * split; [discriminate |].
        intros lo' hi' H1 H2. injection H1 as <-. injection H2 as <-.
        split; [reflexivity | intro; contradiction].
Qed.

Lemma nth_linspace (first last : Q) (nb i : nat) :
  (i <= nb)%nat ->
  nth i (np_linspace first last (nb + 1)) 0 = bin_edge first last nb i.
Proof.
  intro Hi. unfold np_linspace. rewrite nth_map_seq by lia.
  rewrite Nat.add_sub. reflexivity.
Qed.

Lemma in_bin_in_bucket (first last : Q) (nb i : nat) (x : Q) :
  (i < nb)%nat ->
  in_bin (np_linspace first last (nb + 1)) nb i x = in_bucket first last nb i x.
Proof.
  intro Hi. unfold in_bin, in_bucket. rewrite !nth_linspace by lia. reflexivity.
Qed.


Lemma bin_edge_succ (first last : Q) (nb i : nat) :
  bin_edge first last nb (S i) ==
  bin_edge first last nb i + (last - first) / inject_Z (Z.of_nat nb).
Proof.
  unfold bin_edge. rewrite Nat2Z.inj_succ. unfold Z.succ.
  rewrite inject_Z_plus. change (inject_Z 1) with 1. ring.
Qed.

Lemma bin_edge_first (first last : Q) (nb : nat) : bin_edge first last nb 0 == first.
Proof. unfold bin_edge. simpl. ring. Qed.

Lemma bin_edge_last (first last : Q) (nb : nat) :
  (0 < nb)%nat -> bin_edge first last nb nb == last.
Proof.
  intro Hnb. unfold bin_edge. field.
  intro H. apply (Qlt_not_eq 0 (inject_Z (Z.of_nat nb))); [| symmetry; exact H].
  rewrite <- (Zlt_Qlt 0). lia.
Qed.

Lemma bin_width_pos (first last : Q) (nb : nat) :
  first < last -> (0 < nb)%nat -> 0 < (last - first) / inject_Z (Z.of_nat nb).
Proof.
  intros Hfl Hnb. apply Qlt_shift_div_l.
  - rewrite <- (Zlt_Qlt 0). lia.
  - lra.
Qed.

Lemma count_if_cons (p : Q -> bool) (x : Q) (l : list Q) :
  count_if p (x :: l) = (b2z (p x) + count_if p l)%Z.
Proof.
  unfold count_if, len. simpl. destruct (p x); simpl List.length; unfold b2z; lia.
Qed.

Lemma count_if_mono (p q : Q -> bool) (l : list Q) :
  (forall x, p x = true -> q x = true) -> (count_if p l <= count_if q l)%Z.
Proof.
  intro H. induction l as [| x l IH]; [reflexivity |].
  rewrite !count_if_cons. specialize (H x).
  destruct (p x) eqn:E; [rewrite (H eq_refl) |]; destruct (q x); unfold b2z; lia.
Qed.

Lemma sumZ_count_if_cons (p : nat -> Q -> bool) (x : Q) (l : list Q) (idx : list nat) :
  sumZ (map (fun i => count_if (p i) (x :: l)) idx) =
  (sumZ (map (fun i => b2z (p i x)) idx) + sumZ (map (fun i => count_if (p i) l) idx))%Z.
Proof.
  induction idx as [| i idx IH]; simpl; [reflexivity |].
  rewrite IH, count_if_cons. lia.
Qed.

Lemma sumZ_zero {A} (idx : list A) : sumZ (map (fun _ => 0%Z) idx) = 0%Z.
Proof. induction idx as [| i idx IH]; simpl; [reflexivity | exact IH]. Qed.

Lemma sumZ_app (l1 l2 : list Z) : sumZ (l1 ++ l2) = (sumZ l1 + sumZ l2)%Z.
Proof. induction l1 as [| z l1 IH]; simpl; [reflexivity | rewrite IH; lia]. Qed.

(** Among the half-open buckets before bucket [k], a value at or above the
    first edge is in exactly one if it lies below edge [k], in none
    otherwise. *)
Lemma buckets_prefix (first last : Q) (nb k : nat) (x : Q) :
  first < last -> (k < nb)%nat -> first <= x ->
  sumZ (map (fun i => b2z (in_bucket first last nb i x)) (seq 0 k)) =
  b2z (Qlt_bool x (bin_edge first last nb k)).
Proof.
  intros Hfl Hk Hx. induction k as [| k IH].
  - simpl. destruct (Qlt_bool x (bin_edge first last nb 0)) eqn:E; [| reflexivity].
    apply Qlt_bool_iff in E. rewrite bin_edge_first in E. lra.
  - rewrite seq_S, map_app, sumZ_app, IH by lia. simpl.
    unfold in_bucket.
    replace (S k =? nb)%nat with false by (symmetry; apply Nat.eqb_neq; lia).
    pose proof (bin_edge_succ first last nb k) as Hs.
    pose proof (@bin_width_pos first last nb Hfl ltac:(lia)) as Hw.
    destruct (Qlt_bool x (bin_edge first last nb k)) eqn:E1;
      destruct (Qle_bool (bin_edge first last nb k) x) eqn:E2;
      destruct (Qlt_bool x (bin_edge first last nb (S k))) eqn:E3;
      try reflexivity; exfalso;
      try (apply Qlt_bool_iff in E1); try (apply Qle_bool_iff in E2);
      try (apply Qlt_bool_iff in E3);
      try (assert (~ x < bin_edge first last nb k)
             by (intro H'; apply Qlt_bool_iff in H'; congruence));
      try (assert (~ bin_edge first last nb k <= x)
             by (intro H'; apply Qle_bool_iff in H'; congruence));
      try (assert (~ x < bin_edge first last nb (S k))
             by (intro H'; apply Qlt_bool_iff in H'; congruence));
      lra.
Qed.

(** A value of the range lies in exactly one bucket. *)
Lemma buckets_partition (first last : Q) (nb : nat) (x : Q) :
  first < last -> (0 < nb)%nat -> first <= x -> x <= last ->
  sumZ (map (fun i => b2z (in_bucket first last nb i x)) (seq 0 nb)) = 1%Z.
Proof.
  intros Hfl Hnb Hlo Hhi. destruct nb as [| k]; [lia |].
  rewrite seq_S, map_app, sumZ_app, buckets_prefix by (assumption || lia). simpl.
  unfold in_bucket. rewrite Nat.eqb_refl.
  pose proof (@bin_edge_last first last (S k) ltac:(lia)) as Hl.
  assert (Hle : Qle_bool x (bin_edge first last (S k) (S k)) = true)
    by (apply Qle_bool_iff; lra).
  rewrite Hle, andb_true_r. unfold Qlt_bool.
  destruct (Qle_bool (bin_edge first last (S k) k) x); reflexivity.
Qed.

Lemma counts_sum (first last : Q) (nb : nat) (l : list Q) :
  first < last -> (0 < nb)%nat ->
  (forall x, In x l -> first <= x /\ x <= last) ->
  sumZ (map (fun i => count_if (in_bucket first last nb i) l) (seq 0 nb)) = len l.
Proof.
  intros Hfl Hnb. induction l as [| x l IH]; intro Hin.
  - unfold count_if. simpl filter. apply sumZ_zero.
  - rewrite sumZ_count_if_cons, IH by (intros y Hy; apply Hin; right; exact Hy).
    destruct (Hin x (or_introl eq_refl)) as [Hlo Hhi].
    rewrite buckets_partition by assumption.
    unfold len. simpl List.length. lia.
Qed.

Lemma count_if_ext (p q : Q -> bool) (l : list Q) :
  (forall x, p x = q x) -> count_if p l = count_if q l.
Proof. intro H. unfold count_if. f_equal. apply filter_ext, H. Qed.

Lemma compute_histogram_buckets (outcomes : list Q) (num_buckets : Z) :
  (1 <= num_buckets)%Z ->
  let first := fst (get_outer_edges outcomes) in
  let last := snd (get_outer_edges outcomes) in
  let nb := Z.to_nat num_buckets in
  compute_histogram outcomes num_buckets =
  inr (map (fun i =>
              let count := count_if (in_bucket first last nb i) outcomes in
              HistogramBucket.make
                (py_round (bin_edge first last nb i) 2)
                (py_round (bin_edge first last nb (S i)) 2)
                (fmt (bin_edge first last nb i) ++ " – " ++
                 fmt (bin_edge first last nb (S i)))
                count
                (if (0 <? len outcomes)%Z
                 then py_round (fl (inject_Z count / inject_Z (len outcomes))) 4
                 else 0))
           (seq 0 nb)).
Proof.
  intros Hnb first last nb.
  unfold compute_histogram, np_histogram, rbind.
  destruct (num_buckets <? 1)%Z eqn:E; [apply Z.ltb_lt in E; lia |].
  subst first last. destruct (get_outer_edges outcomes) as [first last].
  simpl fst. simpl snd. fold nb. unfold ok. f_equal.
  rewrite length_map, length_seq.
  apply map_ext_in. intros i Hi. apply in_seq in Hi. cbv zeta.
  replace (i + 1)%nat with (S i) by lia. rewrite !nth_linspace by lia.
  rewrite nth_map_seq by lia. simpl Nat.add.
  rewrite (count_if_ext _ (in_bucket first last nb i)); [reflexivity |].
  intro x. apply in_bin_in_bucket. lia.
Qed.

Lemma nth_error_map_seq {A} (f : nat -> A) (n i : nat) (b : A) :
  nth_error (map f (seq 0 n)) i = Some b -> (i < n)%nat /\ b = f i.
Proof.
  intro H.
  assert (Hi : (i < n)%nat).
  { assert (Hs : nth_error (map f (seq 0 n)) i <> None) by congruence.
    apply nth_error_Some in Hs. rewrite length_map, length_seq in Hs. exact Hs. }
  split; [exact Hi |].
  rewrite (nth_error_nth' _ b) in H by (rewrite length_map, length_seq; exact Hi).
  injection H as <-. rewrite nth_map_seq by exact Hi. reflexivity.
Qed.





(** ** Orchestrator *)

Lemma filter_horizon_returns opps horizon w :
  horizon_representable w horizon ->
  exists included excluded,
    filter_opportunities_by_horizon opps horizon w = inr ((included, excluded), w).
Proof.
  destruct horizon as [days |]; intro H.
  - eexists; eexists. apply (filter_horizon_present opps H).
  - eexists; eexists. apply filter_horizon_absent.
Qed.

Lemma run_full_simulation_metadata np_sqrt opps n horizon targets w r w' :
  run_full_simulation np_sqrt opps n horizon targets w = inr (r, w') ->
  exists included excluded w1 w2,
    filter_opportunities_by_horizon opps horizon w1 = inr ((included, excluded), w2) /\
    SimulationMetadata.opportunities_included (SimulationResponse.metadata r) = len included /\
    SimulationMetadata.opportunities_filtered_out (SimulationResponse.metadata r) = excluded /\
    SimulationMetadata.num_simulations (SimulationResponse.metadata r) = n.
Proof.
  unfold run_full_simulation, bind.
  destruct (perf_counter w) as [e | [start_time w1]]; [discriminate |].
  destruct (filter_opportunities_by_horizon opps horizon w1)
    as [e | [[included excluded] w2]] eqn:Hf; [discriminate |].
  destruct (run_monte_carlo included n w2) as [e | [outcomes w3]]; [discriminate |].
  unfold lift.
  destruct (compute_summary_statistics np_sqrt outcomes included) as [e | stats];
    [discriminate |].
  destruct (compute_target_analysis outcomes _ n) as [e | analysis]; [discriminate |].
  destruct (compute_histogram outcomes 12) as [e | histogram]; [discriminate |].
  destruct (perf_counter w3) as [e | [end_time w4]]; [discriminate |].
  destruct (datetime_now_utc w4) as [e | [timestamp w5]]; [discriminate |].
  unfold ret. intro H. injection H as <- <-.
  exists included, excluded, w1, w2. cbn. auto.
Qed.

Lemma run_full_simulation_returns np_sqrt opps n horizon targets w :
  (0 < n)%Z ->
  horizon_representable w horizon ->
  exists r w',
    run_full_simulation np_sqrt opps n horizon targets w = inr (r, w') /\
    map TargetAnalysis.target
        (SimulationResponse.target_analysis r)
      = map (fun t => py_round t 2) (sorted (effective_targets targets)) /\
    SimulationMetadata.num_simulations (SimulationResponse.metadata r) = n.
Proof.
  intros Hn Hh.
  unfold run_full_simulation, bind.
  destruct (perf_counter w) as [e | [start_time w1]] eqn:Hp; [discriminate |].
  assert (Hw1 : today w1 = today w).
  { unfold perf_counter in Hp. injection Hp as _ <-. reflexivity. }
  assert (Hh1 : horizon_representable w1 horizon).
  { destruct horizon; [| exact I]. unfold horizon_representable, window_representable in *.
    rewrite Hw1. exact Hh. }
  destruct (@filter_horizon_returns opps horizon w1 Hh1) as (included & excluded & ->).
  destruct (@run_monte_carlo_spec included n w1 ltac:(lia))
    as (outcomes & w2 & -> & Hlen & _).
  assert (Hne : outcomes <> []).
  { intro He. rewrite He in Hlen. simpl in Hlen. lia. }
  destruct (compute_summary_statistics_nonempty np_sqrt included Hne)
    as (lo & hi & _ & _ & Hs).
  unfold lift at 1. rewrite Hs.
  unfold lift at 1. fold (effective_targets targets).
  rewrite compute_target_analysis_nonzero by lia.
  unfold lift at 1. rewrite compute_histogram_buckets by lia.
  eexists; eexists. split; [reflexivity |].
  split; [| reflexivity].
  cbn [SimulationResponse.target_analysis]. rewrite map_map. reflexivity.
Qed.

Lemma run_full_simulation_no_trials np_sqrt opps horizon targets w :
  horizon_representable w horizon ->
  run_full_simulation np_sqrt opps 0 horizon targets w = inl IndexError.
Proof.
  intros Hh.
  unfold run_full_simulation, bind.
  destruct (perf_counter w) as [e | [start_time w1]] eqn:Hp; [discriminate |].
  assert (Hw1 : today w1 = today w).
  { unfold perf_counter in Hp. injection Hp as _ <-. reflexivity. }
  assert (Hh1 : horizon_representable w1 horizon).
  { destruct horizon; [| exact I]. unfold horizon_representable, window_representable in *.
    rewrite Hw1. exact Hh. }
  destruct (@filter_horizon_returns opps horizon w1 Hh1) as (included & excluded & ->).
  destruct (@run_monte_carlo_spec included 0 w1 ltac:(lia))
    as (outcomes & w2 & -> & Hlen & _).
  destruct outcomes as [| x r]; [reflexivity | simpl in Hlen; lia].
Qed.

Lemma run_full_simulation_negative_trials np_sqrt opps n horizon targets w :
  (n < 0)%Z ->
  horizon_representable w horizon ->
  run_full_simulation np_sqrt opps n horizon targets w = inl ValueError.
Proof.
  intros Hn Hh.
  unfold run_full_simulation, bind.
  destruct (perf_counter w) as [e | [start_time w1]] eqn:Hp; [discriminate |].
  assert (Hw1 : today w1 = today w).
  { unfold perf_counter in Hp. injection Hp as _ <-. reflexivity. }
  assert (Hh1 : horizon_representable w1 horizon).
  { destruct horizon; [| exact I]. unfold horizon_representable, window_representable in *.
    rewrite Hw1. exact Hh. }
  destruct (@filter_horizon_returns opps horizon w1 Hh1) as (included & excluded & ->).
  apply Z.ltb_lt in Hn.
  unfold run_monte_carlo, lift, np_zeros, bind, np_random_uniform, raise.
  destruct included; rewrite Hn; reflexivity.
Qed.

(** C9 (as the code has it). The orchestrator validates nothing itself.
    With a positive trial count it returns a result whatever the sign of
    the targets, each target being analysed as given.  With a trial count
    of zero it returns no result: the outcome array is empty and
    [np.percentile] raises [IndexError] on it, which the endpoint would
    answer with status 500.  With a negative trial count it returns no
    result either: NumPy refuses the negative dimension with [ValueError],
    which the endpoint would answer with status 422. *)
Theorem orchestrator_performs_no_validation :
  forall (np_sqrt : Q -> Q) (opps : list Opportunity.t) (horizon : option Z)
         (targets : option (list Q)) (w : world),
    horizon_representable w horizon ->
    (forall n, (0 < n)%Z ->
       exists r w',
         run_full_simulation np_sqrt opps n horizon targets w = inr (r, w') /\
         map TargetAnalysis.target (SimulationResponse.target_analysis r)
           = map (fun t => py_round t 2) (sorted (effective_targets targets))) /\
    (run_full_simulation np_sqrt opps 0 horizon targets w = inl IndexError /\
     simulate np_sqrt (SimulationRequest.make opps 0 horizon targets) w
       = HTTPError 500) /\
    (forall n, (n < 0)%Z ->
       run_full_simulation np_sqrt opps n horizon targets w = inl ValueError /\
       simulate np_sqrt (SimulationRequest.make opps n horizon targets) w
         = HTTPError 422).
Proof.
  intros np_sqrt opps horizon targets w Hh. split; [| split].
  - intros n Hn.
    destruct (@run_full_simulation_returns np_sqrt opps n horizon targets w Hn Hh)
      as (r & w' & Hr & Ht & _).
    exists r, w'. auto.
  - pose proof (@run_full_simulation_no_trials np_sqrt opps horizon targets w Hh) as H.
    split; [exact H |]. unfold simulate. cbn [SimulationRequest.opportunities
      SimulationRequest.num_simulations SimulationRequest.time_horizon_days
      SimulationRequest.revenue_targets]. rewrite H. reflexivity.
  - intros n Hn.
    pose proof (@run_full_simulation_negative_trials np_sqrt opps n horizon targets w
                  Hn Hh) as H.
    split; [exact H |]. unfold simulate. cbn [SimulationRequest.opportunities
      SimulationRequest.num_simulations SimulationRequest.time_horizon_days
      SimulationRequest.revenue_targets]. rewrite H. reflexivity.
Qed.

(** C10. The horizon filter returns an order-preserving subsequence of its
    input and an excluded count equal to the input length minus the
    included length (and it does return when the horizon is absent or its
    window representable); so whenever the orchestrator assembles a
    result, which it does for a positive trial count, the included and
    filtered-out counts of its metadata add up to the number of events
    supplied. *)
Theorem filter_counts_partition_input :
  forall (opps : list Opportunity.t) (horizon : option Z) (w : world),
    (forall included excluded w',
        filter_opportunities_by_horizon opps horizon w
          = inr ((included, excluded), w') ->
        subsequence included opps /\
        excluded = (len opps - len included)%Z) /\
    (forall np_sqrt n targets r w',
        run_full_simulation np_sqrt opps n horizon targets w = inr (r, w') ->
        (SimulationMetadata.opportunities_included (SimulationResponse.metadata r) +
         SimulationMetadata.opportunities_filtered_out (SimulationResponse.metadata r)
         = len opps)%Z) /\
    (horizon_representable w horizon ->
       (exists included excluded,
           filter_opportunities_by_horizon opps horizon w
             = inr ((included, excluded), w)) /\
       (forall np_sqrt n targets,
           (0 < n)%Z ->
           exists r w',
             run_full_simulation np_sqrt opps n horizon targets w = inr (r, w'))).
Proof.
  intros opps horizon w. split; [| split].
  - intros included excluded w' H.
    destruct (filter_horizon_shape _ _ _ H) as (Hs & He & _). auto.
  - intros np_sqrt n targets r w' H.
    destruct (run_full_simulation_metadata _ _ _ _ _ _ H)
      as (included & excluded & w1 & w2 & Hf & Hi & He & _).
    destruct (filter_horizon_shape _ _ _ Hf) as (_ & Hx & _).
    rewrite Hi, He, Hx. lia.
  - intro Hh. split; [apply (@filter_horizon_returns opps horizon w Hh) |].
    intros np_sqrt n targets Hn.
    destruct (@run_full_simulation_returns np_sqrt opps n horizon targets w Hn Hh)
      as (r & w' & Hr & _).
    exists r, w'. exact Hr.
Qed.

(** ** The model on concrete inputs *)

Example round_half_to_even :
  py_round (1 # 8) 2 == 12 # 100 /\ py_round (3 # 8) 2 == 38 # 100 /\
  py_round (- (1 # 2)) 0 == 0 /\ py_round (401 # 16) 2 == 2506 # 100 /\
  py_round (fl (5 # 1000)) 2 == 1 # 100.
Proof. repeat split. Qed.

Example floats_round_as_in_python :
  py_round (fl (5 # 4000)) 4 == 13 # 10000 /\
  format_f false 1 (float_mul (fl (7245 # 10000)) 100) = "72.5"%string /\
  py_round (float_mul (fl (1000005 # 100)) (fl (9 # 10))) 2 == 900005 # 100 /\
  py_sum [fl (1 # 10); fl (2 # 10)] == fl (3 # 10) + pow2 (-54) /\
  np_sum_f64 [fl (1 # 10); fl (2 # 10)] == fl (3 # 10) + pow2 (-54).
Proof. repeat split; vm_compute; reflexivity. Qed.

Example format_examples :
  format_f false 1 (fl (7245 # 100)) = "72.5"%string /\
  format_f false 1 (1 # 4) = "0.2"%string /\
  format_f true 0 (inject_Z 1234567) = "1,234,567"%string /\
  fmt (inject_Z 10000000) = "$10.0M"%string /\
  fmt (inject_Z 5000) = "$5K"%string /\
  fmt (- (1 # 2)) = "$-0"%string.
Proof. repeat split; vm_compute; reflexivity. Qed.

Example percentiles_of_four :
  linear_percentile [4; 0; 2; 1] 10 == 3 # 10 /\
  linear_percentile [4; 0; 2; 1] 25 == 3 # 4 /\
  np_median [4; 0; 2; 1] == 3 # 2 /\
  linear_percentile [4; 0; 2; 1] 75 == 5 # 2 /\
  linear_percentile [4; 0; 2; 1] 90 == 34 # 10.
Proof. repeat split. Qed.

Example std_is_not_sample_corrected :
  np_var [0; 2] 0 == 1 /\ population_variance [0; 2] == 1 /\
  sample_variance [0; 2] == 2.
Proof. repeat split. Qed.

Example horizon_of_45_days :
  filter_opportunities_by_horizon sample_opportunities (Some 45%Z) sample_world
  = inr ((firstn 1 sample_opportunities, 3%Z), sample_world).
Proof. reflexivity. Qed.

Example close_date_today_is_included :
  filter_opportunities_by_horizon
    [Opportunity.make "Today" 1 1 738886; Opportunity.make "Yesterday" 1 1 738885]
    (Some 30%Z) sample_world
  = inr (([Opportunity.make "Today" 1 1 738886], 1%Z), sample_world).
Proof. reflexivity. Qed.

Example horizon_beyond_last_date :
  filter_opportunities_by_horizon sample_opportunities (Some 3000000%Z) sample_world
  = inl OverflowError.
Proof. reflexivity. Qed.

Example certain_deal_always_won :
  exists outcomes w',
    run_monte_carlo certain_opportunity 5 sample_world = inr (outcomes, w') /\
    List.length outcomes = 5%nat /\
    Forall (fun x => x == inject_Z 1000000) outcomes /\
    drawn w' = 5%nat.
Proof.
  eexists; eexists. split; [vm_compute; reflexivity |].
  split; [reflexivity |]. split; [| reflexivity].
  repeat constructor.
Qed.

Example negative_trial_count :
  run_monte_carlo sample_opportunities (-1) sample_world = inl ValueError /\
  run_monte_carlo [] (-1) sample_world = inl ValueError.
Proof. split; reflexivity. Qed.

Example zero_trials_zero_division :
  compute_target_analysis [] [1] 0 = inl ZeroDivisionError /\
  compute_target_analysis [] [] 0 = inr [].
Proof. split; reflexivity. Qed.

(** ** The properties on the sample data *)


Lemma sample_opportunities_valid : Forall valid_event sample_opportunities.
Proof.
  unfold sample_opportunities, valid_event.
  repeat constructor; simpl; unfold Qle, Qlt; simpl; lia.
Defined.

Lemma run_monte_carlo_length_witness :
  (exists outcomes w',
      run_monte_carlo sample_opportunities 1000 sample_world = inr (outcomes, w') /\
      len outcomes = 1000%Z) /\
  run_monte_carlo [] 1000 sample_world = inr (repeat 0 (Z.to_nat 1000), sample_world).
Proof.
  apply (@run_monte_carlo_length sample_opportunities 1000 sample_world). lia.
Defined.

Lemma outcomes_within_pipeline_bounds_witness :
  exists outcomes w',
    run_monte_carlo_f64 sample_opportunities 1000 sample_world = inr (outcomes, w') /\
    len outcomes = 1000%Z /\
    Forall (fun x => 0 <= x /\ x <= all_won_outcome sample_opportunities) outcomes /\
    (Forall (fun o => pow2 (-1022) <= Opportunity.amount o) sample_opportunities ->
     Forall (fun x => x <= totalPipelineValue sample_opportunities
                          * (1 + pow2 (-53)) ^ len sample_opportunities)
            outcomes).
Proof.
  apply (@outcomes_within_pipeline_bounds sample_opportunities 1000 sample_world).
  - exact sample_opportunities_valid.
  - lia.
Defined.


Lemma filter_includes_iff_in_window_witness :
  exists included excluded,
    filter_opportunities_by_horizon sample_opportunities (Some 45%Z) sample_world
      = inr ((included, excluded), sample_world) /\
    (forall o, In o included <->
               In o sample_opportunities /\
               (today sample_world <= Opportunity.close_date o
                <= today sample_world + 45)%Z) /\
    (forall o, (Opportunity.close_date o < today sample_world)%Z -> ~ In o included).
Proof.
  apply (proj1 (filter_includes_iff_in_window sample_opportunities sample_world) 45%Z).
  unfold window_representable, MINORDINAL, MAXORDINAL. simpl. lia.
Defined.





Lemma percentiles_non_decreasing_witness :
  exists s,
    compute_summary_statistics sqrt_lower [0; 1; 2; 4] sample_opportunities = inr s /\
    SummaryStatistics.p10 s <= SummaryStatistics.p25 s /\
    SummaryStatistics.p25 s <= SummaryStatistics.median s /\
    SummaryStatistics.median s <= SummaryStatistics.p75 s /\
    SummaryStatistics.p75 s <= SummaryStatistics.p90 s.
Proof.
  apply (@percentiles_non_decreasing sqrt_lower [0; 1; 2; 4] sample_opportunities).
  discriminate.
Defined.

Lemma sample_horizon_representable : horizon_representable sample_world (Some 45%Z).
Proof.
  unfold horizon_representable, window_representable, MINORDINAL, MAXORDINAL.
  simpl. lia.
Defined.

Lemma orchestrator_performs_no_validation_witness :
  (exists r w',
      run_full_simulation sqrt_lower sample_opportunities 100 (Some 45%Z)
                          (Some [- (5)]) sample_world = inr (r, w') /\
      map TargetAnalysis.target (SimulationResponse.target_analysis r)
        = map (fun t => py_round t 2) (sorted [- (5)])) /\
  run_full_simulation sqrt_lower sample_opportunities 0 (Some 45%Z)
                      (Some [- (5)]) sample_world = inl IndexError /\
  run_full_simulation sqrt_lower sample_opportunities (-1) (Some 45%Z)
                      (Some [- (5)]) sample_world = inl ValueError.
Proof.
  destruct (@orchestrator_performs_no_validation
              sqrt_lower sample_opportunities (Some 45%Z) (Some [- (5)]) sample_world
              sample_horizon_representable) as (Hpos & [Hzero _] & Hneg).
  split; [apply (Hpos 100%Z); lia |].
  split; [exact Hzero | apply (Hneg (-1)%Z); lia].
Defined.

Lemma filter_counts_partition_input_witness :
  (exists included excluded,
      filter_opportunities_by_horizon sample_opportunities (Some 45%Z) sample_world
        = inr ((included, excluded), sample_world) /\
      subsequence included sample_opportunities /\
      excluded = (len sample_opportunities - len included)%Z) /\
  (exists r w',
      run_full_simulation sqrt_lower sample_opportunities 100 (Some 45%Z) None
                          sample_world = inr (r, w') /\
      (SimulationMetadata.opportunities_included (SimulationResponse.metadata r) +
       SimulationMetadata.opportunities_filtered_out (SimulationResponse.metadata r)
       = 4)%Z).
Proof.
  destruct (@filter_counts_partition_input sample_opportunities (Some 45%Z) sample_world)
    as (Hshape & Hmeta & Hret).
  destruct (Hret sample_horizon_representable) as [(included & excluded & Hf) Hfull].
  split.
  - exists included, excluded. split; [exact Hf |]. apply (Hshape _ _ _ Hf).
  - destruct (Hfull sqrt_lower 100%Z None ltac:(lia)) as (r & w' & Hr).
    exists r, w'. split; [exact Hr |]. apply (Hmeta _ _ _ _ _ Hr).
Defined.

(** ** Where the code departs from the specification's wording *)

(** C2, as stated, fails: for two certain deals of 0.1 and 0.2 the one
    outcome of a trial is the float 0.30000000000000004, which lies above
    the sum of the two amounts and above the total pipeline value, 0.3,
    that the summary reports for them. *)
Lemma outcome_above_total_pipeline_value :
  Forall valid_event dime_deals /\
  exists outcome w' s,
    run_monte_carlo_f64 dime_deals 1 sample_world = inr ([outcome], w') /\
    compute_summary_statistics sqrt_lower [outcome] dime_deals = inr s /\
    outcome == 5404319552844596 # 18014398509481984 /\
    format_f false 17 outcome = "0.30000000000000004"%string /\
    totalPipelineValue dime_deals < outcome /\
    SummaryStatistics.total_pipeline_value s == 3 # 10 /\
    SummaryStatistics.total_pipeline_value s < outcome.
Proof.
  split.
  - repeat constructor; vm_compute; reflexivity || discriminate.
  - eexists; eexists; eexists.
    split; [vm_compute; reflexivity |].
    split; [vm_compute; reflexivity |].
    repeat split; vm_compute; reflexivity.
Qed.



(** C9, as stated, fails: invoked with the target -5 the orchestrator
    returns a result, in which that target is reached with probability 1. *)
Lemma non_positive_target_is_analysed :
  match run_full_simulation sqrt_lower sample_opportunities 100 None
                            (Some [- (5)]) sample_world with
  | inr (r, _) =>
      map TargetAnalysis.probability_pct (SimulationResponse.target_analysis r)
        = ["100.0%"%string] /\
      SimulationMetadata.num_simulations (SimulationResponse.metadata r) = 100%Z
  | inl _ => False
  end.
Proof. vm_compute. split; reflexivity. Qed.

(** * Further properties of the code *)

(** ** Trial engine: draws consumed, monotonicity, extremes *)

Lemma run_monte_carlo_consumes (opps : list Opportunity.t) (n : Z) (w : world) :
  (0 <= n)%Z ->
  exists outcomes,
    run_monte_carlo opps n w
    = inr (outcomes,
           match opps with
           | [] => w
           | _ => consume (Z.to_nat n * List.length opps) w
           end) /\
    List.length outcomes = Z.to_nat n /\
    forall i, (i < Z.to_nat n)%nat -> nth i outcomes 0 == trial_outcome w opps i.
Proof.
  intro Hn. destruct opps as [| o opps].
  - exists (repeat 0 (Z.to_nat n)). split; [apply run_monte_carlo_empty, Hn |].
    split; [apply repeat_length |].
    intros i _. unfold trial_outcome. simpl. rewrite nth_repeat. reflexivity.
  - eexists. split; [apply run_monte_carlo_nonempty, Hn |].
    split; [rewrite length_map, length_seq; reflexivity |].
    intros i Hi. rewrite nth_map_seq by exact Hi. simpl Nat.add. apply row_revenue.
Qed.

Lemma map_seq_offset {A} (f : nat -> A) (a n : nat) :
  map f (seq a n) = map (fun i => f (a + i)%nat) (seq 0 n).
Proof.
  revert a. induction n as [| n IH]; intro a; [reflexivity |].
  simpl. rewrite Nat.add_0_r. f_equal.
  rewrite IH, <- seq_shift, map_map. apply map_ext. intro i. f_equal. lia.
Qed.

(** X1. Trials are served from the generator in order, [len(opportunities)]
    draws each: a run of [n1] trials followed by a run of [n2] trials
    returns, concatenated, exactly the outcomes of one run of [n1 + n2]
    trials, leaves the same state, and has consumed
    [(n1 + n2) * len(opportunities)] draws. *)
Theorem run_monte_carlo_batches_compose :
  forall (opps : list Opportunity.t) (n1 n2 : Z) (w : world),
    (0 <= n1)%Z -> (0 <= n2)%Z ->
    exists out1 w1 out2 w2,
      run_monte_carlo opps n1 w = inr (out1, w1) /\
      run_monte_carlo opps n2 w1 = inr (out2, w2) /\
      run_monte_carlo opps (n1 + n2) w = inr (out1 ++ out2, w2) /\
      drawn w2 = (drawn w + Z.to_nat (n1 + n2) * List.length opps)%nat.
Proof.
  intros opps n1 n2 w H1 H2.
  assert (H12 : (0 <= n1 + n2)%Z) by lia.
  destruct opps as [| o opps].
  - exists (repeat 0 (Z.to_nat n1)), w, (repeat 0 (Z.to_nat n2)), w.
    rewrite !run_monte_carlo_empty by assumption.
    split; [reflexivity |]. split; [reflexivity |].
    split; [| simpl; lia].
    rewrite Z2Nat.inj_add, repeat_app by assumption. reflexivity.
  - set (m := List.length (o :: opps)).
    eexists; eexists; eexists; eexists.
    split; [apply run_monte_carlo_nonempty, H1 |].
    split; [apply run_monte_carlo_nonempty, H2 |].
    split.
    + rewrite run_monte_carlo_nonempty by exact H12. fold m.
      rewrite consume_consume.
      rewrite Z2Nat.inj_add by assumption.
      rewrite seq_app, map_app. simpl Nat.add.
      rewrite (map_seq_offset _ (Z.to_nat n1) (Z.to_nat n2)).
      assert (Hd : forall i j,
                 draw w m (Z.to_nat n1 + i) j
                 = draw (consume (Z.to_nat n1 * m) w) m i j).
      { intros i j. unfold draw, consume. simpl. f_equal. lia. }
      f_equal. f_equal.
      * f_equal. apply map_ext. intro i.
        rewrite (map_ext _ _ (Hd i)). reflexivity.
      * unfold consume. f_equal. lia.
    + unfold consume. cbn [drawn]. fold m.
      rewrite Z2Nat.inj_add by assumption. nia.
Qed.

Lemma contribution_mono (d : Q) (o o' : Opportunity.t) :
  Opportunity.amount o' = Opportunity.amount o ->
  Opportunity.probability o <= Opportunity.probability o' ->
  0 <= Opportunity.amount o ->
  contribution d o <= contribution d o'.
Proof.
  intros Ha Hp H0. unfold contribution. rewrite Ha.
  destruct (Qlt_bool d (Opportunity.probability o)) eqn:E.
  - apply Qlt_bool_iff in E.
    assert (E' : Qlt_bool d (Opportunity.probability o') = true)
      by (apply Qlt_bool_iff; lra).
    rewrite E'. apply Qle_refl.
  - destruct (Qlt_bool d (Opportunity.probability o')); [exact H0 | apply Qle_refl].
Qed.

Lemma sum_won_mono (d : nat -> Q) (opps opps' : list Opportunity.t) (k : nat) :
  probabilities_raised opps opps' ->
  Forall (fun o => 0 <= Opportunity.amount o) opps ->
  sum_won d k opps <= sum_won d k opps'.
Proof.
  intros Hr. revert k. induction Hr as [| o o' opps opps' [Ha Hp] _ IH]; intros k Hpos.
  - apply Qle_refl.
  - inversion Hpos as [| ? ? H0 Hrest]; subst. simpl.
    pose proof (@contribution_mono (d k) o o' Ha Hp H0).
    pose proof (IH (S k) Hrest). simpl. lra.
Qed.

(** X2. For the same generator state, raising win probabilities (amounts
    unchanged and non-negative) never lowers an outcome: trial by trial
    the new outcome is at least the old one, and both runs consume the
    same draws. *)
Theorem run_monte_carlo_monotone_in_probability :
  forall (opps opps' : list Opportunity.t) (n : Z) (w : world),
    probabilities_raised opps opps' ->
    Forall (fun o => 0 <= Opportunity.amount o) opps ->
    (0 <= n)%Z ->
    exists out out' w',
      run_monte_carlo opps n w = inr (out, w') /\
      run_monte_carlo opps' n w = inr (out', w') /\
      forall i, (i < Z.to_nat n)%nat -> nth i out 0 <= nth i out' 0.
Proof.
  intros opps opps' n w Hr Hpos Hn.
  pose proof (Forall2_length Hr) as Hlen.
  destruct (run_monte_carlo_consumes opps w Hn) as (out & Hrun & _ & Hnth).
  destruct (run_monte_carlo_consumes opps' w Hn) as (out' & Hrun' & _ & Hnth').
  exists out, out'. eexists. split; [exact Hrun |]. split.
  - rewrite Hrun'. destruct Hr; [reflexivity |]. simpl in Hlen. simpl. rewrite Hlen.
    reflexivity.
  - intros i Hi. rewrite (Hnth i Hi), (Hnth' i Hi). unfold trial_outcome.
    rewrite <- Hlen. apply sum_won_mono; assumption.
Qed.




(** ** Target analysis: monotone, bounded, and its one error *)

Lemma StronglySorted_map {A B} (R : A -> A -> Prop) (R' : B -> B -> Prop)
      (f : A -> B) (l : list A) :
  (forall x y, R x y -> R' (f x) (f y)) ->
  StronglySorted R l -> StronglySorted R' (map f l).
Proof.
  intros Hf. induction 1 as [| a l _ IH Hall]; simpl; constructor; [exact IH |].
  apply Forall_map. eapply Forall_impl; [| exact Hall]. intros b Hb. apply Hf, Hb.
Qed.

Lemma hitProbability_antitone (outcomes : list Q) (t1 t2 : Q) (n : Z) :
  (0 < n)%Z -> t1 <= t2 ->
  hitProbability outcomes t2 n <= hitProbability outcomes t1 n.
Proof.
  intros Hn Ht. unfold hitProbability.
  assert (Hpos : 0 < inject_Z n) by (rewrite <- (Zlt_Qlt 0); exact Hn).
  apply Qmult_le_compat_r; [| apply Qlt_le_weak, Qinv_lt_0_compat, Hpos].
  rewrite <- Zle_Qle. apply count_if_mono.
  intros x Hx. apply Qle_bool_iff in Hx. apply Qle_bool_iff. lra.
Qed.

(** X4. For a positive trial count the hit probabilities of the returned
    records never increase along the list: a higher target is never
    reported as more likely than a lower one. *)
Theorem target_probabilities_non_increasing :
  forall (outcomes targets : list Q) (n : Z),
    (0 < n)%Z ->
    exists records,
      compute_target_analysis outcomes targets n = inr records /\
      StronglySorted
        (fun r1 r2 => TargetAnalysis.probability r2 <= TargetAnalysis.probability r1)
        records.
Proof.
  intros outcomes targets n Hn.
  eexists. split; [apply compute_target_analysis_nonzero; lia |].
  apply (StronglySorted_map (R := Qle)); [| apply sort_StronglySorted].
  intros t1 t2 Ht. simpl.
  apply py_round_mono, fl_mono, hitProbability_antitone; assumption.
Qed.

(** X5. With no trials and at least one target the analysis divides by
    zero; with no target it returns the empty list whatever the count. *)
Theorem target_analysis_zero_trials :
  forall (outcomes targets : list Q),
    (targets <> [] ->
       compute_target_analysis outcomes targets 0 = inl ZeroDivisionError) /\
    (forall n, compute_target_analysis outcomes [] n = inr []).
Proof.
  intros outcomes targets. split; [| reflexivity].
  intro Hne. unfold compute_target_analysis.
  pose proof (np_sort_nonempty Hne) as Hs. unfold np_sort in Hs. unfold sorted.
  destruct (QSort.sort targets) as [| t l]; [congruence | reflexivity].
Qed.

(** ** Histogram: frequencies and tiling *)

(** The sum of rounded values is a whole number of units of the last
    decimal. *)
Lemma exact_sum_py_round (g : Z -> Q) (counts : list Z) (n : nat) :
  exact_sum (map (fun c => py_round (g c) n) counts)
  == inject_Z (sumZ (map (fun c => round_half_even (g c * inject_Z (pow10 n))) counts))
     / inject_Z (pow10 n).
Proof.
  pose proof (inject_pow10_nonzero n) as Hp.
  induction counts as [| c counts IH].
  - simpl. unfold exact_sum. simpl. field. exact Hp.
  - simpl map. rewrite exact_sum_cons, IH. simpl sumZ. rewrite inject_Z_plus.
    unfold py_round. field. exact Hp.
Qed.

Lemma rounded_shares_error (counts : list Z) (N : Q) :
  0 < N ->
  Forall (fun c => (0 <= c)%Z) counts ->
  Qabs (exact_sum (map (fun c => py_round (fl (inject_Z c / N)) 4) counts)
        - inject_Z (sumZ counts) / N)
  <= inject_Z (Z.of_nat (List.length counts)) / 20000
     + inject_Z (sumZ counts) / N * pow2 (-53).
Proof.
  intros HN Hc.
  apply Qabs_Qle_condition.
  induction Hc as [| c counts Hc0 _ IH].
  - simpl. unfold exact_sum. simpl. unfold Qdiv. split; ring_simplify; apply Qle_refl.
  - simpl map. rewrite exact_sum_cons. simpl sumZ. simpl List.length.
    rewrite Nat2Z.inj_succ. unfold Z.succ. rewrite !inject_Z_plus.
    change (inject_Z 1) with 1.
    assert (Hq : 0 <= inject_Z c / N).
    { apply Qle_shift_div_l; [exact HN |]. rewrite Qmult_0_l, <- (Zle_Qle 0). exact Hc0. }
    pose proof (py_round_fl_error Hq) as He.
    apply Qabs_Qle_condition in He.
    destruct He as [He1 He2]. destruct IH as [IH1 IH2].
    set (f := py_round (fl (inject_Z c / N)) 4) in *.
    set (S := exact_sum (map (fun c0 => py_round (fl (inject_Z c0 / N)) 4) counts)) in *.
    set (k := inject_Z (Z.of_nat (List.length counts))) in *.
    set (u := pow2 (-53)) in *.
    unfold Qdiv in *.
    set (qc := inject_Z c * / N) in *.
    set (qs := inject_Z (sumZ counts) * / N) in *.
    split.
    + setoid_replace (f + S - (inject_Z c + inject_Z (sumZ counts)) * / N)
        with ((f - qc) + (S - qs)) by (unfold qc, qs; ring).
      setoid_replace (- ((k + 1) * / 20000 + (inject_Z c + inject_Z (sumZ counts)) * / N * u))
        with (- (k * / 20000 + qs * u) + - ((1 # 20000) + qc * u))
        by (unfold qc, qs; change (/ 20000) with (1 # 20000); ring).
      lra.
    + setoid_replace (f + S - (inject_Z c + inject_Z (sumZ counts)) * / N)
        with ((f - qc) + (S - qs)) by (unfold qc, qs; ring).
      setoid_replace ((k + 1) * / 20000 + (inject_Z c + inject_Z (sumZ counts)) * / N * u)
        with ((k * / 20000 + qs * u) + ((1 # 20000) + qc * u))
        by (unfold qc, qs; change (/ 20000) with (1 # 20000); ring).
      lra.
Qed.

(** Shares of a total, each computed in binary64 and rounded to 4
    decimals, add up to 1 within half a unit of the last decimal per
    share: the rounding of the divisions, at most [2^-53] in all, cannot
    move a sum that is a multiple of 0.0001 across that bound. *)
Lemma rounded_shares_sum (counts : list Z) (n : Z) :
  (0 < n)%Z ->
  Forall (fun c => (0 <= c)%Z) counts ->
  sumZ counts = n ->
  Qabs (exact_sum (map (fun c => py_round (fl (inject_Z c / inject_Z n)) 4) counts) - 1)
  <= inject_Z (Z.of_nat (List.length counts)) / 20000.
Proof.
  intros Hn Hc Hs.
  assert (HN : 0 < inject_Z n) by (rewrite <- (Zlt_Qlt 0); exact Hn).
  pose proof (rounded_shares_error HN Hc) as He.
  rewrite Hs in He.
  setoid_replace (inject_Z n / inject_Z n) with 1 in He by (field; lra).
  rewrite (exact_sum_py_round (fun c => fl (inject_Z c / inject_Z n)) counts 4) in He.
  rewrite (exact_sum_py_round (fun c => fl (inject_Z c / inject_Z n)) counts 4).
  set (zs := sumZ (map (fun c => round_half_even
                                   (fl (inject_Z c / inject_Z n) * inject_Z (pow10 4)))
                       counts)) in *.
  set (K := Z.of_nat (List.length counts)) in *.
  change (inject_Z (pow10 4)) with (inject_Z 10000) in *.
  assert (Hu : 1 * pow2 (-53) < 1 # 20000) by reflexivity.
  apply Qabs_Qle_condition in He. destruct He as [He1 He2].
  assert (Hz : (- K <= 2 * (zs - 10000) <= K)%Z).
  { split.
    - destruct (Z_le_gt_dec (- K) (2 * (zs - 10000))) as [H | H]; [exact H | exfalso].
      assert (H' : (2 * (zs - 10000) <= - K - 1)%Z) by lia.
      rewrite Zle_Qle in H'. unfold Z.sub in H'.
      rewrite inject_Z_mult, !inject_Z_plus, !inject_Z_opp in H'.
      change (inject_Z 2) with 2 in H'. change (inject_Z 1) with 1 in H'.
      change (inject_Z 10000) with 10000 in *.
      unfold Qdiv in *. change (/ 20000) with (1 # 20000) in *.
      change (/ 10000) with (1 # 10000) in *. lra.
    - destruct (Z_le_gt_dec (2 * (zs - 10000)) K) as [H | H]; [exact H | exfalso].
      assert (H' : (K + 1 <= 2 * (zs - 10000))%Z) by lia.
      rewrite Zle_Qle in H'. unfold Z.sub in H'.
      rewrite inject_Z_mult, !inject_Z_plus, !inject_Z_opp in H'.
      change (inject_Z 2) with 2 in H'. change (inject_Z 1) with 1 in H'.
      change (inject_Z 10000) with 10000 in *.
      unfold Qdiv in *. change (/ 20000) with (1 # 20000) in *.
      change (/ 10000) with (1 # 10000) in *. lra. }
  destruct Hz as [Hz1 Hz2].
  rewrite Zle_Qle in Hz1, Hz2. unfold Z.sub in Hz1, Hz2.
  rewrite inject_Z_mult, !inject_Z_plus, !inject_Z_opp in Hz1, Hz2.
  rewrite ?inject_Z_opp in Hz1.
  change (inject_Z 2) with 2 in Hz1, Hz2.
  change (inject_Z 10000) with 10000 in *.
  unfold Qdiv in *. change (/ 20000) with (1 # 20000) in *.
  change (/ 10000) with (1 # 10000) in *.
  apply Qabs_Qle_condition. split; lra.
Qed.

Lemma compute_histogram_frequencies (outcomes : list Q) (num_buckets : Z) :
  outcomes <> [] ->
  (1 <= num_buckets)%Z ->
  exists buckets,
    compute_histogram outcomes num_buckets = inr buckets /\
    len buckets = num_buckets /\
    total_count buckets = len outcomes /\
    Forall (fun b => 0 <= HistogramBucket.frequency b /\
                     HistogramBucket.frequency b <= 1) buckets /\
    Qabs (total_frequency buckets - 1) <= inject_Z num_buckets / 20000.
Proof.
  intros Hne Hnb.
  eexists. split; [apply (compute_histogram_buckets outcomes Hnb) |].
  cbv zeta.
  destruct (get_outer_edges_spec outcomes) as (Hfl & Hcover & _ & _).
  set (first := fst (get_outer_edges outcomes)) in *.
  set (last := snd (get_outer_edges outcomes)) in *.
  set (nb := Z.to_nat num_buckets).
  pose proof (len_pos Hne) as HN.
  assert (HNq : 0 < inject_Z (len outcomes)) by (rewrite <- (Zlt_Qlt 0); lia).
  assert (Hpos : (0 <? len outcomes)%Z = true) by (apply Z.ltb_lt; lia).
  rewrite Hpos.
  split; [unfold len; rewrite length_map, length_seq; unfold nb; lia |].
  split.
  { unfold total_count. rewrite map_map. simpl.
    apply counts_sum; [exact Hfl | unfold nb; lia | exact Hcover]. }
  split.
  - apply Forall_map, Forall_forall. intros i _. simpl.
    pose proof (count_if_bounds (in_bucket first last nb i) outcomes) as [Hc0 Hc1].
    apply py_round_unit_interval; apply fl_unit_interval.
    + apply Qle_shift_div_l; [exact HNq |]. rewrite Qmult_0_l, <- (Zle_Qle 0). exact Hc0.
    + apply Qle_shift_div_r; [exact HNq |]. rewrite Qmult_1_l, <- Zle_Qle. exact Hc1.
    + apply Qle_shift_div_l; [exact HNq |]. rewrite Qmult_0_l, <- (Zle_Qle 0). exact Hc0.
    + apply Qle_shift_div_r; [exact HNq |]. rewrite Qmult_1_l, <- Zle_Qle. exact Hc1.
  - unfold total_frequency. rewrite map_map. simpl.
    assert (Hcounts : Forall (fun c => (0 <= c)%Z)
                        (map (fun i => count_if (in_bucket first last nb i) outcomes)
                             (seq 0 nb))).
    { apply Forall_map, Forall_forall. intros i _. apply count_if_bounds. }
    pose proof (@rounded_shares_sum
                  (map (fun i => count_if (in_bucket first last nb i) outcomes)
                       (seq 0 nb))
                  (len outcomes) ltac:(lia) Hcounts
                  (@counts_sum first last nb outcomes Hfl ltac:(lia) Hcover)) as H.
    rewrite map_map, length_map, length_seq in H.
    replace (Z.of_nat nb) with num_buckets in H by (unfold nb; lia). exact H.
Qed.


(** X6. On a non-empty outcome array every bucket frequency lies in
    [0, 1] and the frequencies, each rounded to 4 decimals, add up to 1
    within [num_buckets / 20000] (0.0006 for the 12 buckets of a request). *)
Theorem histogram_frequencies_sum_near_one :
  forall (outcomes : list Q) (num_buckets : Z),
    outcomes <> [] ->
    (1 <= num_buckets)%Z ->
    exists buckets,
      compute_histogram outcomes num_buckets = inr buckets /\
      Forall (fun b => 0 <= HistogramBucket.frequency b /\
                       HistogramBucket.frequency b <= 1) buckets /\
      Qabs (total_frequency buckets - 1) <= inject_Z num_buckets / 20000.
Proof.
  intros outcomes num_buckets Hne Hnb.
  destruct (compute_histogram_frequencies Hne Hnb) as (buckets & Hc & _ & _ & Hf & Hs).
  exists buckets. auto.
Qed.

(** X7. A bucket count below 1 is refused with NumPy's error.  Otherwise
    the reported buckets tile the range: each bucket's upper bound is the
    next bucket's lower bound, also after rounding to 2 decimals, and no
    bucket has its lower bound above its upper bound. *)
Theorem histogram_buckets_tile :
  forall (outcomes : list Q) (num_buckets : Z),
    ((num_buckets < 1)%Z -> compute_histogram outcomes num_buckets = inl ValueError) /\
    ((1 <= num_buckets)%Z ->
     exists buckets,
       compute_histogram outcomes num_buckets = inr buckets /\
       (forall i b b',
           nth_error buckets i = Some b -> nth_error buckets (S i) = Some b' ->
           HistogramBucket.range_high b = HistogramBucket.range_low b') /\
       Forall (fun b => HistogramBucket.range_low b <= HistogramBucket.range_high b)
              buckets).
Proof.
  intros outcomes num_buckets. split.
  - intro H. unfold compute_histogram, np_histogram.
    apply Z.ltb_lt in H. rewrite H. reflexivity.
  - intro Hnb.
    eexists. split; [apply (compute_histogram_buckets outcomes Hnb) |].
    cbv zeta.
    destruct (get_outer_edges_spec outcomes) as (Hfl & _ & _ & _).
    split.
    + intros i b b' Hb Hb'.
      apply nth_error_map_seq in Hb. apply nth_error_map_seq in Hb'.
      destruct Hb as [_ ->]. destruct Hb' as [_ ->]. reflexivity.
    + apply Forall_map, Forall_forall. intros i _. simpl.
      apply py_round_mono. rewrite bin_edge_succ.
      pose proof (@bin_width_pos _ _ (Z.to_nat num_buckets) Hfl ltac:(lia)). lra.
Qed.

(** ** Summary statistics: every statistic lies between min and max *)

Lemma np_sum_between (l : list Q) (lo hi : Q) :
  (forall x, In x l -> lo <= x /\ x <= hi) ->
  inject_Z (len l) * lo <= np_sum l /\ np_sum l <= inject_Z (len l) * hi.
Proof.
  induction l as [| x l IH]; intro H.
  - unfold len. simpl. split; ring_simplify; apply Qle_refl.
  - rewrite np_sum_cons. unfold len in *. simpl List.length.
    rewrite Nat2Z.inj_succ. unfold Z.succ. rewrite inject_Z_plus.
    change (inject_Z 1) with 1.
    destruct (H x (or_introl eq_refl)) as [Hx0 Hx1].
    destruct IH as [IH0 IH1]; [intros y Hy; apply H; right; exact Hy |].
    split; ring_simplify; lra.
Qed.

Lemma np_mean_between (l : list Q) (lo hi : Q) :
  l <> [] ->
  (forall x, In x l -> lo <= x /\ x <= hi) ->
  lo <= np_mean l /\ np_mean l <= hi.
Proof.
  intros Hne H. destruct (np_sum_between l H) as [H0 H1].
  pose proof (len_pos Hne) as Hn.
  assert (HN : 0 < inject_Z (len l)) by (rewrite <- (Zlt_Qlt 0); lia).
  unfold np_mean. split.
  - apply Qle_shift_div_l; [exact HN |]. lra.
  - apply Qle_shift_div_r; [exact HN |]. lra.
Qed.

Lemma quantile_linear_between (s : list Q) (v lo hi : Q) :
  StronglySorted Qle s -> s <> [] -> 0 <= v ->
  (forall x, In x s -> lo <= x /\ x <= hi) ->
  lo <= quantile_linear s v /\ quantile_linear s v <= hi.
Proof.
  intros Hs Hne H0 Hin.
  pose proof (len_pos Hne) as Hn. unfold len in Hn.
  destruct (Qlt_le_dec v (inject_Z (len s - 1))) as [Hv | Hv].
  - destruct (floor_below_last s H0 Hv) as [Hf Hk].
    destruct (quantile_middle_bounds Hs H0 Hv) as [Hl Hu].
    destruct (Hin (nth (Z.to_nat (Qfloor v)) s 0)) as [Ha _]; [apply nth_In; lia |].
    destruct (Hin (nth (S (Z.to_nat (Qfloor v))) s 0)) as [_ Hb]; [apply nth_In; lia |].
    split; lra.
  - rewrite (quantile_above Hne Hv). apply Hin, nth_In. lia.
Qed.

Lemma np_percentile_between (a : list Q) (q lo hi : Q) :
  a <> [] -> 0 <= q ->
  (forall x, In x a -> lo <= x /\ x <= hi) ->
  lo <= linear_percentile a q /\ linear_percentile a q <= hi.
Proof.
  intros Ha Hq Hin. unfold linear_percentile.
  pose proof (len_pos (np_sort_nonempty Ha)) as Hn.
  apply quantile_linear_between.
  - apply sort_StronglySorted.
  - apply np_sort_nonempty, Ha.
  - apply Qmult_le_0_compat; [rewrite <- (Zle_Qle 0); lia | apply Qle_shift_div_l; lra].
  - intros x Hx. apply Hin.
    eapply Permutation_in; [apply Permutation_sym, QSort.Permuted_sort | exact Hx].
Qed.

Lemma summary_statistics_between
    (np_sqrt : Q -> Q) (outcomes : list Q) (opps : list Opportunity.t) (lo hi : Q) :
  outcomes <> [] ->
  (forall x, In x outcomes -> lo <= x /\ x <= hi) ->
  exists s,
    compute_summary_statistics np_sqrt outcomes opps = inr s /\
    Forall (fun x => lo <= x /\ x <= hi)
           [SummaryStatistics.mean s; SummaryStatistics.median s;
            SummaryStatistics.p10 s; SummaryStatistics.p25 s;
            SummaryStatistics.p75 s; SummaryStatistics.p90 s;
            SummaryStatistics.min_outcome s; SummaryStatistics.max_outcome s].
Proof.
  intros Hne Hin.
  destruct (compute_summary_statistics_nonempty np_sqrt opps Hne)
    as (mn & mx & Hmin & Hmax & Hs).
  eexists. split; [exact Hs |]. simpl.
  destruct (np_min_spec _ Hmin) as [Hmn _].
  destruct (np_max_spec _ Hmax) as [Hmx _].
  pose proof (@np_percentile_between outcomes 50 lo hi Hne ltac:(lra) Hin) as H50.
  rewrite <- (np_median_is_percentile_50 Hne) in H50.
  repeat apply Forall_cons; try apply Forall_nil.
  - apply np_mean_between; assumption.
  - exact H50.
  - apply np_percentile_between; [assumption | lra | assumption].
  - apply np_percentile_between; [assumption | lra | assumption].
  - apply np_percentile_between; [assumption | lra | assumption].
  - apply np_percentile_between; [assumption | lra | assumption].
  - apply (Hin _ Hmn).
  - apply (Hin _ Hmx).
Qed.


Lemma sum_won_nonneg (d : nat -> Q) (k : nat) (opps : list Opportunity.t) :
  Forall (fun o => 0 <= Opportunity.amount o) opps ->
  0 <= sum_won d k opps /\ sum_won d k opps <= totalPipelineValue opps.
Proof.
  intro Hv. revert k. induction Hv as [| o opps Ha _ IH]; intro k.
  - unfold totalPipelineValue. simpl. split; apply Qle_refl.
  - unfold totalPipelineValue in *. simpl map. rewrite exact_sum_cons. simpl.
    destruct (IH (S k)) as [Hlo Hhi]. unfold contribution.
    destruct (Qlt_bool (d k) (Opportunity.probability o)); split; lra.
Qed.

(** X9. Statistics of a simulated distribution: for events with
    non-negative amounts, whatever their win probabilities, and a positive
    trial count, the trial engine returns, the statistics of what it
    returns are computed, and the mean, the median, the four percentiles,
    the minimum and the maximum are all non-negative. *)
Theorem simulated_statistics_non_negative :
  forall (np_sqrt : Q -> Q) (opps : list Opportunity.t) (n : Z) (w : world),
    Forall (fun o => 0 <= Opportunity.amount o) opps ->
    (0 < n)%Z ->
    exists outcomes w' s,
      run_monte_carlo opps n w = inr (outcomes, w') /\
      compute_summary_statistics np_sqrt outcomes opps = inr s /\
      Forall (fun x => 0 <= x)
             [SummaryStatistics.mean s; SummaryStatistics.median s;
              SummaryStatistics.p10 s; SummaryStatistics.p25 s;
              SummaryStatistics.p75 s; SummaryStatistics.p90 s;
              SummaryStatistics.min_outcome s; SummaryStatistics.max_outcome s].
Proof.
  intros np_sqrt opps n w Hv Hn.
  destruct (@run_monte_carlo_consumes opps n w ltac:(lia))
    as (outcomes & Hrun & Hlen & Hnth).
  assert (Hne : outcomes <> []).
  { intro He. rewrite He in Hlen. simpl in Hlen. lia. }
  assert (Hin : forall x, In x outcomes -> 0 <= x /\ x <= totalPipelineValue opps).
  { intros x Hx. destruct (In_nth outcomes x 0 Hx) as (i & Hi & <-).
    rewrite Hlen in Hi. rewrite (Hnth i Hi). apply sum_won_nonneg, Hv. }
  destruct (@summary_statistics_between np_sqrt outcomes opps _ _ Hne Hin)
    as (s & Hs & Hall).
  exists outcomes. eexists. exists s.
  split; [exact Hrun |]. split; [exact Hs |].
  eapply Forall_impl; [| exact Hall]. intros x [Hx _]. exact Hx.
Qed.

(** ** Horizon filter: widening, repeating, edge windows, overflow *)

Lemma filter_filter_subsequence {A} (p q : A -> bool) (l : list A) :
  (forall x, p x = true -> q x = true) ->
  subsequence (filter p l) (filter q l).
Proof.
  intro H. induction l as [| x l IH]; simpl; [constructor |].
  specialize (H x). destruct (p x) eqn:E.
  - rewrite (H eq_refl). apply subseq_keep. exact IH.
  - destruct (q x); [apply subseq_skip |]; exact IH.
Qed.

Lemma subsequence_length {A} (l1 l2 : list A) :
  subsequence l1 l2 -> (List.length l1 <= List.length l2)%nat.
Proof. induction 1; simpl; lia. Qed.

Lemma filter_idem {A} (p : A -> bool) (l : list A) : filter p (filter p l) = filter p l.
Proof.
  induction l as [| x l IH]; simpl; [reflexivity |].
  destruct (p x) eqn:E; simpl; rewrite ?E, IH; reflexivity.
Qed.

(** X10. Widening the horizon only adds events: for two representable
    horizons [d1 <= d2] the events included under [d1] form an
    order-preserving subsequence of those included under [d2], and the
    excluded counts satisfy [0 <= excluded2 <= excluded1 <= len(input)]. *)
Theorem filter_monotone_in_horizon :
  forall (opps : list Opportunity.t) (d1 d2 : Z) (w : world),
    window_representable w d1 ->
    window_representable w d2 ->
    (d1 <= d2)%Z ->
    exists inc1 exc1 inc2 exc2,
      filter_opportunities_by_horizon opps (Some d1) w = inr ((inc1, exc1), w) /\
      filter_opportunities_by_horizon opps (Some d2) w = inr ((inc2, exc2), w) /\
      subsequence inc1 inc2 /\
      (0 <= exc2 <= exc1)%Z /\ (exc1 <= len opps)%Z.
Proof.
  intros opps d1 d2 w H1 H2 Hd.
  eexists; eexists; eexists; eexists.
  split; [apply (filter_horizon_present opps H1) |].
  split; [apply (filter_horizon_present opps H2) |].
  set (p1 := fun o => ((today w <=? Opportunity.close_date o) &&
                       (Opportunity.close_date o <=? today w + d1))%Z).
  set (p2 := fun o => ((today w <=? Opportunity.close_date o) &&
                       (Opportunity.close_date o <=? today w + d2))%Z).
  assert (Hsub : subsequence (filter p1 opps) (filter p2 opps)).
  { apply filter_filter_subsequence. intros o Ho. subst p1 p2. simpl in *.
    apply andb_true_iff in Ho. destruct Ho as [Ha Hb].
    apply Z.leb_le in Ha, Hb. apply andb_true_iff. split; apply Z.leb_le; lia. }
  split; [exact Hsub |].
  pose proof (subsequence_length Hsub).
  pose proof (filter_length_le p2 opps).
  unfold len. lia.
Qed.

(** X11. Filtering is idempotent: applying the filter again, with the same
    horizon on the same day, to the list it returned gives that list back
    with an excluded count of 0. *)
Theorem filter_idempotent :
  forall (opps : list Opportunity.t) (horizon : option Z) (w w' : world)
         (included : list Opportunity.t) (excluded : Z),
    filter_opportunities_by_horizon opps horizon w = inr ((included, excluded), w') ->
    filter_opportunities_by_horizon included horizon w' = inr ((included, 0%Z), w').
Proof.
  intros opps horizon w w' included excluded H.
  destruct horizon as [days |].
  - unfold filter_opportunities_by_horizon, bind, date_today, lift in *.
    destruct (timedelta days) as [e | delta]; [discriminate |].
    destruct (date_add (today w) delta) as [e | horizon_date] eqn:Hadd; [discriminate |].
    unfold ret in *. injection H as <- _ <-.
    rewrite Hadd, filter_idem. do 2 f_equal. f_equal. lia.
  - unfold filter_opportunities_by_horizon, ret in *. injection H as <- _ <-.
    reflexivity.
Qed.

(** X12. Edge windows: a negative (representable) horizon includes
    nothing and excludes every event; a horizon of 0 days includes exactly
    the events closing today. *)
Theorem filter_edge_windows :
  forall (opps : list Opportunity.t) (w : world),
    (forall days, window_representable w days -> (days < 0)%Z ->
       filter_opportunities_by_horizon opps (Some days) w
       = inr (([], len opps), w)) /\
    (window_representable w 0 ->
       exists included excluded,
         filter_opportunities_by_horizon opps (Some 0%Z) w
         = inr ((included, excluded), w) /\
         forall o, In o included <->
                   In o opps /\ Opportunity.close_date o = today w).
Proof.
  intros opps w. split.
  - intros days Hw Hneg. rewrite (filter_horizon_present opps Hw).
    assert (Hnil : filter (fun o => ((today w <=? Opportunity.close_date o) &&
                                     (Opportunity.close_date o <=? today w + days))%Z)
                          opps = []).
    { induction opps as [| o opps IH]; [reflexivity |]. simpl.
      destruct ((today w <=? Opportunity.close_date o) &&
                (Opportunity.close_date o <=? today w + days))%Z eqn:E; [| exact IH].
      apply andb_true_iff in E. destruct E as [Ha Hb].
      apply Z.leb_le in Ha, Hb. lia. }
    rewrite Hnil. do 2 f_equal. unfold len. simpl. f_equal. lia.
  - intro Hw. eexists; eexists. split; [apply (filter_horizon_present opps Hw) |].
    intro o. rewrite filter_In, andb_true_iff, !Z.leb_le. split; intros [Hi Hc].
    + split; [exact Hi | lia].
    + split; [exact Hi | lia].
Qed.

Lemma filter_overflow_iff_lemma :
  forall (opps : list Opportunity.t) (days : Z) (w : world),
    (filter_opportunities_by_horizon opps (Some days) w = inl OverflowError
     <-> ~ window_representable w days) /\
    ((exists included excluded,
         filter_opportunities_by_horizon opps (Some days) w
         = inr ((included, excluded), w))
     <-> window_representable w days).
Proof.
  intros opps days w.
  assert (Hdec : window_representable w days \/ ~ window_representable w days).
  { unfold window_representable, MINORDINAL, MAXORDINAL. lia. }
  assert (Hbad : ~ window_representable w days ->
                 filter_opportunities_by_horizon opps (Some days) w = inl OverflowError).
  { intro Hn. unfold filter_opportunities_by_horizon, bind, date_today, lift,
               timedelta, date_add.
    destruct (Z.abs days <=? 999999999)%Z eqn:Ea; [| reflexivity]. cbn.
    destruct ((MINORDINAL <=? today w + days)%Z && (today w + days <=? MAXORDINAL)%Z)
      eqn:Eb; [| reflexivity].
    exfalso. apply Hn. apply Z.leb_le in Ea. apply andb_true_iff in Eb.
    destruct Eb as [Eb1 Eb2]. apply Z.leb_le in Eb1, Eb2.
    unfold window_representable. lia. }
  split; split.
  - intros H Hw. rewrite (filter_horizon_present opps Hw) in H. discriminate.
  - exact Hbad.
  - intros (inc & exc & H). destruct Hdec as [Hw | Hn]; [exact Hw |].
    rewrite (Hbad Hn) in H. discriminate.
  - intro Hw. eexists; eexists. apply (filter_horizon_present opps Hw).
Qed.

(** X13. The filter fails only on date overflow: with a horizon present it
    raises [OverflowError] exactly when the horizon exceeds 999999999 days
    in magnitude or [today + horizon] leaves the dates Python supports,
    and it returns otherwise. *)
Theorem filter_overflow_iff :
  forall (opps : list Opportunity.t) (days : Z) (w : world),
    (filter_opportunities_by_horizon opps (Some days) w = inl OverflowError
     <-> ~ window_representable w days) /\
    ((exists included excluded,
         filter_opportunities_by_horizon opps (Some days) w
         = inr ((included, excluded), w))
     <-> window_representable w days).
Proof. exact filter_overflow_iff_lemma. Qed.

(** ** Request validation *)

Lemma py_round_whole_cents (x : Q) : whole_cents (py_round x 2).
Proof. exists (round_half_even (x * inject_Z (pow10 2))). reflexivity. Qed.

Lemma Opportunity_validate_Some (name : string) (amount probability : Q) (close_date : Z)
      (o : Opportunity.t) :
  Opportunity_validate name amount probability close_date = Some o <->
  ((String.length name <= 255)%nat /\
   0 < amount /\ amount <= inject_Z 10000000000 /\
   0 <= probability /\ probability <= 1) /\
  o = Opportunity.make name (py_round amount 2) probability close_date.
Proof.
  unfold Opportunity_validate, amount_must_be_reasonable.
  destruct (String.length name <=? 255)%nat eqn:En;
    destruct (Qlt_bool 0 amount) eqn:Ea;
    destruct (Qle_bool 0 probability) eqn:Ep0;
    destruct (Qle_bool probability 1) eqn:Ep1;
    destruct (Qlt_bool (inject_Z 10000000000) amount) eqn:Eb;
    simpl;
    try apply Nat.leb_le in En; try apply Nat.leb_gt in En;
    try apply Qlt_bool_iff in Ea; try apply Qle_bool_iff in Ep0;
    try apply Qle_bool_iff in Ep1; try apply Qlt_bool_iff in Eb;
    (split; [intro H; try discriminate H |
             intros [(Hn & Ha & Hb & Hp0 & Hp1) Ho]]);
    try (injection H as <-; repeat split; try assumption;
         apply Qnot_lt_le; intro Hc; apply Qlt_bool_iff in Hc; congruence);
    try (subst o; reflexivity);
    exfalso;
    try lia;
    try (apply Qlt_bool_iff in Ha; congruence);
    try (apply Qle_bool_iff in Hp0; congruence);
    try (apply Qle_bool_iff in Hp1; congruence);
    try (apply (Qlt_not_le _ _ Eb Hb)).
Qed.

(** X14. An opportunity is accepted exactly when its name has at most 255
    characters, its amount is positive and at most 10 billion, and its
    probability lies in [0, 1].  The stored opportunity keeps name,
    probability and close date, and holds the amount rounded to 2
    decimals: a whole number of cents, between 0 and 10 billion, within
    half a cent of the amount given. *)
Theorem opportunity_validation :
  forall (name : string) (amount probability : Q) (close_date : Z),
    ((exists o, Opportunity_validate name amount probability close_date = Some o)
     <-> ((String.length name <= 255)%nat /\
          0 < amount /\ amount <= inject_Z 10000000000 /\
          0 <= probability /\ probability <= 1)) /\
    (forall o,
        Opportunity_validate name amount probability close_date = Some o ->
        Opportunity.name o = name /\
        Opportunity.probability o = probability /\
        Opportunity.close_date o = close_date /\
        Opportunity.amount o = py_round amount 2 /\
        whole_cents (Opportunity.amount o) /\
        0 <= Opportunity.amount o /\
        Opportunity.amount o <= inject_Z 10000000000 /\
        Qabs (Opportunity.amount o - amount) <= 1 # 200).
Proof.
  intros name amount probability close_date. split.
  - split.
    + intros (o & H). apply Opportunity_validate_Some in H. tauto.
    + intro H. eexists. apply Opportunity_validate_Some. split; [exact H | reflexivity].
  - intros o H. apply Opportunity_validate_Some in H.
    destruct H as [(Hn & Ha & Hb & Hp0 & Hp1) ->]. simpl.
    repeat split.
    + apply py_round_whole_cents.
    + rewrite <- (py_round_Z 0 2). apply py_round_mono, Qlt_le_weak, Ha.
    + rewrite <- (py_round_Z 10000000000 2). apply py_round_mono, Hb.
    + apply (py_round_error amount 2).
Qed.

(** X15. Acceptance does not make the stored amount positive: an amount
    strictly between 0 and half a cent is accepted and stored as 0, while
    an accepted amount above half a cent is stored as at least one cent. *)
Theorem tiny_amount_stored_as_zero :
  forall (name : string) (amount probability : Q) (close_date : Z) (o : Opportunity.t),
    Opportunity_validate name amount probability close_date = Some o ->
    (amount < 1 # 200 -> Opportunity.amount o == 0) /\
    (1 # 200 < amount -> 1 # 100 <= Opportunity.amount o).
Proof.
  intros name amount probability close_date o H.
  apply Opportunity_validate_Some in H.
  destruct H as [(Hn & Ha & Hb & Hp0 & Hp1) ->]. simpl.
  unfold py_round. change (inject_Z (pow10 2)) with 100.
  split; intro Hx.
  - assert (Hf : Qfloor (amount * 100) = 0%Z) by (apply Qfloor_unique; change (inject_Z 0) with 0; lra).
    assert (Hr : round_half_even (amount * 100) = 0%Z).
    { unfold round_half_even. rewrite Hf.
      assert (Hc : Qcompare (amount * 100 - inject_Z 0) (1 # 2) = Lt)
        by (rewrite <- Qlt_alt; change (inject_Z 0) with 0; lra).
      rewrite Hc. reflexivity. }
    rewrite Hr. reflexivity.
  - assert (Hr : (1 <= round_half_even (amount * 100))%Z).
    { destruct (Qlt_le_dec (amount * 100) 1) as [Hlt | Hge].
      - assert (Hf : Qfloor (amount * 100) = 0%Z) by (apply Qfloor_unique; change (inject_Z 0) with 0; lra).
        unfold round_half_even. rewrite Hf.
        assert (Hc : Qcompare (amount * 100 - inject_Z 0) (1 # 2) = Gt)
          by (rewrite <- Qgt_alt; change (inject_Z 0) with 0; lra).
        rewrite Hc. reflexivity.
      - rewrite <- (round_half_even_Z 1). apply round_half_even_mono. exact Hge. }
    apply Qle_shift_div_l; [reflexivity |].
    rewrite Zle_Qle in Hr. change (inject_Z 1) with 1 in Hr. lra.
Qed.

Lemma validate_all_Some {A B} (f : A -> option B) (l : list A) (ys : list B) :
  validate_all f l = Some ys <-> Forall2 (fun x y => f x = Some y) l ys.
Proof.
  revert ys. induction l as [| x l IH]; intro ys; simpl.
  - split; [intro H; injection H as <-; constructor | intro H; inversion H; reflexivity].
  - destruct (f x) as [y |] eqn:Ef.
    + destruct (validate_all f l) as [ys' |] eqn:Ev.
      * split.
        -- intro H. injection H as <-. constructor; [exact Ef | apply IH; reflexivity].
        -- intro H. inversion H as [| ? y0 ? ys0 Hy Hrest]; subst.
           apply IH in Hrest. congruence.
      * split; [discriminate |].
        intro H. inversion H as [| ? y0 ? ys0 Hy Hrest]; subst.
        apply IH in Hrest. discriminate.
    + split; [discriminate |].
      intro H. inversion H as [| ? y0 ? ys0 Hy Hrest]; subst. congruence.
Qed.

Lemma validate_targets_are_positive_Some (self req : SimulationRequest.t) :
  validate_targets_are_positive self = Some req <->
  (forall l, SimulationRequest.revenue_targets self = Some l ->
             Forall (fun t => 0 < t) l) /\ req = self.
Proof.
  unfold validate_targets_are_positive.
  destruct (SimulationRequest.revenue_targets self) as [[| t ts] |].
  - split; [intro H; injection H as <- | intros [_ ->]; reflexivity].
    split; [| reflexivity]. intros l Hl. injection Hl as <-. constructor.
  - destruct (forallb (fun t0 => Qlt_bool 0 t0) (t :: ts)) eqn:E.
    + split; [intro H; injection H as <- | intros [_ ->]; reflexivity].
      split; [| reflexivity]. intros l Hl. injection Hl as <-.
      rewrite forallb_forall in E. apply Forall_forall.
      intros x Hx. apply Qlt_bool_iff, E, Hx.
    + split; [discriminate |]. intros [H _]. exfalso.
      specialize (H _ eq_refl).
      assert (E' : forallb (fun t0 => Qlt_bool 0 t0) (t :: ts) = true).
      { apply forallb_forall. rewrite Forall_forall in H.
        intros x Hx. apply Qlt_bool_iff, H, Hx. }
      congruence.
  - split; [intro H; injection H as <- | intros [_ ->]; reflexivity].
    split; [discriminate | reflexivity].
Qed.

Lemma SimulationRequest_validate_Some :
  forall (raw : list (string * Q * Q * Z)) (num_simulations : option Z)
         (horizon : option Z) (targets : option (list Q))
         (req : SimulationRequest.t),
    SimulationRequest_validate raw num_simulations horizon targets = Some req <->
    exists opps,
      Forall2 (fun '(name, amount, probability, close_date) o =>
                 Opportunity_validate name amount probability close_date = Some o)
              raw opps /\
      (1 <= List.length opps <= 500)%nat /\
      (100 <= match num_simulations with Some n => n | None => 10000 end <= 100000)%Z /\
      (forall d, horizon = Some d -> (1 <= d <= 730)%Z) /\
      (forall l, targets = Some l -> Forall (fun t => 0 < t) l) /\
      req = SimulationRequest.make
              opps (match num_simulations with Some n => n | None => 10000%Z end)
              horizon targets.
Proof.
  intros raw num_simulations horizon targets req.
  unfold SimulationRequest_validate.
  set (f := fun '(name, amount, probability, close_date) =>
              Opportunity_validate name amount probability close_date).
  set (n := match num_simulations with Some n => n | None => 10000%Z end).
  assert (HF : forall opps,
             Forall2 (fun x y => f x = Some y) raw opps <->
             Forall2 (fun '(name, amount, probability, close_date) o =>
                        Opportunity_validate name amount probability close_date = Some o)
                     raw opps).
  { intro opps. split; intro H; induction H as [| [[[nm a] p] d] o]; constructor; auto. }
  destruct (validate_all f raw) as [opps |] eqn:Ev.
  - apply validate_all_Some in Ev.
    assert (Huniq : forall opps', Forall2 (fun x y => f x = Some y) raw opps' ->
                                  opps' = opps).
    { intros opps' H. apply validate_all_Some in H. apply validate_all_Some in Ev.
      congruence. }
    destruct ((1 <=? List.length opps)%nat && (List.length opps <=? 500)%nat &&
              ((100 <=? n)%Z && (n <=? 100000)%Z) &&
              match horizon with
              | Some d => ((1 <=? d)%Z && (d <=? 730)%Z)
              | None => true
              end)%bool eqn:Ec.
    + rewrite !andb_true_iff in Ec. destruct Ec as [[[Hl1 Hl2] [Hn1 Hn2]] Hh].
      apply Nat.leb_le in Hl1, Hl2. apply Z.leb_le in Hn1, Hn2.
      rewrite validate_targets_are_positive_Some. simpl. split.
      * intros [Ht ->]. exists opps. split; [apply HF, Ev |].
        split; [lia |]. split; [lia |]. split.
        -- intros d ->. apply andb_true_iff in Hh. destruct Hh as [H1 H2].
           apply Z.leb_le in H1, H2. lia.
        -- split; [exact Ht | reflexivity].
      * intros (opps' & Hv & _ & _ & _ & Ht & ->).
        apply HF, Huniq in Hv. subst opps'. split; [exact Ht | reflexivity].
    + split; [discriminate |].
      intros (opps' & Hv & Hl & Hn & Hh & _ & _).
      apply HF, Huniq in Hv. subst opps'. exfalso.
      assert (Ec' : ((1 <=? List.length opps)%nat && (List.length opps <=? 500)%nat &&
                     ((100 <=? n)%Z && (n <=? 100000)%Z) &&
                     match horizon with
                     | Some d => ((1 <=? d)%Z && (d <=? 730)%Z)
                     | None => true
                     end)%bool = true).
      { rewrite !andb_true_iff. repeat split;
          try (apply Nat.leb_le; lia); try (apply Z.leb_le; subst n; lia).
        destruct horizon as [d |]; [| reflexivity].
        specialize (Hh d eq_refl). apply andb_true_iff. split; apply Z.leb_le; lia. }
      congruence.
  - split; [discriminate |].
    intros (opps' & Hv & _). apply HF, validate_all_Some in Hv. congruence.
Qed.

(** X16. A request is accepted exactly when every opportunity is accepted,
    there are between 1 and 500 of them, the trial count (10000 when
    absent) lies in [100, 100000], the horizon is absent or in [1, 730],
    and every target of a given list is positive; the accepted request
    holds the validated opportunities and the other fields as given. *)
Theorem request_validation :
  forall (raw : list (string * Q * Q * Z)) (num_simulations : option Z)
         (horizon : option Z) (targets : option (list Q))
         (req : SimulationRequest.t),
    SimulationRequest_validate raw num_simulations horizon targets = Some req <->
    exists opps,
      Forall2 (fun '(name, amount, probability, close_date) o =>
                 Opportunity_validate name amount probability close_date = Some o)
              raw opps /\
      (1 <= List.length opps <= 500)%nat /\
      (100 <= match num_simulations with Some n => n | None => 10000 end <= 100000)%Z /\
      (forall d, horizon = Some d -> (1 <= d <= 730)%Z) /\
      (forall l, targets = Some l -> Forall (fun t => 0 < t) l) /\
      req = SimulationRequest.make
              opps (match num_simulations with Some n => n | None => 10000%Z end)
              horizon targets.
Proof. exact SimulationRequest_validate_Some. Qed.

(** ** Orchestrator and endpoint *)

(** What a successful run of the orchestrator is made of. *)
Lemma run_full_simulation_parts np_sqrt opps n horizon targets w :
  (0 < n)%Z ->
  horizon_representable w horizon ->
  exists included excluded outcomes s records buckets r w',
    filter_opportunities_by_horizon opps horizon w = inr ((included, excluded), w) /\
    List.length outcomes = Z.to_nat n /\
    (forall i, (i < Z.to_nat n)%nat ->
               nth i outcomes 0 == trial_outcome w included i) /\
    (included = [] -> all_zero outcomes) /\
    compute_summary_statistics np_sqrt outcomes included = inr s /\
    compute_target_analysis outcomes (effective_targets targets) n = inr records /\
    compute_histogram outcomes 12 = inr buckets /\
    run_full_simulation np_sqrt opps n horizon targets w = inr (r, w') /\
    r = SimulationResponse.make s records buckets
          (SimulationMetadata.make
             n (len included) excluded
             (py_round (float_mul (float_sub (perf w (S (perf_reads w)))
                                             (perf w (perf_reads w))) 1000) 2)
             (utcnow w) horizon "1.0.0") /\
    w' = mkWorld (today w) (utcnow w) (perf w) (S (S (perf_reads w))) (rng w)
                 (drawn w + Z.to_nat n * List.length included).
Proof.
  intros Hn Hh.
  destruct (@filter_horizon_returns opps horizon w Hh) as (included & excluded & Hf).
  set (w1 := mkWorld (today w) (utcnow w) (perf w) (S (perf_reads w)) (rng w) (drawn w)).
  assert (Hh1 : horizon_representable w1 horizon) by exact Hh.
  destruct (@filter_horizon_returns opps horizon w1 Hh1) as (inc1 & exc1 & Hf1).
  assert (Hsame : inc1 = included /\ exc1 = excluded).
  { destruct horizon as [d |].
    - rewrite (filter_horizon_present opps Hh) in Hf.
      rewrite (filter_horizon_present opps Hh1) in Hf1.
      simpl today in Hf1. split; congruence.
    - rewrite filter_horizon_absent in Hf, Hf1. split; congruence. }
  destruct Hsame as [-> ->].
  destruct (@run_monte_carlo_consumes included n w1 ltac:(lia))
    as (outcomes & Hrun & Hlen & Hnth).
  assert (Hne : outcomes <> []).
  { intro He. rewrite He in Hlen. simpl in Hlen. lia. }
  destruct (compute_summary_statistics_nonempty np_sqrt included Hne)
    as (lo & hi & _ & _ & Hs).
  exists included, excluded, outcomes. eexists; eexists; eexists; eexists; eexists.
  split; [exact Hf |]. split; [exact Hlen |]. split; [exact Hnth |].
  split.
  { intro He. rewrite He in Hrun. apply (run_monte_carlo_empty_zeros _ _ Hrun). }
  split; [exact Hs |].
  split; [apply compute_target_analysis_nonzero; lia |].
  split; [apply compute_histogram_buckets; lia |].
  split.
  - unfold run_full_simulation, bind.
    change (perf_counter w) with (@inr exn _ (perf w (perf_reads w), w1)).
    cbv iota beta. rewrite Hf1, Hrun.
    unfold lift at 1. rewrite Hs.
    unfold lift at 1. fold (effective_targets targets).
    rewrite compute_target_analysis_nonzero by lia.
    unfold lift at 1. rewrite compute_histogram_buckets by lia.
    reflexivity.
  - clear Hf Hf1 Hrun Hnth Hs.
    destruct included as [| o included]; (split; [reflexivity |]).
    + cbn. f_equal. lia.
    + unfold consume. cbn. reflexivity.
Qed.

Lemma target_probabilities_unit_interval (outcomes targets : list Q) :
  outcomes <> [] ->
  exists records,
    compute_target_analysis outcomes targets (len outcomes) = inr records /\
    Forall (fun r => 0 <= TargetAnalysis.probability r /\
                     TargetAnalysis.probability r <= 1) records.
Proof.
  intro Hne. pose proof (len_pos Hne) as HN.
  assert (HNq : 0 < inject_Z (len outcomes)) by (rewrite <- (Zlt_Qlt 0); lia).
  eexists. split; [apply compute_target_analysis_nonzero; lia |].
  apply Forall_map, Forall_forall. intros t _. simpl.
  pose proof (count_if_bounds (fun x => Qle_bool t x) outcomes) as [Hc0 Hc1].
  apply py_round_unit_interval; apply fl_unit_interval; unfold hitProbability.
  - apply Qle_shift_div_l; [exact HNq |]. rewrite Qmult_0_l, <- (Zle_Qle 0). exact Hc0.
  - apply Qle_shift_div_r; [exact HNq |]. rewrite Qmult_1_l, <- Zle_Qle. exact Hc1.
  - apply Qle_shift_div_l; [exact HNq |]. rewrite Qmult_0_l, <- (Zle_Qle 0). exact Hc0.
  - apply Qle_shift_div_r; [exact HNq |]. rewrite Qmult_1_l, <- Zle_Qle. exact Hc1.
Qed.

Lemma len_of_length {A} (l : list A) (n : Z) :
  (0 <= n)%Z -> List.length l = Z.to_nat n -> len l = n.
Proof. intros Hn H. unfold len. rewrite H. apply Z2Nat.id, Hn. Qed.

(** X17. Target analysis of a request: the orchestrator analyses the
    caller's targets when the list is non-empty and the five configured
    defaults when it is absent or empty, returns one record per target,
    and every hit probability it reports lies in [0, 1]. *)
Theorem orchestrator_target_analysis :
  forall (np_sqrt : Q -> Q) (opps : list Opportunity.t) (n : Z)
         (horizon : option Z) (targets : option (list Q)) (w : world),
    (0 < n)%Z ->
    horizon_representable w horizon ->
    exists r w',
      run_full_simulation np_sqrt opps n horizon targets w = inr (r, w') /\
      Permutation
        (map TargetAnalysis.target (SimulationResponse.target_analysis r))
        (map (fun t => py_round t 2)
             (match targets with
              | Some (t :: ts) => t :: ts
              | _ => default_revenue_targets
              end)) /\
      Forall (fun rec => 0 <= TargetAnalysis.probability rec /\
                         TargetAnalysis.probability rec <= 1)
             (SimulationResponse.target_analysis r).
Proof.
  intros np_sqrt opps n horizon targets w Hn Hh.
  destruct (@run_full_simulation_parts np_sqrt opps n horizon targets w Hn Hh)
    as (included & excluded & outcomes & s & records & buckets & r & w'
        & _ & Hlen & _ & _ & _ & Hrec & _ & Hrun & -> & _).
  eexists; eexists. split; [exact Hrun |]. simpl.
  assert (Hne : outcomes <> []).
  { intro He. rewrite He in Hlen. simpl in Hlen. lia. }
  pose proof (@len_of_length _ outcomes n ltac:(lia) Hlen) as HN.
  split.
  - rewrite compute_target_analysis_nonzero in Hrec by lia. injection Hrec as <-.
    rewrite map_map. simpl.
    apply Permutation_map, Permutation_sym.
    assert (He : effective_targets targets
                 = match targets with
                   | Some (t :: ts) => t :: ts
                   | _ => default_revenue_targets
                   end) by (destruct targets as [[| t ts] |]; reflexivity).
    rewrite <- He. apply QSort.Permuted_sort.
  - destruct (@target_probabilities_unit_interval outcomes (effective_targets targets) Hne)
      as (records' & Hrec' & Hall).
    rewrite HN in Hrec'. congruence.
Qed.

(** X18. Histogram of a request: the orchestrator returns 12 buckets whose
    counts add up to the trial count, with every frequency in [0, 1] and
    the frequencies adding up to 1 within 0.0006. *)
Theorem orchestrator_histogram :
  forall (np_sqrt : Q -> Q) (opps : list Opportunity.t) (n : Z)
         (horizon : option Z) (targets : option (list Q)) (w : world),
    (0 < n)%Z ->
    horizon_representable w horizon ->
    exists r w',
      run_full_simulation np_sqrt opps n horizon targets w = inr (r, w') /\
      len (SimulationResponse.histogram_buckets r) = 12%Z /\
      total_count (SimulationResponse.histogram_buckets r) = n /\
      Forall (fun b => 0 <= HistogramBucket.frequency b /\
                       HistogramBucket.frequency b <= 1)
             (SimulationResponse.histogram_buckets r) /\
      Qabs (total_frequency (SimulationResponse.histogram_buckets r) - 1) <= 6 # 10000.
Proof.
  intros np_sqrt opps n horizon targets w Hn Hh.
  destruct (@run_full_simulation_parts np_sqrt opps n horizon targets w Hn Hh)
    as (included & excluded & outcomes & s & records & buckets & r & w'
        & _ & Hlen & _ & _ & _ & _ & Hhist & Hrun & -> & _).
  eexists; eexists. split; [exact Hrun |]. simpl.
  assert (Hne : outcomes <> []).
  { intro He. rewrite He in Hlen. simpl in Hlen. lia. }
  pose proof (@len_of_length _ outcomes n ltac:(lia) Hlen) as HN.
  destruct (@compute_histogram_frequencies outcomes 12 Hne ltac:(lia))
    as (buckets' & Hc & Hl & Ht & Hf & Hs).
  assert (buckets' = buckets) by congruence. subst buckets'.
  rewrite HN in Ht.
  split; [exact Hl |]. split; [exact Ht |]. split; [exact Hf |].
  eapply Qle_trans; [exact Hs |]. unfold Qle. simpl. lia.
Qed.

(** X19. State left by a request: the orchestrator reads the performance
    counter twice and takes [num_simulations * len(included)] draws from
    the generator, in order; the date, the wall clock and the future of
    both streams are untouched. *)
Theorem orchestrator_state_effects :
  forall (np_sqrt : Q -> Q) (opps : list Opportunity.t) (n : Z)
         (horizon : option Z) (targets : option (list Q)) (w : world),
    (0 < n)%Z ->
    horizon_representable w horizon ->
    exists r w',
      run_full_simulation np_sqrt opps n horizon targets w = inr (r, w') /\
      today w' = today w /\ utcnow w' = utcnow w /\
      perf w' = perf w /\ rng w' = rng w /\
      perf_reads w' = (perf_reads w + 2)%nat /\
      Z.of_nat (drawn w') =
        (Z.of_nat (drawn w) +
         n * SimulationMetadata.opportunities_included (SimulationResponse.metadata r))%Z.
Proof.
  intros np_sqrt opps n horizon targets w Hn Hh.
  destruct (@run_full_simulation_parts np_sqrt opps n horizon targets w Hn Hh)
    as (included & excluded & outcomes & s & records & buckets & r & w'
        & _ & _ & _ & _ & _ & _ & _ & Hrun & -> & ->).
  eexists; eexists. split; [exact Hrun |]. simpl.
  repeat split; try lia. unfold len. nia.
Qed.

(** X20. The endpoint on a validated request: whenever today is a date at
    least 730 days before the last date Python supports, the endpoint
    answers an accepted request with status 200, and the result echoes
    the trial count and the horizon and accounts for every opportunity of
    the payload as included or filtered out. *)
Theorem simulate_answers_validated_requests :
  forall (np_sqrt : Q -> Q) (raw : list (string * Q * Q * Z))
         (num_simulations : option Z) (horizon : option Z)
         (targets : option (list Q)) (req : SimulationRequest.t) (w : world),
    SimulationRequest_validate raw num_simulations horizon targets = Some req ->
    (MINORDINAL <= today w <= MAXORDINAL - 730)%Z ->
    exists r,
      simulate np_sqrt req w = Response200 r /\
      SimulationMetadata.num_simulations (SimulationResponse.metadata r)
        = match num_simulations with Some n => n | None => 10000%Z end /\
      SimulationMetadata.time_horizon_days (SimulationResponse.metadata r) = horizon /\
      (SimulationMetadata.opportunities_included (SimulationResponse.metadata r) +
       SimulationMetadata.opportunities_filtered_out (SimulationResponse.metadata r)
       = len raw)%Z.
Proof.
  intros np_sqrt raw num_simulations horizon targets req w Hv Htoday.
  apply SimulationRequest_validate_Some in Hv.
  destruct Hv as (opps & Hopps & Hlen & Hn & Hh & _ & ->).
  assert (Hrep : horizon_representable w horizon).
  { destruct horizon as [d |]; [| exact I]. specialize (Hh d eq_refl).
    unfold horizon_representable, window_representable, MINORDINAL, MAXORDINAL in *.
    lia. }
  destruct (@run_full_simulation_parts
              np_sqrt opps (match num_simulations with Some n => n | None => 10000%Z end)
              horizon targets w ltac:(lia) Hrep)
    as (included & excluded & outcomes & s & records & buckets & r & w'
        & Hf & _ & _ & _ & _ & _ & _ & Hrun & -> & _).
  eexists. split.
  - unfold simulate. simpl. rewrite Hrun. reflexivity.
  - simpl. split; [reflexivity |]. split; [reflexivity |].
    destruct (filter_horizon_shape _ _ _ Hf) as (_ & -> & _).
    pose proof (Forall2_length Hopps). unfold len. lia.
Qed.

Lemma Forall2_map_self {A B} (P : A -> B -> Prop) (f : A -> B) (l : list A) :
  (forall x, P x (f x)) -> Forall2 P l (map f l).
Proof. intro H. induction l as [| x l IH]; simpl; constructor; auto. Qed.

Lemma count_if_all_zero (t : Q) (l : list Q) :
  0 < t -> all_zero l -> count_if (fun x => Qle_bool t x) l = 0%Z.
Proof.
  intros Ht H. induction H as [| x l -> _ IH]; [reflexivity |].
  rewrite count_if_cons, IH.
  destruct (Qle_bool t 0) eqn:E; [| reflexivity].
  apply Qle_bool_iff in E. lra.
Qed.

(** X21. An empty selection is a valid run: when the filter includes no
    opportunity (or none was given) and the trial count is positive, the
    orchestrator still returns a result, takes no draw from the generator,
    and reports 0 for the mean, the median, the percentiles, the minimum,
    the maximum and both pipeline values, and a hit probability of 0 for
    every positive target. *)
Theorem orchestrator_empty_selection :
  forall (np_sqrt : Q -> Q) (opps : list Opportunity.t) (n : Z)
         (horizon : option Z) (targets : option (list Q)) (w : world) (excluded : Z),
    (0 < n)%Z ->
    filter_opportunities_by_horizon opps horizon w = inr (([], excluded), w) ->
    exists r w',
      run_full_simulation np_sqrt opps n horizon targets w = inr (r, w') /\
      drawn w' = drawn w /\
      SimulationMetadata.opportunities_included (SimulationResponse.metadata r) = 0%Z /\
      SimulationMetadata.opportunities_filtered_out (SimulationResponse.metadata r)
        = len opps /\
      Forall (fun x => x == 0)
             (let s := SimulationResponse.summary_statistics r in
              [SummaryStatistics.mean s; SummaryStatistics.median s;
               SummaryStatistics.p10 s; SummaryStatistics.p25 s;
               SummaryStatistics.p75 s; SummaryStatistics.p90 s;
               SummaryStatistics.min_outcome s; SummaryStatistics.max_outcome s;
               SummaryStatistics.total_pipeline_value s;
               SummaryStatistics.weighted_pipeline_value s]) /\
      Forall2 (fun t rec => 0 < t -> TargetAnalysis.probability rec == 0)
              (sorted (effective_targets targets))
              (SimulationResponse.target_analysis r).
Proof.
  intros np_sqrt opps n horizon targets w excluded Hn Hf.
  assert (Hh : horizon_representable w horizon).
  { destruct horizon as [d |]; [| exact I].
    apply (proj2 (filter_overflow_iff_lemma opps d w)). eauto. }
  destruct (@run_full_simulation_parts np_sqrt opps n horizon targets w Hn Hh)
    as (included & excluded' & outcomes & s & records & buckets & r & w'
        & Hf' & Hlen & _ & Hzero & Hs & Hrec & _ & Hrun & -> & ->).
  rewrite Hf in Hf'. injection Hf' as <- <-.
  specialize (Hzero eq_refl).
  destruct (filter_horizon_shape _ _ _ Hf) as (_ & Hex & _).
  assert (Hne : outcomes <> []).
  { intro He. rewrite He in Hlen. simpl in Hlen. lia. }
  eexists; eexists. split; [exact Hrun |]. simpl.
  split; [lia |]. split; [reflexivity |].
  split; [rewrite Hex; unfold len; simpl; lia |].
  split.
  - destruct (compute_summary_statistics_nonempty np_sqrt [] Hne)
      as (lo & hi & Hlo & Hhi & Hs').
    rewrite Hs in Hs'. injection Hs' as ->. simpl.
    destruct outcomes as [| x rest]; [congruence |].
    rewrite (np_min_zero Hzero) in Hlo. rewrite (np_max_zero Hzero) in Hhi.
    injection Hlo as <-. injection Hhi as <-.
    repeat apply Forall_cons; try apply Forall_nil;
      try (apply np_percentile_zero, Hzero); try reflexivity.
    + apply np_mean_zero, Hzero.
    + apply np_median_zero, Hzero.
  - rewrite compute_target_analysis_nonzero in Hrec by lia. injection Hrec as <-.
    apply Forall2_map_self. intros t Ht. simpl.
    apply py_round_zero, fl_zero. unfold hitProbability.
    rewrite (count_if_all_zero Ht Hzero). unfold Qdiv. change (inject_Z 0) with 0. ring.
Qed.

(** ** The further properties on the sample data *)

Lemma run_monte_carlo_batches_compose_witness :
  exists out1 w1 out2 w2,
    run_monte_carlo sample_opportunities 300 sample_world = inr (out1, w1) /\
    run_monte_carlo sample_opportunities 700 w1 = inr (out2, w2) /\
    run_monte_carlo sample_opportunities (300 + 700) sample_world
      = inr (out1 ++ out2, w2) /\
    drawn w2 = (drawn sample_world
                + Z.to_nat (300 + 700) * List.length sample_opportunities)%nat.
Proof.
  apply (@run_monte_carlo_batches_compose sample_opportunities 300 700 sample_world);
    lia.
Defined.

Lemma sample_probabilities_raised :
  probabilities_raised sample_opportunities sample_opportunities_raised.
Proof.
  unfold probabilities_raised, sample_opportunities, sample_opportunities_raised.
  repeat constructor; simpl; unfold Qle; simpl; lia.
Defined.

Lemma sample_amounts_non_negative :
  Forall (fun o => 0 <= Opportunity.amount o) sample_opportunities.
Proof.
  unfold sample_opportunities. repeat constructor; simpl; unfold Qle; simpl; lia.
Defined.

Lemma run_monte_carlo_monotone_in_probability_witness :
  exists out out' w',
    run_monte_carlo sample_opportunities 1000 sample_world = inr (out, w') /\
    run_monte_carlo sample_opportunities_raised 1000 sample_world = inr (out', w') /\
    forall i, (i < Z.to_nat 1000)%nat -> nth i out 0 <= nth i out' 0.
Proof.
  apply (@run_monte_carlo_monotone_in_probability
           sample_opportunities sample_opportunities_raised 1000 sample_world).
  - exact sample_probabilities_raised.
  - exact sample_amounts_non_negative.
  - lia.
Defined.


Lemma target_probabilities_non_increasing_witness :
  exists records,
    compute_target_analysis [0; 1; 2] [2; 1; 1 # 2] 3 = inr records /\
    StronglySorted
      (fun r1 r2 => TargetAnalysis.probability r2 <= TargetAnalysis.probability r1)
      records.
Proof.
  apply (@target_probabilities_non_increasing [0; 1; 2] [2; 1; 1 # 2] 3). lia.
Defined.

Lemma target_analysis_zero_trials_witness :
  compute_target_analysis [] [inject_Z 1000000] 0 = inl ZeroDivisionError.
Proof.
  apply (proj1 (target_analysis_zero_trials [] [inject_Z 1000000])). discriminate.
Defined.

Lemma histogram_frequencies_sum_near_one_witness :
  exists buckets,
    compute_histogram [0; 1; 2] 12 = inr buckets /\
    Forall (fun b => 0 <= HistogramBucket.frequency b /\
                     HistogramBucket.frequency b <= 1) buckets /\
    Qabs (total_frequency buckets - 1) <= inject_Z 12 / 20000.
Proof.
  apply (@histogram_frequencies_sum_near_one [0; 1; 2] 12); [discriminate | lia].
Defined.

Lemma histogram_buckets_tile_witness :
  compute_histogram [0; 1; 2] 0 = inl ValueError /\
  exists buckets,
    compute_histogram [0; 1; 2] 12 = inr buckets /\
    (forall i b b',
        nth_error buckets i = Some b -> nth_error buckets (S i) = Some b' ->
        HistogramBucket.range_high b = HistogramBucket.range_low b') /\
    Forall (fun b => HistogramBucket.range_low b <= HistogramBucket.range_high b)
           buckets.
Proof.
  split.
  - apply (proj1 (histogram_buckets_tile [0; 1; 2] 0)). lia.
  - apply (proj2 (histogram_buckets_tile [0; 1; 2] 12)). lia.
Defined.


Lemma simulated_statistics_non_negative_witness :
  exists outcomes w' s,
    run_monte_carlo sample_opportunities 1000 sample_world = inr (outcomes, w') /\
    compute_summary_statistics sqrt_lower outcomes sample_opportunities = inr s /\
    Forall (fun x => 0 <= x)
           [SummaryStatistics.mean s; SummaryStatistics.median s;
            SummaryStatistics.p10 s; SummaryStatistics.p25 s;
            SummaryStatistics.p75 s; SummaryStatistics.p90 s;
            SummaryStatistics.min_outcome s; SummaryStatistics.max_outcome s].
Proof.
  apply (@simulated_statistics_non_negative
           sqrt_lower sample_opportunities 1000 sample_world).
  - exact sample_amounts_non_negative.
  - lia.
Defined.

Lemma sample_window_representable (days : Z) :
  (0 <= days <= 730)%Z -> window_representable sample_world days.
Proof.
  intro H. unfold window_representable, MINORDINAL, MAXORDINAL, sample_world.
  cbn [today]. lia.
Defined.

Lemma filter_monotone_in_horizon_witness :
  exists inc1 exc1 inc2 exc2,
    filter_opportunities_by_horizon sample_opportunities (Some 45%Z) sample_world
      = inr ((inc1, exc1), sample_world) /\
    filter_opportunities_by_horizon sample_opportunities (Some 100%Z) sample_world
      = inr ((inc2, exc2), sample_world) /\
    subsequence inc1 inc2 /\
    (0 <= exc2 <= exc1)%Z /\ (exc1 <= len sample_opportunities)%Z.
Proof.
  apply (@filter_monotone_in_horizon sample_opportunities 45 100 sample_world).
  - apply sample_window_representable. lia.
  - apply sample_window_representable. lia.
  - lia.
Defined.

Lemma filter_idempotent_witness :
  filter_opportunities_by_horizon (firstn 1 sample_opportunities) (Some 45%Z) sample_world
  = inr ((firstn 1 sample_opportunities, 0%Z), sample_world).
Proof.
  apply (@filter_idempotent sample_opportunities (Some 45%Z) sample_world sample_world
           (firstn 1 sample_opportunities) 3).
  reflexivity.
Defined.

Lemma filter_edge_windows_witness :
  filter_opportunities_by_horizon sample_opportunities (Some (-7)%Z) sample_world
    = inr (([], len sample_opportunities), sample_world) /\
  exists included excluded,
    filter_opportunities_by_horizon sample_opportunities (Some 0%Z) sample_world
      = inr ((included, excluded), sample_world) /\
    forall o, In o included <->
              In o sample_opportunities /\
              Opportunity.close_date o = today sample_world.
Proof.
  destruct (filter_edge_windows sample_opportunities sample_world) as [Hneg Hzero].
  split.
  - apply Hneg; [| lia].
    unfold window_representable, MINORDINAL, MAXORDINAL. simpl. lia.
  - apply Hzero, sample_window_representable. lia.
Defined.

Lemma opportunity_validation_witness :
  exists o,
    Opportunity_validate "Deal A" (1000000049 # 1000) (9 # 10) 738916 = Some o /\
    Opportunity.amount o == 100000005 # 100 /\
    whole_cents (Opportunity.amount o).
Proof.
  destruct (opportunity_validation "Deal A" (1000000049 # 1000) (9 # 10) 738916)
    as [_ Hstored].
  eexists. split; [reflexivity |].
  split; [reflexivity |].
  apply (Hstored _ eq_refl).
Defined.

Lemma tiny_amount_stored_as_zero_witness :
  exists o,
    Opportunity_validate "Crumb" (1 # 1000) (1 # 2) 738946 = Some o /\
    Opportunity.amount o == 0.
Proof.
  eexists. split; [reflexivity |].
  apply (@tiny_amount_stored_as_zero "Crumb" (1 # 1000) (1 # 2) 738946 _ eq_refl).
  reflexivity.
Defined.

Lemma orchestrator_target_analysis_witness :
  exists r w',
    run_full_simulation sqrt_lower sample_opportunities 100 (Some 45%Z) (Some [])
                        sample_world = inr (r, w') /\
    Permutation
      (map TargetAnalysis.target (SimulationResponse.target_analysis r))
      (map (fun t => py_round t 2) default_revenue_targets) /\
    Forall (fun rec => 0 <= TargetAnalysis.probability rec /\
                       TargetAnalysis.probability rec <= 1)
           (SimulationResponse.target_analysis r).
Proof.
  apply (@orchestrator_target_analysis
           sqrt_lower sample_opportunities 100 (Some 45%Z) (Some []) sample_world).
  - lia.
  - exact sample_horizon_representable.
Defined.

Lemma orchestrator_histogram_witness :
  exists r w',
    run_full_simulation sqrt_lower sample_opportunities 100 (Some 45%Z) None
                        sample_world = inr (r, w') /\
    len (SimulationResponse.histogram_buckets r) = 12%Z /\
    total_count (SimulationResponse.histogram_buckets r) = 100%Z /\
    Forall (fun b => 0 <= HistogramBucket.frequency b /\
                     HistogramBucket.frequency b <= 1)
           (SimulationResponse.histogram_buckets r) /\
    Qabs (total_frequency (SimulationResponse.histogram_buckets r) - 1) <= 6 # 10000.
Proof.
  apply (@orchestrator_histogram
           sqrt_lower sample_opportunities 100 (Some 45%Z) None sample_world).
  - lia.
  - exact sample_horizon_representable.
Defined.

Lemma orchestrator_state_effects_witness :
  exists r w',
    run_full_simulation sqrt_lower sample_opportunities 100 (Some 45%Z) None
                        sample_world = inr (r, w') /\
    today w' = today sample_world /\ utcnow w' = utcnow sample_world /\
    perf w' = perf sample_world /\ rng w' = rng sample_world /\
    perf_reads w' = (perf_reads sample_world + 2)%nat /\
    Z.of_nat (drawn w') =
      (Z.of_nat (drawn sample_world) +
       100 * SimulationMetadata.opportunities_included (SimulationResponse.metadata r))%Z.
Proof.
  apply (@orchestrator_state_effects
           sqrt_lower sample_opportunities 100 (Some 45%Z) None sample_world).
  - lia.
  - exact sample_horizon_representable.
Defined.

Lemma simulate_answers_validated_requests_witness :
  match SimulationRequest_validate sample_payload None (Some 90%Z) None with
  | Some req =>
      exists r,
        simulate sqrt_lower req sample_world = Response200 r /\
        SimulationMetadata.num_simulations (SimulationResponse.metadata r) = 10000%Z /\
        SimulationMetadata.time_horizon_days (SimulationResponse.metadata r)
          = Some 90%Z /\
        (SimulationMetadata.opportunities_included (SimulationResponse.metadata r) +
         SimulationMetadata.opportunities_filtered_out (SimulationResponse.metadata r)
         = len sample_payload)%Z
  | None => False
  end.
Proof.
  destruct (SimulationRequest_validate sample_payload None (Some 90%Z) None)
    as [req |] eqn:E.
  - apply (@simulate_answers_validated_requests
             sqrt_lower sample_payload None (Some 90%Z) None req sample_world E).
    unfold MINORDINAL, MAXORDINAL. simpl. lia.
  - vm_compute in E. discriminate E.
Defined.

Lemma orchestrator_empty_selection_witness :
  exists r w',
    run_full_simulation sqrt_lower sample_opportunities 100 (Some 10%Z) None
                        sample_world = inr (r, w') /\
    drawn w' = drawn sample_world /\
    SimulationMetadata.opportunities_included (SimulationResponse.metadata r) = 0%Z /\
    SimulationMetadata.opportunities_filtered_out (SimulationResponse.metadata r)
      = len sample_opportunities.
Proof.
  destruct (@orchestrator_empty_selection
              sqrt_lower sample_opportunities 100 (Some 10%Z) None sample_world 4
              ltac:(lia) eq_refl)
    as (r & w' & Hrun & Hd & Hi & Hx & _).
  exists r, w'. auto.
Defined.
